(** * A shallow embedding of the ZOL faction-economy program
    (programs/zol-contract/src/lib.rs) and proofs of its specification.

    Integers of the Rust code (u8, u64, i64) are [Z] with their range
    checks written out; [f64] is the binary64 format of [SpecFloat]
    (round to nearest, ties to even).  An instruction is a computation in a
    state and error monad over the world it touches (the program's
    accounts and the token balances moved by transfers); a transaction
    commits the final world when the instruction returns [Ok] and keeps
    the world as it was when it returns an error or panics. *)

From Stdlib Require Import ZArith List Lia Bool String.
From Stdlib Require Import SpecFloat.
From Stdlib Require Import Reals Lra.
Import ListNotations.
Open Scope Z_scope.

Module Zol.

(** ** Machine integers *)

Definition U64_MAX : Z := 2 ^ 64 - 1.
Definition I64_MIN : Z := - 2 ^ 63.
Definition I64_MAX : Z := 2 ^ 63 - 1.

(** [u64::checked_add] and [u64::checked_sub]. *)
Definition checked_add (a b : Z) : option Z :=
  if a + b <=? U64_MAX then Some (a + b) else None.

Definition checked_sub (a b : Z) : option Z :=
  if b <=? a then Some (a - b) else None.

(** ** Data structures (lib.rs, "Data Structures") *)

Record FactionState := mkFactionState {
  fid : Z;          (* [id: u8] *)
  name : string;
  tvl : Z;          (* u64 *)
  score : Z         (* i64 *)
}.

(** [factions: [FactionState; 3]]. *)
Record Factions := mkFactions {
  faction0 : FactionState;
  faction1 : FactionState;
  faction2 : FactionState
}.

Inductive GameStatus := Active | Settlement | Paused.

Record GameState := mkGameState {
  admin : Z;
  epoch_number : Z;     (* u64 *)
  epoch_start_ts : Z;   (* i64 *)
  epoch_end_ts : Z;     (* i64 *)
  total_tvl : Z;        (* u64 *)
  factions : Factions;
  status : GameStatus
}.

Record AutomationRule := mkAutomationRule {
  item_id : Z;          (* u8: 0=None, 1=Sword, 2=Shield, 3=Spyglass *)
  threshold : Z         (* u64 *)
}.

Inductive FallbackAction := AutoCompound | SendToWallet.

Record AutomationSettings := mkAutomationSettings {
  priority_slot_1 : AutomationRule;
  priority_slot_2 : AutomationRule;
  fallback_action : FallbackAction
}.

Record UserInventory := mkUserInventory {
  sword_count : Z;
  shield_count : Z;
  spyglass_count : Z
}.

Record UserPosition := mkUserPosition {
  owner : Z;
  faction_id : Z;           (* u8 *)
  deposited_amount : Z;     (* u64 *)
  last_deposit_epoch : Z;   (* u64 *)
  automation_settings : AutomationSettings;
  inventory : UserInventory
}.

(** [#[derive(Default)]] values. *)
Definition default_rule : AutomationRule := mkAutomationRule 0 0.
Definition default_inventory : UserInventory := mkUserInventory 0 0 0.

(** Field updates. *)
Definition set_tvl (f : FactionState) (v : Z) : FactionState :=
  mkFactionState (fid f) (name f) v (score f).
Definition set_score (f : FactionState) (v : Z) : FactionState :=
  mkFactionState (fid f) (name f) (tvl f) v.

(** Indexing [factions[k]] of the fixed array: out of bounds panics. *)
Definition faction_get (fs : Factions) (k : Z) : option FactionState :=
  if k =? 0 then Some (faction0 fs)
  else if k =? 1 then Some (faction1 fs)
  else if k =? 2 then Some (faction2 fs)
  else None.

Definition faction_put (fs : Factions) (k : Z) (f : FactionState) : Factions :=
  if k =? 0 then mkFactions f (faction1 fs) (faction2 fs)
  else if k =? 1 then mkFactions (faction0 fs) f (faction2 fs)
  else if k =? 2 then mkFactions (faction0 fs) (faction1 fs) f
  else fs.

Definition set_factions (g : GameState) (fs : Factions) : GameState :=
  mkGameState (admin g) (epoch_number g) (epoch_start_ts g) (epoch_end_ts g)
    (total_tvl g) fs (status g).
Definition set_total_tvl (g : GameState) (v : Z) : GameState :=
  mkGameState (admin g) (epoch_number g) (epoch_start_ts g) (epoch_end_ts g)
    v (factions g) (status g).
Definition set_status (g : GameState) (s : GameStatus) : GameState :=
  mkGameState (admin g) (epoch_number g) (epoch_start_ts g) (epoch_end_ts g)
    (total_tvl g) (factions g) s.
Definition set_epoch_number (g : GameState) (v : Z) : GameState :=
  mkGameState (admin g) v (epoch_start_ts g) (epoch_end_ts g)
    (total_tvl g) (factions g) (status g).
Definition set_epoch_start_ts (g : GameState) (v : Z) : GameState :=
  mkGameState (admin g) (epoch_number g) v (epoch_end_ts g)
    (total_tvl g) (factions g) (status g).
Definition set_epoch_end_ts (g : GameState) (v : Z) : GameState :=
  mkGameState (admin g) (epoch_number g) (epoch_start_ts g) v
    (total_tvl g) (factions g) (status g).

Definition set_deposited_amount (u : UserPosition) (v : Z) : UserPosition :=
  mkUserPosition (owner u) (faction_id u) v (last_deposit_epoch u)
    (automation_settings u) (inventory u).
Definition set_last_deposit_epoch (u : UserPosition) (v : Z) : UserPosition :=
  mkUserPosition (owner u) (faction_id u) (deposited_amount u) v
    (automation_settings u) (inventory u).
Definition set_automation_settings (u : UserPosition) (s : AutomationSettings)
  : UserPosition :=
  mkUserPosition (owner u) (faction_id u) (deposited_amount u)
    (last_deposit_epoch u) s (inventory u).
Definition set_inventory (u : UserPosition) (inv : UserInventory) : UserPosition :=
  mkUserPosition (owner u) (faction_id u) (deposited_amount u)
    (last_deposit_epoch u) (automation_settings u) inv.

Definition set_sword_count (inv : UserInventory) (v : Z) : UserInventory :=
  mkUserInventory v (shield_count inv) (spyglass_count inv).
Definition set_shield_count (inv : UserInventory) (v : Z) : UserInventory :=
  mkUserInventory (sword_count inv) v (spyglass_count inv).
Definition set_spyglass_count (inv : UserInventory) (v : Z) : UserInventory :=
  mkUserInventory (sword_count inv) (shield_count inv) v.

(** ** The world an instruction runs against

    The token accounts the program moves value between: the vault PDA,
    the shop treasury, the USDC account of the [n]-th registered user,
    and the provider of injected yield.  User positions are the PDAs
    [["user", owner]], in order of registration. *)

Inductive TokenAccount :=
  | Vault | ShopTreasury | UserUsdc (n : nat) | ProviderUsdc.

Definition token_account_eqb (a b : TokenAccount) : bool :=
  match a, b with
  | Vault, Vault | ShopTreasury, ShopTreasury | ProviderUsdc, ProviderUsdc => true
  | UserUsdc n, UserUsdc m => Nat.eqb n m
  | _, _ => false
  end.

Record World := mkWorld {
  game_state : GameState;
  user_positions : list UserPosition;
  token_balance : TokenAccount -> Z
}.

Definition set_game_state (w : World) (g : GameState) : World :=
  mkWorld g (user_positions w) (token_balance w).
Definition set_user_positions (w : World) (us : list UserPosition) : World :=
  mkWorld (game_state w) us (token_balance w).
Definition set_token_balance (w : World) (b : TokenAccount -> Z) : World :=
  mkWorld (game_state w) (user_positions w) b.

(** Replace the [i]-th element of a list (unchanged out of range). *)
Fixpoint list_set {A} (l : list A) (i : nat) (x : A) : list A :=
  match l, i with
  | [], _ => []
  | _ :: t, O => x :: t
  | h :: t, S j => h :: list_set t j x
  end.

(** ** Errors and the instruction monad *)

Inductive ZolError := InvalidFaction | InsufficientFunds | EpochNotEnded.

Inductive Error :=
  | Custom (e : ZolError)   (* [ZolError] returned by [require!] *)
  | Panic                   (* [unwrap] of [None], integer overflow *)
  | TransferFailed          (* the token program rejects a transfer *)
  | AccountNotFound         (* no user position for the given user *)
  | AccountInUse            (* [init] of a position that exists *)
  | ConstraintAddress.      (* [address = game_state.admin] fails *)

Definition M (A : Type) : Type := World -> (Error + A) * World.

Definition ret {A} (a : A) : M A := fun w => (inr a, w).

Definition bind {A B} (m : M A) (k : A -> M B) : M B :=
  fun w => match m w with
           | (inl e, w') => (inl e, w')
           | (inr a, w') => k a w'
           end.

Notation "x <- m ;; k" := (bind m (fun x => k))
  (at level 61, m at next level, right associativity).
Notation "m ;; k" := (bind m (fun _ => k))
  (at level 61, right associativity).

Definition throw {A} (e : Error) : M A := fun w => (inl e, w).

(** [Option::unwrap]: [None] panics. *)
Definition unwrap {A} (o : option A) : M A :=
  match o with Some a => ret a | None => throw Panic end.

Definition get_game_state : M GameState := fun w => (inr (game_state w), w).
Definition put_game_state (g : GameState) : M unit :=
  fun w => (inr tt, set_game_state w g).

Definition get_user (i : nat) : M UserPosition :=
  fun w => match nth_error (user_positions w) i with
           | Some u => (inr u, w)
           | None => (inl AccountNotFound, w)
           end.
Definition put_user (i : nat) (u : UserPosition) : M unit :=
  fun w => (inr tt, set_user_positions w (list_set (user_positions w) i u)).

(** [game_state.factions[k as usize]]. *)
Definition faction_at (g : GameState) (k : Z) : M FactionState :=
  unwrap (faction_get (factions g) k).

(** [game_state.factions[k as usize] = f]. *)
Definition put_faction (k : Z) (f : FactionState) : M unit :=
  g <- get_game_state ;;
  put_game_state (set_factions g (faction_put (factions g) k f)).

(** The SPL token transfer invoked by [token::transfer]: it fails when
    the source holds less than [amount] or the destination would overflow;
    a transfer of an account to itself changes nothing. *)
Definition token_transfer (from to : TokenAccount) (amount : Z) : M unit :=
  fun w =>
    let b := token_balance w in
    if b from <? amount then (inl TransferFailed, w)
    else if token_account_eqb from to then (inr tt, w)
    else if U64_MAX <? b to + amount then (inl TransferFailed, w)
    else (inr tt, set_token_balance w
            (fun a => if token_account_eqb a from then b from - amount
                      else if token_account_eqb a to then b to + amount
                      else b a)).

(** Modelled from the spec: the overflow behaviour of the plain operators
    [+=] and [+] on integers is fixed by the build profile (the workspace
    [Cargo.toml] and its [overflow-checks] setting), which is not among
    the sources; the spec says every overflow is a fatal error, so an
    overflowing [u64] or [i64] addition panics. *)
Definition add_assign_u64 (a b : Z) : M Z :=
  if a + b <=? U64_MAX then ret (a + b) else throw Panic.

Definition add_i64 (a b : Z) : M Z :=
  if (I64_MIN <=? a + b) && (a + b <=? I64_MAX) then ret (a + b) else throw Panic.

(** A transaction: the world after an instruction that returned [Ok], or
    the error; the runtime discards every write of a failed instruction. *)
Definition commit (m : M unit) (w : World) : Error + World :=
  match m w with
  | (inl e, _) => inl e
  | (inr _, w') => inr w'
  end.

(** The world as observed after the transaction, committed or not. *)
Definition after (m : M unit) (w : World) : World :=
  match commit m w with inl _ => w | inr w' => w' end.

(** ** binary64 ([f64]) *)

Definition f64 := spec_float.
Definition f64_prec : Z := 53.
Definition f64_emax : Z := 1024.

(** [n as f64] for an integer [n]: rounded to nearest, ties to even. *)
Definition f64_of_Z (n : Z) : f64 := binary_normalize f64_prec f64_emax n 0 false.
Definition f64_div (x y : f64) : f64 := SFdiv f64_prec f64_emax x y.
Definition f64_sub (x y : f64) : f64 := SFsub f64_prec f64_emax x y.
Definition f64_mul (x y : f64) : f64 := SFmul f64_prec f64_emax x y.
Definition f64_eqb (x y : f64) : bool := SFeqb x y.

(** [x as i64]: truncation toward zero, saturating at the bounds of
    [i64], with NaN sent to 0. *)
Definition f64_to_i64 (x : f64) : Z :=
  match x with
  | S754_zero _ | S754_nan => 0
  | S754_infinity s => if s then I64_MIN else I64_MAX
  | S754_finite s m e =>
      let v := if 0 <=? e then Z.shiftl (Zpos m) e else Z.shiftr (Zpos m) (- e) in
      let v := if s then - v else v in
      Z.max I64_MIN (Z.min I64_MAX v)
  end.

(** ** Instructions ([mod zol_contract]) *)

Definition EPOCH_DURATION : Z := 259200.

Definition initial_factions : Factions :=
  mkFactions (mkFactionState 0 "Vanguard" 0 0)
             (mkFactionState 1 "Mage" 0 0)
             (mkFactionState 2 "Assassin" 0 0).

(** [initialize_game]; [now] is [Clock::get()?.unix_timestamp]. *)
Definition initialize_game (admin_key now : Z) : M unit :=
  end_ts <- add_i64 now EPOCH_DURATION ;;
  put_game_state (mkGameState admin_key 1 now end_ts 0 initial_factions Active).

(** [register_user]: creates the position [["user", user]]. *)
Definition register_user (user : Z) (faction_id : Z) : M unit :=
  if faction_id <? 3 then
    fun w =>
      if existsb (fun u => owner u =? user) (user_positions w)
      then (inl AccountInUse, w)
      else
        (inr tt, set_user_positions w
           (user_positions w ++
              [mkUserPosition user faction_id 0 (epoch_number (game_state w))
                 (mkAutomationSettings default_rule default_rule AutoCompound)
                 default_inventory]))
  else throw (Custom InvalidFaction).

Definition deposit (i : nat) (amount : Z) : M unit :=
  user_position <- get_user i ;;
  token_transfer (UserUsdc i) Vault amount ;;
  d <- unwrap (checked_add (deposited_amount user_position) amount) ;;
  g <- get_game_state ;;
  let user_position :=
    set_last_deposit_epoch (set_deposited_amount user_position d) (epoch_number g) in
  put_user i user_position ;;
  t <- unwrap (checked_add (total_tvl g) amount) ;;
  put_game_state (set_total_tvl g t) ;;
  g <- get_game_state ;;
  f <- faction_at g (faction_id user_position) ;;
  v <- unwrap (checked_add (tvl f) amount) ;;
  put_faction (faction_id user_position) (set_tvl f v).

Definition withdraw (i : nat) (amount : Z) : M unit :=
  user_position <- get_user i ;;
  if amount <=? deposited_amount user_position then
    token_transfer Vault (UserUsdc i) amount ;;
    d <- unwrap (checked_sub (deposited_amount user_position) amount) ;;
    let user_position := set_deposited_amount user_position d in
    put_user i user_position ;;
    g <- get_game_state ;;
    t <- unwrap (checked_sub (total_tvl g) amount) ;;
    put_game_state (set_total_tvl g t) ;;
    g <- get_game_state ;;
    f <- faction_at g (faction_id user_position) ;;
    v <- unwrap (checked_sub (tvl f) amount) ;;
    put_faction (faction_id user_position) (set_tvl f v)
  else throw (Custom InsufficientFunds).

Definition update_automation (i : nat) (slot_1 slot_2 : AutomationRule)
  (fallback : FallbackAction) : M unit :=
  user_position <- get_user i ;;
  put_user i (set_automation_settings user_position
                (mkAutomationSettings slot_1 slot_2 fallback)).

(** [#[account(address = game_state.admin)] admin: Signer]. *)
Definition require_admin (signer : Z) : M unit :=
  g <- get_game_state ;;
  if signer =? admin g then ret tt else throw ConstraintAddress.

Definition resolve_epoch (signer : Z) : M unit :=
  require_admin signer ;;
  g <- get_game_state ;;
  put_game_state (set_status g Settlement) ;;
  g <- get_game_state ;;
  let total_tvl := f64_of_Z (total_tvl g) in
  if f64_eqb total_tvl (f64_of_Z 0) then ret tt
  else
    let fs := factions g in
    let tvl_0 := f64_of_Z (tvl (faction0 fs)) in
    let tvl_1 := f64_of_Z (tvl (faction1 fs)) in
    let tvl_2 := f64_of_Z (tvl (faction2 fs)) in
    let pct_0 := f64_div tvl_0 total_tvl in
    let pct_1 := f64_div tvl_1 total_tvl in
    let pct_2 := f64_div tvl_2 total_tvl in
    let score_0 := f64_sub pct_2 pct_1 in
    let score_1 := f64_sub pct_0 pct_2 in
    let score_2 := f64_sub pct_1 pct_0 in
    let scale := f64_of_Z 10000 in
    put_game_state (set_factions g
      (mkFactions (set_score (faction0 fs) (f64_to_i64 (f64_mul score_0 scale)))
                  (set_score (faction1 fs) (f64_to_i64 (f64_mul score_1 scale)))
                  (set_score (faction2 fs) (f64_to_i64 (f64_mul score_2 scale))))).

(** The closure [get_item_price]. *)
Definition get_item_price (id : Z) : Z :=
  if id =? 1 then 10000000
  else if id =? 2 then 2000000
  else if id =? 3 then 5000000
  else 0.

(** The closure [process_rule] run on the inventory of the [i]-th user;
    it returns whether it bought and the budget left. *)
Definition process_rule (i : nat) (rule : AutomationRule) (budget : Z)
  : M (bool * Z) :=
  if item_id rule =? 0 then ret (false, budget)
  else if budget <? threshold rule then ret (false, budget)
  else
    let price := get_item_price (item_id rule) in
    if (price =? 0) || (budget <? price) then ret (false, budget)
    else
      budget <- unwrap (checked_sub budget price) ;;
      user_position <- get_user i ;;
      let inv := inventory user_position in
      inv <- (if item_id rule =? 1 then
                c <- unwrap (checked_add (sword_count inv) 1) ;; ret (set_sword_count inv c)
              else if item_id rule =? 2 then
                c <- unwrap (checked_add (shield_count inv) 1) ;; ret (set_shield_count inv c)
              else if item_id rule =? 3 then
                c <- unwrap (checked_add (spyglass_count inv) 1) ;; ret (set_spyglass_count inv c)
              else ret inv) ;;
      put_user i (set_inventory user_position inv) ;;
      token_transfer Vault ShopTreasury price ;;
      ret (true, budget).

(** Logic A of [execute_settlement] (the buffs): [None] is the early
    [return Ok(())] of a loss without shield, [Some final_yield] goes on. *)
Definition apply_buffs (i : nat) (yield_amount : Z) : M (option Z) :=
  user_position <- get_user i ;;
  g <- get_game_state ;;
  f <- faction_at g (faction_id user_position) ;;
  let faction_score := score f in
  let inv := inventory user_position in
  if faction_score <=? 0 then
    if 0 <? shield_count inv then
      s <- unwrap (checked_sub (shield_count inv) 1) ;;
      put_user i (set_inventory user_position (set_shield_count inv s)) ;;
      ret (Some 2000000)
    else ret None
  else if 0 <? sword_count inv then
    let bonus := yield_amount / 5 in
    y <- unwrap (checked_add yield_amount bonus) ;;
    ret (Some y)
  else ret (Some yield_amount).

(** The rest of [execute_settlement], from [if final_yield == 0]: the
    priority slots (Logic B) and the fallback (Logic C). *)
Definition automation_pipeline (i : nat) (final_yield : Z) : M unit :=
  if final_yield =? 0 then ret tt
  else
    let remaining_yield := final_yield in
    user_position <- get_user i ;;
    let slot_1 := priority_slot_1 (automation_settings user_position) in
    let slot_2 := priority_slot_2 (automation_settings user_position) in
    let fallback := fallback_action (automation_settings user_position) in
    r1 <- process_rule i slot_1 remaining_yield ;;
    r2 <- process_rule i slot_2 (snd r1) ;;
    let remaining_yield := snd r2 in
    if 0 <? remaining_yield then
      match fallback with
      | SendToWallet => token_transfer Vault (UserUsdc i) remaining_yield
      | AutoCompound =>
          user_position <- get_user i ;;
          d <- unwrap (checked_add (deposited_amount user_position) remaining_yield) ;;
          put_user i (set_deposited_amount user_position d) ;;
          g <- get_game_state ;;
          t <- unwrap (checked_add (total_tvl g) remaining_yield) ;;
          put_game_state (set_total_tvl g t) ;;
          g <- get_game_state ;;
          f <- faction_at g (faction_id user_position) ;;
          v <- unwrap (checked_add (tvl f) remaining_yield) ;;
          put_faction (faction_id user_position) (set_tvl f v)
      end
    else ret tt.

Definition execute_settlement (i : nat) (yield_amount : Z) : M unit :=
  o <- apply_buffs i yield_amount ;;
  match o with
  | None => ret tt
  | Some final_yield => automation_pipeline i final_yield
  end.

Definition start_new_epoch (signer now : Z) : M unit :=
  require_admin signer ;;
  g <- get_game_state ;;
  n <- add_assign_u64 (epoch_number g) 1 ;;
  put_game_state (set_epoch_number g n) ;;
  g <- get_game_state ;;
  put_game_state (set_epoch_start_ts g now) ;;
  end_ts <- add_i64 now EPOCH_DURATION ;;
  g <- get_game_state ;;
  put_game_state (set_epoch_end_ts g end_ts) ;;
  g <- get_game_state ;;
  put_game_state (set_status g Active) ;;
  g <- get_game_state ;;
  let fs := factions g in
  put_game_state (set_factions g
    (mkFactions (set_score (faction0 fs) 0) (set_score (faction1 fs) 0)
                (set_score (faction2 fs) 0))).

Definition inject_yield (amount : Z) : M unit :=
  token_transfer ProviderUsdc Vault amount.

(** ** Transactions *)

Inductive Instruction :=
  | IRegisterUser (user faction_id : Z)
  | IDeposit (i : nat) (amount : Z)
  | IWithdraw (i : nat) (amount : Z)
  | IUpdateAutomation (i : nat) (slot_1 slot_2 : AutomationRule) (fallback : FallbackAction)
  | IResolveEpoch (signer : Z)
  | IExecuteSettlement (i : nat) (yield_amount : Z)
  | IStartNewEpoch (signer now : Z)
  | IInjectYield (amount : Z).

Definition instruction_denote (ins : Instruction) : M unit :=
  match ins with
  | IRegisterUser u f => register_user u f
  | IDeposit i a => deposit i a
  | IWithdraw i a => withdraw i a
  | IUpdateAutomation i s1 s2 fb => update_automation i s1 s2 fb
  | IResolveEpoch s => resolve_epoch s
  | IExecuteSettlement i y => execute_settlement i y
  | IStartNewEpoch s now => start_new_epoch s now
  | IInjectYield a => inject_yield a
  end.

(** A sequence of transactions; a failed one leaves the world as it was. *)
Fixpoint run_transactions (w : World) (l : list Instruction) : World :=
  match l with
  | [] => w
  | ins :: l => run_transactions (after (instruction_denote ins) w) l
  end.

(** The world before [initialize_game]: no user position, a placeholder
    for the game state account that [initialize_game] fills in. *)
Definition pre_genesis (balances : TokenAccount -> Z) : World :=
  mkWorld (mkGameState 0 0 0 0 0 initial_factions Paused) [] balances.

Definition genesis (admin_key now : Z) (balances : TokenAccount -> Z) : option World :=
  match commit (initialize_game admin_key now) (pre_genesis balances) with
  | inl _ => None
  | inr w => Some w
  end.

(** ** Sample worlds *)

(** A position of faction [k] holding the inventory [inv], with the
    automation [slot_1], [slot_2], [fallback]. *)
Definition sample_user (k : Z) (inv : UserInventory)
  (slot_1 slot_2 : AutomationRule) (fallback : FallbackAction) : UserPosition :=
  mkUserPosition 11 k 0 1 (mkAutomationSettings slot_1 slot_2 fallback) inv.

(** Factions with TVL 10, 0, 0 and the scores [resolve_epoch] gives them. *)
Definition sample_factions : Factions :=
  mkFactions (mkFactionState 0 "Vanguard" 10000000 0)
             (mkFactionState 1 "Mage" 0 10000)
             (mkFactionState 2 "Assassin" 0 (-10000)).

(** The [n]-th user is [u]; the vault holds [vault]. *)
Definition sample_world (u : UserPosition) (vault : Z) : World :=
  mkWorld (mkGameState 7 1 1000 260200 10000000 sample_factions Settlement)
    [mkUserPosition 10 0 10000000 1
       (mkAutomationSettings default_rule default_rule AutoCompound) default_inventory;
     u]
    (fun a => match a with Vault => vault | _ => 0 end).

(** ** Running the monad *)

Lemma bind_unfold {A B} (m : M A) (k : A -> M B) (w : World) :
  bind m k w = match m w with
               | (inl e, w') => (inl e, w')
               | (inr a, w') => k a w'
               end.
Proof. reflexivity. Qed.

Lemma get_user_some (i : nat) (u : UserPosition) (w : World) :
  nth_error (user_positions w) i = Some u -> get_user i w = (inr u, w).
Proof. intros H. unfold get_user. now rewrite H. Qed.

Lemma faction_at_some (g : GameState) (k : Z) (f : FactionState) (w : World) :
  faction_get (factions g) k = Some f -> faction_at g k w = (inr f, w).
Proof. intros H. unfold faction_at. now rewrite H. Qed.

(** ** C7: a slot that cannot buy is a no-op *)

(** Claim C7: a slot whose item id is 0 or outside 1..3, or whose
    threshold check passes but whose price exceeds the budget, leaves the
    budget, the inventory and every token balance as they were: the whole
    world is unchanged and the slot reports no purchase. *)
Theorem process_rule_skip (i : nat) (rule : AutomationRule) (budget : Z) (w : World)
  (Hskip : item_id rule = 0
           \/ ~ (1 <= item_id rule <= 3)
           \/ (threshold rule <= budget /\ budget < get_item_price (item_id rule))) :
  process_rule i rule budget w = (inr (false, budget), w).
Proof.
  unfold process_rule.
  destruct (Z.eqb_spec (item_id rule) 0) as [H0|H0]; [reflexivity|].
  destruct (Z.ltb_spec budget (threshold rule)) as [Ht|Ht]; [reflexivity|].
  assert (Hp : get_item_price (item_id rule) = 0 \/ budget < get_item_price (item_id rule)).
  { destruct Hskip as [H|[H|[_ H]]]; [contradiction| |now right].
    left. unfold get_item_price.
    destruct (Z.eqb_spec (item_id rule) 1); [lia|].
    destruct (Z.eqb_spec (item_id rule) 2); [lia|].
    destruct (Z.eqb_spec (item_id rule) 3); [lia|reflexivity]. }
  destruct Hp as [Hp|Hp].
  - rewrite Hp. reflexivity.
  - assert (E : (budget <? get_item_price (item_id rule)) = true) by (apply Z.ltb_lt; lia).
    rewrite E, orb_true_r. reflexivity.
Qed.

Lemma process_rule_skip_witness :
  let w := mkWorld (mkGameState 0 1 0 0 0 initial_factions Active) [] (fun _ => 0) in
  (item_id (mkAutomationRule 1 1000000) = 0
   \/ ~ (1 <= item_id (mkAutomationRule 1 1000000) <= 3)
   \/ (threshold (mkAutomationRule 1 1000000) <= 3000000
       /\ 3000000 < get_item_price (item_id (mkAutomationRule 1 1000000)))) /\
  process_rule 0 (mkAutomationRule 1 1000000) 3000000 w = (inr (false, 3000000), w).
Proof.
  intros w.
  assert (H : item_id (mkAutomationRule 1 1000000) = 0
   \/ ~ (1 <= item_id (mkAutomationRule 1 1000000) <= 3)
   \/ (threshold (mkAutomationRule 1 1000000) <= 3000000
       /\ 3000000 < get_item_price (item_id (mkAutomationRule 1 1000000)))).
  { right; right. split; cbn; lia. }
  split; [exact H|].
  exact (process_rule_skip 0 (mkAutomationRule 1 1000000) 3000000 w H).
Defined.

(** ** C4: the sword boost *)

(** Claim C4: for a user of a faction with a positive score who holds at
    least one sword, the settlement runs the automation pipeline from
    exactly [Y + Y/5] on the unchanged world (the sword is not consumed);
    when [Y + Y/5] does not fit in [u64] the [checked_add] panics. *)
Theorem sword_boost_budget (w : World) (i : nat) (Y : Z) (u : UserPosition)
  (f : FactionState)
  (Hu : nth_error (user_positions w) i = Some u)
  (Hf : faction_get (factions (game_state w)) (faction_id u) = Some f)
  (Hscore : 0 < score f)
  (Hsword : 1 <= sword_count (inventory u)) :
  execute_settlement i Y w =
    if Y + Y / 5 <=? U64_MAX then automation_pipeline i (Y + Y / 5) w
    else (inl Panic, w).
Proof.
  unfold execute_settlement, apply_buffs.
  cbv [bind ret throw unwrap get_game_state faction_at].
  rewrite (get_user_some _ _ _ Hu). cbv beta iota. rewrite Hf.
  assert (E1 : (score f <=? 0) = false) by (apply Z.leb_gt; lia).
  assert (E2 : (0 <? sword_count (inventory u)) = true) by (apply Z.ltb_lt; lia).
  rewrite E1, E2. unfold checked_add.
  destruct (Y + Y / 5 <=? U64_MAX); reflexivity.
Qed.

Lemma sword_boost_budget_witness :
  let u := sample_user 1 (mkUserInventory 1 0 0) default_rule default_rule AutoCompound in
  let w := sample_world u 30000000 in
  execute_settlement 1 10000000 w = automation_pipeline 1 12000000 w.
Proof.
  intros u w.
  rewrite (sword_boost_budget w 1 10000000 u (faction1 sample_factions)
             eq_refl eq_refl ltac:(cbn; lia) ltac:(cbn; lia)).
  reflexivity.
Defined.

(** ** C3: the shield *)

(** The world with one shield of the [i]-th user, [u], burnt. *)
Definition burn_shield (w : World) (i : nat) (u : UserPosition) : World :=
  set_user_positions w (list_set (user_positions w) i
    (set_inventory u (set_shield_count (inventory u) (shield_count (inventory u) - 1)))).

(** Claim C3 (as amended): for a user of a faction whose score is [<= 0],
    with at least one shield the settlement burns exactly one shield and
    then runs the automation pipeline from exactly 2,000,000 whatever the
    caller's [yield_amount]; with no shield it returns [Ok] and leaves the
    world (every balance, position and token account) unchanged. *)
Theorem shield_settlement (w : World) (i : nat) (y : Z) (u : UserPosition)
  (f : FactionState)
  (Hu : nth_error (user_positions w) i = Some u)
  (Hf : faction_get (factions (game_state w)) (faction_id u) = Some f)
  (Hscore : score f <= 0) :
  (0 < shield_count (inventory u) ->
     execute_settlement i y w = automation_pipeline i 2000000 (burn_shield w i u)) /\
  (shield_count (inventory u) = 0 ->
     execute_settlement i y w = (inr tt, w)).
Proof.
  assert (E1 : (score f <=? 0) = true) by (apply Z.leb_le; lia).
  split; intros Hs;
    unfold execute_settlement, apply_buffs;
    cbv [bind ret throw unwrap get_game_state faction_at];
    rewrite (get_user_some _ _ _ Hu); cbv beta iota; rewrite Hf, E1.
  - assert (E2 : (0 <? shield_count (inventory u)) = true) by (apply Z.ltb_lt; lia).
    assert (E3 : checked_sub (shield_count (inventory u)) 1
                 = Some (shield_count (inventory u) - 1)).
    { unfold checked_sub. destruct (Z.leb_spec 1 (shield_count (inventory u))); [reflexivity|lia]. }
    rewrite E2, E3. reflexivity.
  - rewrite Hs. reflexivity.
Qed.

Lemma shield_settlement_witness :
  let u := sample_user 2 (mkUserInventory 0 1 0) default_rule default_rule SendToWallet in
  let w := sample_world u 30000000 in
  execute_settlement 1 123 w = automation_pipeline 1 2000000 (burn_shield w 1 u).
Proof.
  intros u w.
  exact (proj1 (shield_settlement w 1 123 u (faction2 sample_factions)
                  eq_refl eq_refl ltac:(cbn; lia)) ltac:(cbn; lia)).
Defined.

Definition user_at (w : World) (i : nat) : option UserPosition :=
  nth_error (user_positions w) i.

(** Claim C3 fails as stated: a losing user with exactly one shield whose
    first slot buys a shield ends the settlement with one shield, not 0. *)
Lemma shield_settlement_net_counterexample :
  let u := sample_user 2 (mkUserInventory 0 1 0) (mkAutomationRule 2 0)
             default_rule AutoCompound in
  let w := sample_world u 30000000 in
  option_map (fun u => shield_count (inventory u)) (user_at w 1) = Some 1 /\
  match commit (execute_settlement 1 5000000) w with
  | inr w' => option_map (fun u => shield_count (inventory u)) (user_at w' 1) = Some 1
  | inl _ => False
  end.
Proof. vm_compute. split; reflexivity. Qed.

(** ** Symbolic execution *)

Ltac case_ifs_in H :=
  repeat match type of H with
         | context [if ?c then _ else _] => let E := fresh "E" in destruct c eqn:E
         end.

Ltac case_ifs :=
  repeat match goal with
         | |- context [if ?c then _ else _] => let E := fresh "E" in destruct c eqn:E
         end.

Ltac mexec_in H :=
  cbv [commit bind ret throw unwrap get_game_state put_game_state faction_at
       put_faction require_admin add_assign_u64 add_i64] in H.

(** ** C9: opening an epoch *)

(** Claim C9: after a successful [start_new_epoch], [epoch_number] is the
    prior value plus one, the three scores are 0, the status is Active,
    and every faction's TVL, the global TVL and every user position
    (so every [deposited_amount]) are as before the call. *)
Theorem start_new_epoch_reset (w w' : World) (signer now : Z)
  (Hok : commit (start_new_epoch signer now) w = inr w') :
  epoch_number (game_state w') = epoch_number (game_state w) + 1 /\
  score (faction0 (factions (game_state w'))) = 0 /\
  score (faction1 (factions (game_state w'))) = 0 /\
  score (faction2 (factions (game_state w'))) = 0 /\
  status (game_state w') = Active /\
  tvl (faction0 (factions (game_state w'))) = tvl (faction0 (factions (game_state w))) /\
  tvl (faction1 (factions (game_state w'))) = tvl (faction1 (factions (game_state w))) /\
  tvl (faction2 (factions (game_state w'))) = tvl (faction2 (factions (game_state w))) /\
  total_tvl (game_state w') = total_tvl (game_state w) /\
  user_positions w' = user_positions w.
Proof.
  unfold start_new_epoch in Hok. mexec_in Hok. case_ifs_in Hok; try discriminate.
  injection Hok as <-. cbn. repeat split; reflexivity.
Qed.

Lemma start_new_epoch_reset_witness :
  let w := sample_world (sample_user 1 default_inventory default_rule default_rule
                           AutoCompound) 0 in
  exists w', commit (start_new_epoch 7 5000) w = inr w' /\
    epoch_number (game_state w') = 2.
Proof.
  intros w. eexists. split; [reflexivity|].
  apply (start_new_epoch_reset w _ 7 5000 eq_refl).
Defined.

(** ** Frame lemmas of the settlement steps *)

Lemma map_list_set {A B} (f : A -> B) (l : list A) (i : nat) (x y : A) :
  nth_error l i = Some y -> f x = f y -> map f (list_set l i x) = map f l.
Proof.
  revert i; induction l as [|h t IH]; intros [|i] Hn Hf; cbn in *; try discriminate.
  - injection Hn as ->. now rewrite Hf.
  - now rewrite (IH i Hn Hf).
Qed.

Ltac crush_in H :=
  repeat (match type of H with
          | context [if ?c then _ else _] => let E := fresh "E" in destruct c eqn:E
          | context [match ?x with _ => _ end] =>
              lazymatch type of x with
              | option _ => let E := fresh "Hn" in destruct x eqn:E
              end
          end; cbn beta iota in H).

Ltac mexec_all_in H :=
  cbv [commit bind ret throw unwrap get_game_state put_game_state faction_at
       put_faction require_admin add_assign_u64 add_i64 get_user put_user
       token_transfer checked_add checked_sub set_user_positions set_game_state
       set_token_balance] in H.

(** A projection of positions that does not see the inventory. *)
Definition inventory_blind {B} (p : UserPosition -> B) : Prop :=
  forall u inv, p (set_inventory u inv) = p u.

Lemma process_rule_frame {B} (p : UserPosition -> B) (i : nat) (rule : AutomationRule)
  (budget : Z) (w w' : World) r :
  inventory_blind p ->
  process_rule i rule budget w = (r, w') ->
  game_state w' = game_state w /\
  map p (user_positions w') = map p (user_positions w).
Proof.
  intros Hp H. unfold process_rule in H. mexec_all_in H. crush_in H;
  injection H as <- <-; cbn;
  split; try reflexivity; apply (map_list_set _ _ _ _ _ ltac:(eassumption)); apply Hp.
Qed.

Lemma apply_buffs_frame {B} (p : UserPosition -> B) (i : nat) (y : Z)
  (w w' : World) r :
  inventory_blind p ->
  apply_buffs i y w = (r, w') ->
  game_state w' = game_state w /\
  map p (user_positions w') = map p (user_positions w).
Proof.
  intros Hp H. unfold apply_buffs in H. mexec_all_in H. crush_in H;
  injection H as <- <-; cbn;
  split; try reflexivity; apply (map_list_set _ _ _ _ _ ltac:(eassumption)); apply Hp.
Qed.

(** A projection of positions that does not see the deposited amount. *)
Definition deposit_blind {B} (p : UserPosition -> B) : Prop :=
  forall u d, p (set_deposited_amount u d) = p u.

Ltac split_process_rule_in H :=
  repeat match type of H with
         | context [process_rule ?i ?r ?b ?w0] =>
             let E := fresh "Hpr" in
             destruct (process_rule i r b w0) as [[?e|[?bo ?bud]] ?w1] eqn:E
         end.

Ltac split_fallback_in H :=
  repeat match type of H with
         | context [match ?x with AutoCompound => _ | SendToWallet => _ end] =>
             destruct x eqn:?; cbn beta iota in H
         end.

Lemma automation_pipeline_frame {B} (p : UserPosition -> B) (i : nat) (y : Z)
  (w w' : World) r :
  inventory_blind p -> deposit_blind p ->
  automation_pipeline i y w = (r, w') ->
  map p (user_positions w') = map p (user_positions w).
Proof.
  intros Hp Hd H. unfold automation_pipeline in H. mexec_all_in H.
  crush_in H; split_process_rule_in H; cbn beta iota in H; crush_in H;
    split_fallback_in H; crush_in H; injection H as <- <-;
    repeat match goal with
           | E : process_rule _ _ _ _ = (_, _) |- _ =>
               destruct (process_rule_frame p _ _ _ _ _ _ Hp E); clear E
           end; cbn;
    try (erewrite map_list_set; [| eassumption | apply Hd]); congruence.
Qed.

Lemma execute_settlement_frame {B} (p : UserPosition -> B) (i : nat) (y : Z)
  (w w' : World) r :
  inventory_blind p -> deposit_blind p ->
  execute_settlement i y w = (r, w') ->
  map p (user_positions w') = map p (user_positions w).
Proof.
  intros Hp Hd H. unfold execute_settlement, bind in H.
  destruct (apply_buffs i y w) as [[e|[fy|]] w1] eqn:E;
    destruct (apply_buffs_frame p i y w w1 _ Hp E) as [_ H1].
  - injection H as _ <-. exact H1.
  - rewrite (automation_pipeline_frame p i fy w1 w' r Hp Hd H). exact H1.
  - injection H as _ <-. exact H1.
Qed.

Lemma nth_error_list_set_same {A} (l : list A) (i : nat) (x y : A) :
  nth_error l i = Some y -> nth_error (list_set l i x) i = Some x.
Proof.
  revert i; induction l as [|h t IH]; intros [|i] Hn; cbn in *; try discriminate.
  - reflexivity.
  - exact (IH i Hn).
Qed.

(** ** C10: compounding does not touch [last_deposit_epoch] *)

(** Claim C10: a successful settlement (in particular one that compounds
    the remaining yield into [deposited_amount]) leaves the
    [last_deposit_epoch] of every position unchanged, while a successful
    [deposit] sets the depositor's [last_deposit_epoch] to the current
    [epoch_number]. *)
Theorem settlement_keeps_last_deposit_epoch :
  (forall (w w' : World) (i : nat) (y : Z),
     commit (execute_settlement i y) w = inr w' ->
     map last_deposit_epoch (user_positions w') = map last_deposit_epoch (user_positions w)) /\
  (forall (w w' : World) (i : nat) (amount : Z),
     commit (deposit i amount) w = inr w' ->
     option_map last_deposit_epoch (user_at w' i) = Some (epoch_number (game_state w))).
Proof.
  split.
  - intros w w' i y H. unfold commit in H.
    destruct (execute_settlement i y w) as [[e|[]] w1] eqn:E; [discriminate|].
    injection H as <-.
    apply (execute_settlement_frame last_deposit_epoch i y w w1 (inr tt));
      [intros u v; reflexivity | intros u v; reflexivity | exact E].
  - intros w w' i amount H. unfold deposit, user_at in *. mexec_all_in H.
    crush_in H; try discriminate. injection H as <-. cbn.
    erewrite nth_error_list_set_same by eassumption. reflexivity.
Qed.

Lemma settlement_keeps_last_deposit_epoch_witness :
  let u := sample_user 1 default_inventory default_rule default_rule AutoCompound in
  let w := sample_world u 0 in
  exists w', commit (execute_settlement 1 3000000) w = inr w' /\
    map last_deposit_epoch (user_positions w') = map last_deposit_epoch (user_positions w) /\
    option_map deposited_amount (user_at w' 1) = Some 3000000.
Proof.
  intros u w. eexists. split; [reflexivity|]. split; [|reflexivity].
  exact (proj1 settlement_keeps_last_deposit_epoch w _ 1%nat 3000000 eq_refl).
Defined.

(** ** The ledger: user, faction and global TVL *)

Fixpoint sum_deposits (us : list UserPosition) : Z :=
  match us with
  | [] => 0
  | u :: us => deposited_amount u + sum_deposits us
  end.

(** The deposits of the members of faction [k]. *)
Fixpoint faction_deposits (k : Z) (us : list UserPosition) : Z :=
  match us with
  | [] => 0
  | u :: us => (if faction_id u =? k then deposited_amount u else 0) + faction_deposits k us
  end.

(** The ledger invariant behind conservation: the global TVL is the sum of
    all deposits, each faction TVL the sum of its members' deposits, and a
    position outside the three factions holds nothing. *)
Definition ledger_ok (g : GameState) (us : list UserPosition) : Prop :=
  total_tvl g = sum_deposits us /\
  tvl (faction0 (factions g)) = faction_deposits 0 us /\
  tvl (faction1 (factions g)) = faction_deposits 1 us /\
  tvl (faction2 (factions g)) = faction_deposits 2 us /\
  Forall (fun u => (0 <= faction_id u <= 2) \/ deposited_amount u = 0) us.

(** Conservation as the spec states it. *)
Definition conservation (w : World) : Prop :=
  total_tvl (game_state w) =
    tvl (faction0 (factions (game_state w))) + tvl (faction1 (factions (game_state w)))
    + tvl (faction2 (factions (game_state w))) /\
  total_tvl (game_state w) = sum_deposits (user_positions w).

Lemma sum_deposits_split (us : list UserPosition) :
  Forall (fun u => (0 <= faction_id u <= 2) \/ deposited_amount u = 0) us ->
  sum_deposits us = faction_deposits 0 us + faction_deposits 1 us + faction_deposits 2 us.
Proof.
  induction 1 as [|u us Hu _ IH]; cbn; [reflexivity|].
  rewrite IH.
  destruct Hu as [Hu|Hu];
    [assert (faction_id u = 0 \/ faction_id u = 1 \/ faction_id u = 2) as [E|[E|E]] by lia|];
    rewrite ?E; cbn; [lia|lia|lia|].
  rewrite Hu. destruct (faction_id u =? 0), (faction_id u =? 1), (faction_id u =? 2); lia.
Qed.

Lemma ledger_ok_conservation (w : World) :
  ledger_ok (game_state w) (user_positions w) -> conservation w.
Proof.
  intros (Ht & H0 & H1 & H2 & HF). split; [|exact Ht].
  rewrite Ht, H0, H1, H2. apply sum_deposits_split, HF.
Qed.

Lemma sum_deposits_list_set (us : list UserPosition) (i : nat) (u u' : UserPosition) :
  nth_error us i = Some u ->
  sum_deposits (list_set us i u') = sum_deposits us - deposited_amount u + deposited_amount u'.
Proof.
  revert i; induction us as [|h t IH]; intros [|i] Hn; cbn in *; try discriminate.
  - injection Hn as ->. lia.
  - rewrite (IH i Hn). lia.
Qed.

Lemma faction_deposits_list_set (k : Z) (us : list UserPosition) (i : nat)
  (u u' : UserPosition) :
  nth_error us i = Some u -> faction_id u' = faction_id u ->
  faction_deposits k (list_set us i u') =
    faction_deposits k us
    + (if faction_id u =? k then deposited_amount u' - deposited_amount u else 0).
Proof.
  intros Hn Hf. revert i Hn; induction us as [|h t IH]; intros [|i] Hn; cbn in *;
    try discriminate.
  - injection Hn as ->. rewrite Hf. destruct (faction_id u =? k); lia.
  - rewrite (IH i Hn). destruct (faction_id u =? k); lia.
Qed.

Lemma Forall_list_set {A} (P : A -> Prop) (l : list A) (i : nat) (x : A) :
  Forall P l -> P x -> Forall P (list_set l i x).
Proof.
  intros HF Hx. revert i; induction HF as [|h t Hh Ht IH]; intros [|i]; cbn;
    constructor; auto.
Qed.

(** Crediting [a] to the [i]-th position, its faction and the global TVL
    keeps the ledger consistent ([a] is negative for a withdrawal). *)
Lemma ledger_ok_credit (g g' : GameState) (us : list UserPosition) (i : nat)
  (u u' : UserPosition) (f : FactionState) (a v : Z) :
  ledger_ok g us ->
  nth_error us i = Some u ->
  faction_get (factions g) (faction_id u) = Some f ->
  faction_id u' = faction_id u ->
  deposited_amount u' = deposited_amount u + a ->
  total_tvl g' = total_tvl g + a ->
  factions g' = faction_put (factions g) (faction_id u) (set_tvl f v) ->
  v = tvl f + a ->
  ledger_ok g' (list_set us i u').
Proof.
  intros (Ht & H0 & H1 & H2 & HF) Hn Hf Hid Hd Ht' Hfs Hv.
  unfold faction_get in Hf. unfold ledger_ok.
  rewrite Ht', Hfs, (sum_deposits_list_set _ _ _ _ Hn), Ht, Hd.
  rewrite !(faction_deposits_list_set _ _ _ _ _ Hn Hid), Hd.
  unfold faction_put.
  destruct (Z.eqb_spec (faction_id u) 0) as [E0|E0];
    [|destruct (Z.eqb_spec (faction_id u) 1) as [E1|E1];
      [|destruct (Z.eqb_spec (faction_id u) 2) as [E2|E2]; [|discriminate]]];
    injection Hf as <-; rewrite ?E0, ?E1, ?E2; cbn;
    (split; [lia|]); (split; [lia|]); (split; [lia|]); (split; [lia|]);
    apply Forall_list_set; auto; left; lia.
Qed.

(** What the ledger sees of a position. *)
Definition ledger_view (u : UserPosition) : Z * Z := (faction_id u, deposited_amount u).

Lemma ledger_view_sums (us us' : list UserPosition) :
  map ledger_view us' = map ledger_view us ->
  sum_deposits us' = sum_deposits us /\
  (forall k, faction_deposits k us' = faction_deposits k us) /\
  (Forall (fun u => (0 <= faction_id u <= 2) \/ deposited_amount u = 0) us ->
   Forall (fun u => (0 <= faction_id u <= 2) \/ deposited_amount u = 0) us').
Proof.
  revert us'; induction us as [|u us IH]; intros [|u' us'] H; cbn in H;
    try discriminate.
  - repeat split; auto.
  - injection H as Hid Hd Ht. destruct (IH us' Ht) as (Hs & Hk & HF).
    cbn. rewrite Hs, Hid, Hd. repeat split.
    + intros k. rewrite Hk. reflexivity.
    + intros HF'. inversion HF'; subst. constructor; [|auto]. rewrite Hid, Hd. assumption.
Qed.

(** The ledger only depends on the TVL fields and the ledger view. *)
Lemma ledger_ok_view (g g' : GameState) (us us' : list UserPosition) :
  total_tvl g' = total_tvl g ->
  tvl (faction0 (factions g')) = tvl (faction0 (factions g)) ->
  tvl (faction1 (factions g')) = tvl (faction1 (factions g)) ->
  tvl (faction2 (factions g')) = tvl (faction2 (factions g)) ->
  map ledger_view us' = map ledger_view us ->
  ledger_ok g us -> ledger_ok g' us'.
Proof.
  intros Ht H0 H1 H2 Hm (Lt & L0 & L1 & L2 & LF).
  destruct (ledger_view_sums us us' Hm) as (Hs & Hk & HF).
  unfold ledger_ok. rewrite Ht, H0, H1, H2, Hs, !Hk. repeat split; auto.
Qed.

Lemma ledger_ok_append (g : GameState) (us : list UserPosition) (u : UserPosition) :
  deposited_amount u = 0 -> ledger_ok g us -> ledger_ok g (us ++ [u]).
Proof.
  intros Hd (Ht & H0 & H1 & H2 & HF).
  assert (Hs : sum_deposits (us ++ [u]) = sum_deposits us).
  { clear - Hd. induction us; cbn; [rewrite Hd; lia | rewrite IHus; lia]. }
  assert (Hk : forall k, faction_deposits k (us ++ [u]) = faction_deposits k us).
  { clear - Hd. intros k. induction us; cbn;
      [rewrite Hd; destruct (faction_id u =? k); lia | rewrite IHus; lia]. }
  unfold ledger_ok. rewrite Hs, !Hk. repeat split; auto.
  apply Forall_app. split; [exact HF|]. constructor; [right; exact Hd|constructor].
Qed.

Definition ledger_ok_w (w : World) : Prop := ledger_ok (game_state w) (user_positions w).

Ltac close_credit Hl amt :=
  eapply ledger_ok_credit with (a := amt);
    [exact Hl | eassumption | eassumption | reflexivity
    | cbn; lia | cbn; lia | reflexivity | cbn; lia].

Lemma deposit_ledger (w w' : World) (i : nat) (amount : Z) :
  ledger_ok_w w -> commit (deposit i amount) w = inr w' -> ledger_ok_w w'.
Proof.
  intros Hl H. unfold deposit in H. mexec_all_in H. crush_in H; try discriminate.
  injection H as <-. unfold ledger_ok_w in *. cbn in *. close_credit Hl amount.
Qed.

Lemma withdraw_ledger (w w' : World) (i : nat) (amount : Z) :
  ledger_ok_w w -> commit (withdraw i amount) w = inr w' -> ledger_ok_w w'.
Proof.
  intros Hl H. unfold withdraw in H. mexec_all_in H. crush_in H; try discriminate.
  injection H as <-. unfold ledger_ok_w in *. cbn in *. close_credit Hl (- amount).
Qed.

Lemma ledger_ok_w_frame (w w' : World) :
  game_state w' = game_state w ->
  map ledger_view (user_positions w') = map ledger_view (user_positions w) ->
  ledger_ok_w w -> ledger_ok_w w'.
Proof.
  intros Hg Hm. unfold ledger_ok_w. rewrite Hg. apply ledger_ok_view; auto.
Qed.

Lemma ledger_view_inventory_blind : inventory_blind ledger_view.
Proof. intros u inv. reflexivity. Qed.

Lemma automation_pipeline_ledger (w w' : World) (i : nat) (y : Z) :
  ledger_ok_w w -> automation_pipeline i y w = (inr tt, w') -> ledger_ok_w w'.
Proof.
  intros Hl H. unfold automation_pipeline in H. mexec_all_in H.
  crush_in H; split_process_rule_in H; cbn beta iota in H; crush_in H;
    split_fallback_in H; crush_in H; try discriminate; injection H as <-;
    repeat match goal with
           | E : process_rule _ _ _ _ = (_, _) |- _ =>
               destruct (process_rule_frame ledger_view _ _ _ _ _ _
                           ledger_view_inventory_blind E) as [Hg Hm];
               apply (ledger_ok_w_frame _ _ Hg Hm) in Hl; clear E Hg Hm
           end.
  all: try assumption.
  all: unfold ledger_ok_w in *; cbn in *.
  all: eapply ledger_ok_credit;
    [exact Hl | eassumption | eassumption | reflexivity
    | cbn; reflexivity | cbn; lia | reflexivity | cbn; lia].
Qed.

Lemma execute_settlement_ledger (w w' : World) (i : nat) (y : Z) :
  ledger_ok_w w -> commit (execute_settlement i y) w = inr w' -> ledger_ok_w w'.
Proof.
  intros Hl H. unfold commit, execute_settlement, bind in H.
  destruct (apply_buffs i y w) as [[e|[fy|]] w1] eqn:E; [discriminate| |];
    destruct (apply_buffs_frame ledger_view i y w w1 _ ledger_view_inventory_blind E)
      as [Hg Hm];
    apply (ledger_ok_w_frame _ _ Hg Hm) in Hl.
  - destruct (automation_pipeline i fy w1) as [[e|[]] w2] eqn:E2; [discriminate|].
    injection H as <-. exact (automation_pipeline_ledger _ _ _ _ Hl E2).
  - injection H as <-. exact Hl.
Qed.

Lemma register_user_ledger (w w' : World) (user k : Z) :
  ledger_ok_w w -> commit (register_user user k) w = inr w' -> ledger_ok_w w'.
Proof.
  intros Hl H. unfold commit, register_user, throw in H.
  destruct (k <? 3); [|discriminate].
  destruct (existsb _ _); [discriminate|].
  injection H as <-. unfold ledger_ok_w in *. cbn.
  apply ledger_ok_append; [reflexivity|exact Hl].
Qed.

Lemma update_automation_ledger (w w' : World) (i : nat) s1 s2 fb :
  ledger_ok_w w -> commit (update_automation i s1 s2 fb) w = inr w' -> ledger_ok_w w'.
Proof.
  intros Hl H. unfold update_automation in H. mexec_all_in H. crush_in H; try discriminate.
  injection H as <-. revert Hl. apply ledger_ok_w_frame; [reflexivity|].
  cbn. apply (map_list_set _ _ _ _ _ ltac:(eassumption)). reflexivity.
Qed.

Lemma resolve_epoch_ledger (w w' : World) (signer : Z) :
  ledger_ok_w w -> commit (resolve_epoch signer) w = inr w' -> ledger_ok_w w'.
Proof.
  intros Hl H. unfold resolve_epoch in H. mexec_all_in H. crush_in H; try discriminate;
    injection H as <-; unfold ledger_ok_w in *; cbn;
    (eapply ledger_ok_view; [..| reflexivity | exact Hl]); reflexivity.
Qed.

Lemma start_new_epoch_ledger (w w' : World) (signer now : Z) :
  ledger_ok_w w -> commit (start_new_epoch signer now) w = inr w' -> ledger_ok_w w'.
Proof.
  intros Hl H. unfold start_new_epoch in H. mexec_all_in H. crush_in H; try discriminate;
    injection H as <-; unfold ledger_ok_w in *; cbn;
    (eapply ledger_ok_view; [..| reflexivity | exact Hl]); reflexivity.
Qed.

Lemma inject_yield_ledger (w w' : World) (amount : Z) :
  ledger_ok_w w -> commit (inject_yield amount) w = inr w' -> ledger_ok_w w'.
Proof.
  intros Hl H. unfold inject_yield in H. mexec_all_in H. crush_in H; try discriminate;
    injection H as <-; exact Hl.
Qed.

Lemma instruction_ledger (ins : Instruction) (w : World) :
  ledger_ok_w w -> ledger_ok_w (after (instruction_denote ins) w).
Proof.
  intros Hl. unfold after.
  destruct (commit (instruction_denote ins) w) as [e|w'] eqn:E; [exact Hl|].
  destruct ins; cbn in E.
  - exact (register_user_ledger _ _ _ _ Hl E).
  - exact (deposit_ledger _ _ _ _ Hl E).
  - exact (withdraw_ledger _ _ _ _ Hl E).
  - exact (update_automation_ledger _ _ _ _ _ _ Hl E).
  - exact (resolve_epoch_ledger _ _ _ Hl E).
  - exact (execute_settlement_ledger _ _ _ _ Hl E).
  - exact (start_new_epoch_ledger _ _ _ _ Hl E).
  - exact (inject_yield_ledger _ _ _ Hl E).
Qed.

Lemma run_transactions_ledger (l : list Instruction) (w : World) :
  ledger_ok_w w -> ledger_ok_w (run_transactions w l).
Proof.
  revert w; induction l as [|ins l IH]; intros w Hl; cbn; [exact Hl|].
  apply IH, instruction_ledger, Hl.
Qed.

Lemma genesis_ledger (admin_key now : Z) (balances : TokenAccount -> Z) (w : World) :
  genesis admin_key now balances = Some w -> ledger_ok_w w.
Proof.
  unfold genesis, initialize_game. intros H. mexec_all_in H. crush_in H; try discriminate.
  injection H as <-. unfold ledger_ok_w. cbn. repeat split; constructor.
Qed.

(** ** C1: conservation *)

(** Claim C1: from the initialized state, after every sequence of
    transactions (deposits, withdrawals, settlements on either fallback
    path, and every other instruction; failed ones change nothing), the
    global TVL equals the sum of the three faction TVLs and the sum of
    all users' deposited amounts. *)
Theorem conservation_from_genesis (admin_key now : Z) (balances : TokenAccount -> Z)
  (w0 : World) (l : list Instruction)
  (Hgen : genesis admin_key now balances = Some w0) :
  conservation (run_transactions w0 l).
Proof.
  apply ledger_ok_conservation, run_transactions_ledger, (genesis_ledger _ _ _ _ Hgen).
Qed.

Definition sample_balances : TokenAccount -> Z :=
  fun a => match a with UserUsdc _ => 100000000 | _ => 0 end.

(** Two users of factions 0 and 1 deposit; the epoch is resolved (faction 1
    wins) and the second user's yield of 3 USDC is compounded. *)
Definition sample_transactions : list Instruction :=
  [IRegisterUser 10 0; IRegisterUser 11 1; IDeposit 0 10000000; IDeposit 1 4000000;
   IResolveEpoch 7; IExecuteSettlement 1 3000000; IWithdraw 0 2500000].

Lemma conservation_from_genesis_witness :
  exists w0, genesis 7 1000 sample_balances = Some w0 /\
    conservation (run_transactions w0 sample_transactions) /\
    total_tvl (game_state (run_transactions w0 sample_transactions)) = 14500000.
Proof.
  eexists. split; [reflexivity|]. split.
  - exact (conservation_from_genesis 7 1000 sample_balances _ sample_transactions eq_refl).
  - vm_compute. reflexivity.
Defined.

Lemma faction_deposits_nonneg (k : Z) (us : list UserPosition) :
  Forall (fun u => 0 <= deposited_amount u) us -> 0 <= faction_deposits k us.
Proof.
  induction 1 as [|u us Hu Ht IH]; cbn; [lia|]. destruct (faction_id u =? k); lia.
Qed.

Lemma faction_deposits_ge (k : Z) (us : list UserPosition) (i : nat) (u : UserPosition) :
  Forall (fun u => 0 <= deposited_amount u) us -> nth_error us i = Some u ->
  faction_id u = k -> deposited_amount u <= faction_deposits k us.
Proof.
  intros HF; revert i; induction HF as [|h us Hh Ht IH]; intros [|i] Hn Hk; cbn in *;
    try discriminate.
  - injection Hn as ->. rewrite Hk, Z.eqb_refl.
    pose proof (faction_deposits_nonneg k us Ht). lia.
  - specialize (IH i Hn Hk). destruct (faction_id h =? k); lia.
Qed.

Lemma sum_deposits_nonneg (us : list UserPosition) :
  Forall (fun u => 0 <= deposited_amount u) us -> 0 <= sum_deposits us.
Proof. induction 1; cbn; lia. Qed.

Lemma sum_deposits_ge (us : list UserPosition) (i : nat) (u : UserPosition) :
  Forall (fun u => 0 <= deposited_amount u) us -> nth_error us i = Some u ->
  deposited_amount u <= sum_deposits us.
Proof.
  intros HF; revert i; induction HF as [|h us Hh Ht IH]; intros [|i] Hn; cbn in *;
    try discriminate.
  - injection Hn as ->. pose proof (sum_deposits_nonneg us Ht). lia.
  - specialize (IH i Hn). lia.
Qed.

Lemma faction_get_tvl_ledger (g : GameState) (us : list UserPosition) (k : Z) (f : FactionState) :
  ledger_ok g us -> faction_get (factions g) k = Some f -> tvl f = faction_deposits k us.
Proof.
  intros (_ & H0 & H1 & H2 & _) Hf. unfold faction_get in Hf.
  destruct (Z.eqb_spec k 0) as [->|]; [injection Hf as <-; exact H0|].
  destruct (Z.eqb_spec k 1) as [->|]; [injection Hf as <-; exact H1|].
  destruct (Z.eqb_spec k 2) as [->|]; [injection Hf as <-; exact H2|].
  discriminate.
Qed.

(** ** C8: withdraw *)

(** Claim C8 (as the code has it): on a consistent ledger with nonnegative
    deposits, a withdrawal of at most the user's deposit succeeds when the
    vault can pay it out, and decrements the user's deposit, the global TVL
    and the user's faction TVL by exactly [amount], moving [amount] from the
    vault to the user's wallet; a withdrawal above the deposit fails with
    [InsufficientFunds] and leaves the world unchanged. *)
Theorem withdraw_spec (w : World) (i : nat) (u : UserPosition) (f : FactionState) (amount : Z)
  (Hn : user_at w i = Some u)
  (Hf : faction_get (factions (game_state w)) (faction_id u) = Some f)
  (Hl : ledger_ok_w w)
  (Hnn : Forall (fun u => 0 <= deposited_amount u) (user_positions w))
  (Ha : 0 <= amount) :
  (amount <= deposited_amount u ->
   amount <= token_balance w Vault ->
   token_balance w (UserUsdc i) + amount <= U64_MAX ->
   exists w', commit (withdraw i amount) w = inr w' /\
     user_at w' i = Some (set_deposited_amount u (deposited_amount u - amount)) /\
     total_tvl (game_state w') = total_tvl (game_state w) - amount /\
     factions (game_state w') =
       faction_put (factions (game_state w)) (faction_id u) (set_tvl f (tvl f - amount)) /\
     token_balance w' Vault = token_balance w Vault - amount /\
     token_balance w' (UserUsdc i) = token_balance w (UserUsdc i) + amount) /\
  (deposited_amount u < amount ->
   withdraw i amount w = (inl (Custom InsufficientFunds), w)).
Proof.
  unfold user_at in Hn.
  pose proof (faction_get_tvl_ledger _ _ _ _ Hl Hf) as Htf.
  pose proof (faction_deposits_ge (faction_id u) _ _ _ Hnn Hn eq_refl) as Hfd.
  pose proof (sum_deposits_ge _ _ _ Hnn Hn) as Hsd.
  destruct Hl as (Ht & _).
  split.
  - intros Hd Hv Hu. eexists. unfold commit, withdraw.
    cbv [bind ret throw unwrap get_game_state put_game_state faction_at put_faction
         get_user put_user token_transfer checked_add checked_sub set_user_positions
         set_game_state set_token_balance].
    rewrite Hn.
    replace (amount <=? deposited_amount u) with true by (symmetry; apply Z.leb_le; lia).
    replace (token_balance w Vault <? amount) with false by (symmetry; apply Z.ltb_ge; lia).
    cbn [token_account_eqb].
    replace (U64_MAX <? token_balance w (UserUsdc i) + amount) with false
      by (symmetry; apply Z.ltb_ge; lia).
    cbn [user_positions game_state token_balance].
    replace (amount <=? total_tvl (game_state w)) with true by (symmetry; apply Z.leb_le; lia).
    cbn [faction_id set_deposited_amount factions set_total_tvl].
    rewrite Hf.
    replace (amount <=? tvl f) with true by (symmetry; apply Z.leb_le; lia).
    split; [reflexivity|].
    unfold user_at; cbn. rewrite (nth_error_list_set_same _ _ _ _ Hn).
    rewrite Nat.eqb_refl. repeat split; reflexivity.
  - intros Hd. unfold withdraw. cbv [bind get_user throw]. rewrite Hn.
    replace (amount <=? deposited_amount u) with false by (symmetry; apply Z.leb_gt; lia).
    reflexivity.
Qed.

Definition withdraw_sample_world : World :=
  sample_world (sample_user 1 default_inventory default_rule default_rule AutoCompound)
    10000000.

Lemma withdraw_spec_witness :
  ledger_ok_w withdraw_sample_world /\
  exists w', commit (withdraw 0 10000000) withdraw_sample_world = inr w' /\
    option_map deposited_amount (user_at w' 0) = Some 0 /\
    total_tvl (game_state w') = 0 /\
    tvl (faction0 (factions (game_state w'))) = 0.
Proof.
  assert (Hl : ledger_ok_w withdraw_sample_world).
  { unfold ledger_ok_w; cbn. repeat split; repeat constructor; cbn; lia. }
  split; [exact Hl|].
  destruct (proj1 (withdraw_spec withdraw_sample_world 0
                     (mkUserPosition 10 0 10000000 1
                        (mkAutomationSettings default_rule default_rule AutoCompound)
                        default_inventory)
                     (faction0 sample_factions) 10000000 eq_refl eq_refl Hl
                     ltac:(repeat constructor; cbn; lia) ltac:(lia))
              ltac:(cbn; lia) ltac:(cbn; lia) ltac:(cbn; lia))
    as (w' & H1 & H2 & H3 & H4 & _).
  exists w'. split; [exact H1|]. rewrite H2, H3, H4. cbn. repeat split.
Defined.

(** Settling a yield sent to the winner's wallet pays it out of the vault
    that holds the deposits. *)
Definition withdraw_drain_transactions : list Instruction :=
  [IRegisterUser 10 0; IRegisterUser 11 1; IDeposit 0 10000000; IResolveEpoch 7;
   IUpdateAutomation 1 default_rule default_rule SendToWallet;
   IExecuteSettlement 1 5000000].

(** Claim C8 fails as stated: after a settlement paid from the vault, a
    user with a consistent ledger cannot withdraw the whole deposit, the
    vault transfer fails. *)
Lemma withdraw_spec_counterexample :
  exists w0, genesis 7 1000 sample_balances = Some w0 /\
    let w := run_transactions w0 withdraw_drain_transactions in
    ledger_ok_w w /\
    option_map deposited_amount (user_at w 0) = Some 10000000 /\
    token_balance w Vault = 5000000 /\
    fst (withdraw 0 10000000 w) = inl TransferFailed.
Proof.
  eexists. split; [reflexivity|]. split.
  - apply run_transactions_ledger. exact (genesis_ledger 7 1000 sample_balances _ eq_refl).
  - vm_compute. repeat split.
Qed.

(** ** C5: atomic settlement *)

(** Claim C5: a settlement that fails at any step (a panic of a checked
    operation or a failed transfer) is not committed, and the world seen
    by the following transactions is the world before the call, whatever
    the failed run had changed in flight. *)
Theorem settlement_atomic (w : World) (i : nat) (y : Z) (e : Error) (l : list Instruction)
  (Hfail : fst (execute_settlement i y w) = inl e) :
  commit (execute_settlement i y) w = inl e /\
  after (execute_settlement i y) w = w /\
  run_transactions w (IExecuteSettlement i y :: l) = run_transactions w l.
Proof.
  assert (Hc : commit (execute_settlement i y) w = inl e).
  { unfold commit. destruct (execute_settlement i y w) as [[e'|[]] w1].
    - cbn in Hfail. now injection Hfail as ->.
    - discriminate. }
  assert (Ha : after (execute_settlement i y) w = w) by (unfold after; now rewrite Hc).
  split; [exact Hc|]. split; [exact Ha|].
  cbn [run_transactions instruction_denote]. now rewrite Ha.
Qed.

(** A losing position with one shield and a wallet fallback, facing an
    empty vault: the shield is burnt before the payout transfer fails. *)
Definition atomic_sample_world : World :=
  sample_world (sample_user 2 (mkUserInventory 0 1 0) default_rule default_rule SendToWallet) 0.

Lemma settlement_atomic_witness :
  fst (execute_settlement 1 5000000 atomic_sample_world) = inl TransferFailed /\
  option_map (fun u => shield_count (inventory u))
    (user_at (snd (execute_settlement 1 5000000 atomic_sample_world)) 1) = Some 0 /\
  option_map (fun u => shield_count (inventory u)) (user_at atomic_sample_world 1) = Some 1 /\
  run_transactions atomic_sample_world [IExecuteSettlement 1 5000000] = atomic_sample_world.
Proof.
  split; [vm_compute; reflexivity|]. split; [vm_compute; reflexivity|].
  split; [vm_compute; reflexivity|].
  exact (proj2 (proj2 (settlement_atomic atomic_sample_world 1 5000000 TransferFailed []
                        ltac:(vm_compute; reflexivity)))).
Defined.

(** ** Machine-integer ranges of the stored fields *)

Definition u8_ok (z : Z) : Prop := 0 <= z <= 255.
Definition u64_ok (z : Z) : Prop := 0 <= z <= U64_MAX.
Definition i64_ok (z : Z) : Prop := I64_MIN <= z <= I64_MAX.

Definition faction_ok (f : FactionState) : Prop :=
  u8_ok (fid f) /\ u64_ok (tvl f) /\ i64_ok (score f).

Definition factions_ok (fs : Factions) : Prop :=
  faction_ok (faction0 fs) /\ faction_ok (faction1 fs) /\ faction_ok (faction2 fs).

Definition game_ok (g : GameState) : Prop :=
  u64_ok (epoch_number g) /\ i64_ok (epoch_start_ts g) /\ i64_ok (epoch_end_ts g) /\
  u64_ok (total_tvl g) /\ factions_ok (factions g).

Definition rule_ok (r : AutomationRule) : Prop := u8_ok (item_id r) /\ u64_ok (threshold r).

Definition user_ok (u : UserPosition) : Prop :=
  u8_ok (faction_id u) /\ u64_ok (deposited_amount u) /\ u64_ok (last_deposit_epoch u) /\
  rule_ok (priority_slot_1 (automation_settings u)) /\
  rule_ok (priority_slot_2 (automation_settings u)) /\
  u64_ok (sword_count (inventory u)) /\ u64_ok (shield_count (inventory u)) /\
  u64_ok (spyglass_count (inventory u)).

(** Every numeric field of the accounts, token balances included, holds a
    value of its Rust type. *)
Definition world_ok (w : World) : Prop :=
  game_ok (game_state w) /\ Forall user_ok (user_positions w) /\
  forall a, u64_ok (token_balance w a).

(** The arguments of an instruction are values of their Rust types. *)
Definition instruction_ok (ins : Instruction) : Prop :=
  match ins with
  | IRegisterUser _ k => u8_ok k
  | IDeposit _ a | IWithdraw _ a | IExecuteSettlement _ a | IInjectYield a => u64_ok a
  | IUpdateAutomation _ s1 s2 _ => rule_ok s1 /\ rule_ok s2
  | IResolveEpoch _ => True
  | IStartNewEpoch _ now => i64_ok now
  end.

(** [m], run from a world in range, ends (when it returns) in a world in
    range with a result satisfying [Q]. *)
Definition wp_ok {A} (m : M A) (Q : A -> Prop) : Prop :=
  forall w, world_ok w ->
  match m w with
  | (inr a, w') => world_ok w' /\ Q a
  | (inl _, _) => True
  end.

Lemma ret_ok {A} (a : A) (Q : A -> Prop) : Q a -> wp_ok (ret a) Q.
Proof. intros Hq w Hw. cbn. auto. Qed.

Lemma throw_ok {A} (e : Error) (Q : A -> Prop) : wp_ok (throw e) Q.
Proof. intros w Hw. exact I. Qed.

Lemma bind_ok {A B} (m : M A) (k : A -> M B) (P : A -> Prop) (Q : B -> Prop) :
  wp_ok m P -> (forall a, P a -> wp_ok (k a) Q) -> wp_ok (bind m k) Q.
Proof.
  intros Hm Hk w Hw. unfold bind. specialize (Hm w Hw).
  destruct (m w) as [[e|a] w1]; [exact I|]. destruct Hm as [Hw1 Ha].
  exact (Hk a Ha w1 Hw1).
Qed.

Lemma bind_assoc_ok {A B C} (m : M A) (k1 : A -> M B) (k2 : B -> M C) (Q : C -> Prop) :
  wp_ok (bind m (fun a => bind (k1 a) k2)) Q -> wp_ok (bind (bind m k1) k2) Q.
Proof.
  intros H w Hw. specialize (H w Hw). unfold bind in *.
  destruct (m w) as [[e|a] w1]; [exact I|]. exact H.
Qed.

Lemma bind_ret_ok {A B} (a : A) (k : A -> M B) (Q : B -> Prop) :
  wp_ok (k a) Q -> wp_ok (bind (ret a) k) Q.
Proof. intros H w Hw. exact (H w Hw). Qed.

Lemma conseq_ok {A} (m : M A) (P Q : A -> Prop) :
  wp_ok m P -> (forall a, P a -> Q a) -> wp_ok m Q.
Proof.
  intros Hm HPQ w Hw. specialize (Hm w Hw). destruct (m w) as [[e|a] w1]; [exact I|].
  destruct Hm; auto.
Qed.

Lemma unwrap_ok {A} (o : option A) : wp_ok (unwrap o) (fun a => o = Some a).
Proof. intros w Hw. destruct o; cbn; auto. Qed.

Lemma get_game_state_ok : wp_ok get_game_state game_ok.
Proof. intros w Hw. cbn. split; [exact Hw | apply (proj1 Hw)]. Qed.

Lemma put_game_state_ok (g : GameState) : game_ok g -> wp_ok (put_game_state g) (fun _ => True).
Proof.
  intros Hg w (_ & Hu & Hb). cbv [put_game_state set_game_state world_ok]. cbn.
  exact (conj (conj Hg (conj Hu Hb)) I).
Qed.

Lemma Forall_nth_error {A} (P : A -> Prop) (l : list A) (i : nat) (x : A) :
  Forall P l -> nth_error l i = Some x -> P x.
Proof.
  intros HF; revert i; induction HF as [|h t Hh Ht IH]; intros [|i] Hn; cbn in Hn;
    try discriminate.
  - injection Hn as <-. exact Hh.
  - exact (IH i Hn).
Qed.

Lemma get_user_ok (i : nat) : wp_ok (get_user i) user_ok.
Proof.
  intros w Hw. unfold get_user. destruct (nth_error (user_positions w) i) eqn:E; [|exact I].
  split; [exact Hw|]. exact (Forall_nth_error _ _ _ _ (proj1 (proj2 Hw)) E).
Qed.

Lemma put_user_ok (i : nat) (u : UserPosition) : user_ok u -> wp_ok (put_user i u) (fun _ => True).
Proof.
  intros Hu w (Hg & Hus & Hb). cbv [put_user set_user_positions world_ok]. cbn.
  refine (conj (conj Hg (conj _ Hb)) I). apply Forall_list_set; auto.
Qed.

Lemma faction_get_ok (fs : Factions) (k : Z) (f : FactionState) :
  factions_ok fs -> faction_get fs k = Some f -> faction_ok f.
Proof.
  intros (H0 & H1 & H2) Hf. unfold faction_get in Hf.
  destruct (k =? 0); [injection Hf as <-; exact H0|].
  destruct (k =? 1); [injection Hf as <-; exact H1|].
  destruct (k =? 2); [injection Hf as <-; exact H2|]. discriminate.
Qed.

Lemma faction_put_ok (fs : Factions) (k : Z) (f : FactionState) :
  factions_ok fs -> faction_ok f -> factions_ok (faction_put fs k f).
Proof.
  intros (H0 & H1 & H2) Hf. unfold faction_put.
  destruct (k =? 0); [exact (conj Hf (conj H1 H2))|].
  destruct (k =? 1); [exact (conj H0 (conj Hf H2))|].
  destruct (k =? 2); [exact (conj H0 (conj H1 Hf))|]. exact (conj H0 (conj H1 H2)).
Qed.

Lemma faction_at_ok (g : GameState) (k : Z) : game_ok g -> wp_ok (faction_at g k) faction_ok.
Proof.
  intros Hg w Hw. unfold faction_at, unwrap.
  destruct (faction_get (factions g) k) eqn:E; [|exact I]. cbn. split; [exact Hw|].
  exact (faction_get_ok _ _ _ (proj2 (proj2 (proj2 (proj2 Hg)))) E).
Qed.

Lemma put_faction_ok (k : Z) (f : FactionState) :
  faction_ok f -> wp_ok (put_faction k f) (fun _ => True).
Proof.
  intros Hf w (Hg & Hus & Hb).
  cbv [put_faction bind get_game_state put_game_state set_game_state set_factions world_ok].
  cbn. refine (conj (conj _ (conj Hus Hb)) I).
  destruct Hg as (? & ? & ? & ? & ?). unfold game_ok; cbn.
  repeat (split; [assumption|]). apply faction_put_ok; assumption.
Qed.

Lemma token_transfer_ok (from to : TokenAccount) (amount : Z) :
  0 <= amount -> wp_ok (token_transfer from to amount) (fun _ => True).
Proof.
  intros Ha w (Hg & Hus & Hb). unfold token_transfer.
  destruct (token_balance w from <? amount) eqn:E1; [exact I|].
  destruct (token_account_eqb from to); [exact (conj (conj Hg (conj Hus Hb)) I)|].
  destruct (U64_MAX <? token_balance w to + amount) eqn:E2; [exact I|].
  apply Z.ltb_ge in E1. apply Z.ltb_ge in E2.
  cbv [set_token_balance world_ok]. cbn. refine (conj (conj Hg (conj Hus _)) I). intros a.
  pose proof (Hb a). pose proof (Hb from). pose proof (Hb to). unfold u64_ok in *.
  destruct (token_account_eqb a from); [lia|].
  destruct (token_account_eqb a to); lia.
Qed.

Lemma add_assign_u64_ok (a b : Z) : wp_ok (add_assign_u64 a b) (fun c => c = a + b /\ c <= U64_MAX).
Proof.
  intros w Hw. unfold add_assign_u64. destruct (a + b <=? U64_MAX) eqn:E; [|exact I].
  apply Z.leb_le in E. cbn. auto.
Qed.

Lemma add_i64_ok (a b : Z) :
  wp_ok (add_i64 a b) (fun c => c = a + b /\ I64_MIN <= c <= I64_MAX).
Proof.
  intros w Hw. unfold add_i64.
  destruct ((I64_MIN <=? a + b) && (a + b <=? I64_MAX)) eqn:E; [|exact I].
  apply andb_true_iff in E. destruct E as [E1 E2].
  apply Z.leb_le in E1. apply Z.leb_le in E2. cbn. auto.
Qed.

Lemma require_admin_ok (signer : Z) : wp_ok (require_admin signer) (fun _ => True).
Proof.
  intros w Hw. unfold require_admin. cbn. destruct (signer =? admin (game_state w)); cbn; auto.
Qed.

Lemma f64_to_i64_range (x : f64) : I64_MIN <= f64_to_i64 x <= I64_MAX.
Proof.
  unfold f64_to_i64, I64_MIN, I64_MAX. destruct x as [s|[]| |s m e]; lia.
Qed.

Ltac wp_prim :=
  first [ apply faction_at_ok | apply put_faction_ok | apply require_admin_ok
        | apply token_transfer_ok | apply add_assign_u64_ok | apply add_i64_ok
        | apply get_game_state_ok | apply put_game_state_ok | apply get_user_ok
        | apply put_user_ok | apply unwrap_ok ].

Ltac wp_with prim :=
  repeat (cbv beta zeta;
    match goal with
    | |- wp_ok (bind (bind _ _) _) _ => apply bind_assoc_ok
    | |- wp_ok (bind (ret _) _) _ => apply bind_ret_ok
    | |- wp_ok (bind (if ?c then _ else _) _) _ => destruct c eqn:?
    | |- wp_ok (bind _ _) _ => eapply bind_ok; [prim | intros ? ?]
    | |- wp_ok (if ?c then _ else _) _ => destruct c eqn:?
    | |- wp_ok (match ?x with _ => _ end) _ => destruct x eqn:?
    | |- wp_ok (ret _) _ => apply ret_ok
    | |- wp_ok (throw _) _ => apply throw_ok
    | |- wp_ok _ _ => eapply conseq_ok; [prim | intros ? ?]
    end).

Ltac range_facts :=
  unfold checked_add, checked_sub in *;
  repeat match goal with
  | H : (if ?c then _ else _) = Some _ |- _ =>
      let E := fresh "E" in destruct c eqn:E; [injection H as H; subst | discriminate H]
  | H : _ /\ _ |- _ => destruct H
  | E : (_ <=? _) = true |- _ => apply Z.leb_le in E
  | E : (_ <=? _) = false |- _ => apply Z.leb_gt in E
  | E : (_ <? _) = true |- _ => apply Z.ltb_lt in E
  | E : (_ <? _) = false |- _ => apply Z.ltb_ge in E
  | E : (_ =? _) = true |- _ => apply Z.eqb_eq in E
  | E : (_ =? _) = false |- _ => apply Z.eqb_neq in E
  | E : (_ || _) = false |- _ => apply orb_false_iff in E
  | E : (_ || _) = true |- _ => apply orb_true_iff in E; destruct E
  end.

Ltac range_solve :=
  cbv beta iota in *; range_facts;
  unfold user_ok, game_ok, factions_ok, faction_ok, rule_ok, u8_ok, u64_ok, i64_ok in *;
  cbv [set_tvl set_score set_factions set_total_tvl set_status set_epoch_number
       set_epoch_start_ts set_epoch_end_ts set_deposited_amount set_last_deposit_epoch
       set_automation_settings set_inventory set_sword_count set_shield_count
       set_spyglass_count automation_settings inventory priority_slot_1 priority_slot_2
       fid tvl score epoch_number epoch_start_ts epoch_end_ts total_tvl factions
       faction_id deposited_amount last_deposit_epoch sword_count shield_count
       spyglass_count item_id threshold faction0 faction1 faction2 initial_factions
       default_rule default_inventory] in *;
  range_facts;
  repeat match goal with
  | |- context [f64_to_i64 ?x] =>
      let H := fresh "Hf" in pose proof (f64_to_i64_range x) as H; revert H;
      generalize (f64_to_i64 x); intros ? ?
  end;
  unfold U64_MAX, I64_MIN, I64_MAX, get_item_price in *; cbn [fst snd] in *;
  repeat match goal with |- context [if ?c then _ else _] => destruct c end;
  repeat split; try exact I; Z.div_mod_to_equations; lia.

Lemma process_rule_ok (i : nat) (rule : AutomationRule) (budget : Z) :
  u64_ok budget -> wp_ok (process_rule i rule budget) (fun r => u64_ok (snd r)).
Proof.
  intros Hb. unfold process_rule. wp_with wp_prim. all: range_solve.
Qed.

Lemma apply_buffs_ok (i : nat) (y : Z) :
  u64_ok y ->
  wp_ok (apply_buffs i y) (fun o => match o with Some y' => u64_ok y' | None => True end).
Proof. intros Hy. unfold apply_buffs. wp_with wp_prim. all: range_solve. Qed.

Ltac wp_prim_settlement :=
  first [ apply process_rule_ok | apply apply_buffs_ok | wp_prim ].

Lemma automation_pipeline_ok (i : nat) (y : Z) :
  u64_ok y -> wp_ok (automation_pipeline i y) (fun _ => True).
Proof. intros Hy. unfold automation_pipeline. wp_with wp_prim_settlement. all: range_solve. Qed.

Lemma execute_settlement_ok (i : nat) (y : Z) :
  u64_ok y -> wp_ok (execute_settlement i y) (fun _ => True).
Proof.
  intros Hy. unfold execute_settlement.
  wp_with ltac:(first [apply automation_pipeline_ok | wp_prim_settlement]).
  all: range_solve.
Qed.

Lemma register_user_ok (user k : Z) : u8_ok k -> wp_ok (register_user user k) (fun _ => True).
Proof.
  intros Hk w (Hg & Hus & Hb). unfold register_user.
  destruct (k <? 3) eqn:E; [|exact I].
  destruct (existsb _ _); [exact I|].
  cbv [set_user_positions world_ok]. cbn. refine (conj (conj Hg (conj _ Hb)) I).
  apply Forall_app; split; [exact Hus|]. constructor; [|constructor]. range_solve.
Qed.

Lemma deposit_ok (i : nat) (amount : Z) : u64_ok amount -> wp_ok (deposit i amount) (fun _ => True).
Proof. intros Ha. unfold deposit. wp_with wp_prim. all: range_solve. Qed.

Lemma withdraw_ok (i : nat) (amount : Z) : u64_ok amount -> wp_ok (withdraw i amount) (fun _ => True).
Proof. intros Ha. unfold withdraw. wp_with wp_prim. all: range_solve. Qed.

Lemma update_automation_ok (i : nat) (s1 s2 : AutomationRule) (fb : FallbackAction) :
  rule_ok s1 -> rule_ok s2 -> wp_ok (update_automation i s1 s2 fb) (fun _ => True).
Proof. intros H1 H2. unfold update_automation. wp_with wp_prim. all: range_solve. Qed.

Lemma resolve_epoch_ok (signer : Z) : wp_ok (resolve_epoch signer) (fun _ => True).
Proof. unfold resolve_epoch. wp_with wp_prim. all: range_solve. Qed.

Lemma start_new_epoch_ok (signer now : Z) :
  i64_ok now -> wp_ok (start_new_epoch signer now) (fun _ => True).
Proof. intros Hn. unfold start_new_epoch. wp_with wp_prim. all: range_solve. Qed.

Lemma inject_yield_ok (amount : Z) : u64_ok amount -> wp_ok (inject_yield amount) (fun _ => True).
Proof. intros Ha. unfold inject_yield. apply token_transfer_ok. apply Ha. Qed.

Lemma instruction_ok_wp (ins : Instruction) :
  instruction_ok ins -> wp_ok (instruction_denote ins) (fun _ => True).
Proof.
  destruct ins; cbn [instruction_ok instruction_denote]; intros H.
  - apply register_user_ok, H.
  - apply deposit_ok, H.
  - apply withdraw_ok, H.
  - apply update_automation_ok; apply H.
  - apply resolve_epoch_ok.
  - apply execute_settlement_ok, H.
  - apply start_new_epoch_ok, H.
  - apply inject_yield_ok, H.
Qed.

Lemma after_ok (m : M unit) (Q : unit -> Prop) (w : World) :
  wp_ok m Q -> world_ok w -> world_ok (after m w).
Proof.
  intros Hm Hw. specialize (Hm w Hw). unfold after, commit.
  destruct (m w) as [[e|a] w1]; [exact Hw|]. apply Hm.
Qed.

Lemma run_transactions_ok (l : list Instruction) (w : World) :
  Forall instruction_ok l -> world_ok w -> world_ok (run_transactions w l).
Proof.
  intros Hl; revert w; induction Hl as [|ins l Hi Hl IH]; intros w Hw; cbn; [exact Hw|].
  apply IH. exact (after_ok _ _ _ (instruction_ok_wp ins Hi) Hw).
Qed.

Lemma genesis_ok (admin_key now : Z) (balances : TokenAccount -> Z) (w : World) :
  i64_ok now -> (forall a, u64_ok (balances a)) ->
  genesis admin_key now balances = Some w -> world_ok w.
Proof.
  intros Hn Hb Hgen.
  assert (Hw0 : world_ok (pre_genesis balances)).
  { refine (conj _ (conj (Forall_nil _) Hb)). unfold pre_genesis; cbn. range_solve. }
  assert (Hi : wp_ok (initialize_game admin_key now) (fun _ => True)).
  { unfold initialize_game. wp_with wp_prim. all: range_solve. }
  specialize (Hi _ Hw0). unfold genesis, commit in Hgen.
  destruct (initialize_game admin_key now (pre_genesis balances)) as [[e|[]] w1];
    [discriminate|]. injection Hgen as <-. apply Hi.
Qed.

(** ** C6: checked arithmetic *)

(** Claim C6: no numeric field wraps around.  From the initialized state
    and along every sequence of transactions with arguments of their Rust
    types, every stored numeric field (epoch number and timestamps, TVLs,
    scores, deposits, thresholds, item counters, token balances) holds the
    exact value computed for it, within the range of its type: every
    operation whose result would leave the range failed instead; and
    [start_new_epoch] at the largest [u64] epoch number fails. *)
Theorem no_wraparound (admin_key now : Z) (balances : TokenAccount -> Z)
  (w0 : World) (l : list Instruction)
  (Hnow : i64_ok now) (Hbal : forall a, u64_ok (balances a))
  (Hl : Forall instruction_ok l)
  (Hgen : genesis admin_key now balances = Some w0) :
  world_ok (run_transactions w0 l) /\
  forall (w : World) (signer now' : Z),
    epoch_number (game_state w) = U64_MAX ->
    exists e, commit (start_new_epoch signer now') w = inl e /\
              after (start_new_epoch signer now') w = w.
Proof.
  split.
  - exact (run_transactions_ok l w0 Hl (genesis_ok _ _ _ _ Hnow Hbal Hgen)).
  - intros w signer now' He.
    unfold after, commit, start_new_epoch.
    cbv [bind require_admin get_game_state ret throw add_assign_u64].
    destruct (signer =? admin (game_state w)).
    + rewrite He. replace (U64_MAX + 1 <=? U64_MAX) with false by reflexivity.
      eexists; split; reflexivity.
    + eexists; split; reflexivity.
Qed.

Definition epoch_max_world : World :=
  set_game_state withdraw_sample_world
    (set_epoch_number (game_state withdraw_sample_world) U64_MAX).

Lemma no_wraparound_witness :
  world_ok (run_transactions (mkWorld (mkGameState 7 1 1000 (1000 + EPOCH_DURATION) 0
                                        initial_factions Active) [] sample_balances)
              sample_transactions) /\
  exists e, commit (start_new_epoch 7 5000) epoch_max_world = inl e /\
            after (start_new_epoch 7 5000) epoch_max_world = epoch_max_world.
Proof.
  assert (Hbal : forall a, u64_ok (sample_balances a)).
  { intros []; unfold u64_ok, U64_MAX; cbn; lia. }
  assert (Hl : Forall instruction_ok sample_transactions).
  { repeat constructor; unfold u8_ok, u64_ok, U64_MAX; lia. }
  destruct (no_wraparound 7 1000 sample_balances
              (mkWorld (mkGameState 7 1 1000 (1000 + EPOCH_DURATION) 0 initial_factions Active)
                 [] sample_balances)
              sample_transactions
              ltac:(unfold i64_ok, I64_MIN, I64_MAX; lia) Hbal Hl eq_refl) as [H1 H2].
  split; [exact H1|]. apply H2. reflexivity.
Defined.

(** ** Rounding error of binary64 *)

Definition bpow (e : Z) : R := powerRZ 2 e.

Definition f64_val (x : f64) : R :=
  match x with
  | S754_finite s m e => ((if s then - IZR (Zpos m) else IZR (Zpos m)) * bpow e)%R
  | _ => 0%R
  end.

Definition f64_finite (x : f64) : Prop :=
  match x with S754_zero _ | S754_finite _ _ _ => True | _ => False end.

Lemma bpow_pos (e : Z) : (0 < bpow e)%R.
Proof. apply powerRZ_lt. lra. Qed.

Lemma bpow_add (a b : Z) : bpow (a + b) = (bpow a * bpow b)%R.
Proof. apply powerRZ_add. lra. Qed.

Lemma bpow_IZR (n : Z) : 0 <= n -> IZR (2 ^ n) = bpow n.
Proof.
  intros Hn. destruct n as [|p|p]; [reflexivity| |lia].
  unfold bpow. rewrite <- Zpower_pos_powerRZ. reflexivity.
Qed.

Lemma bpow_le (a b : Z) : a <= b -> (bpow a <= bpow b)%R.
Proof.
  intros H. replace b with (a + (b - a)) by lia. rewrite bpow_add.
  rewrite <- (bpow_IZR (b - a)) by lia.
  assert (H1 : 1 <= 2 ^ (b - a)).
  { pose proof (Z.pow_pos_nonneg 2 (b - a) ltac:(lia) ltac:(lia)). lia. }
  apply IZR_le in H1. pose proof (bpow_pos a). nra.
Qed.

Lemma digits2_pos_log2 (p : positive) : Zpos (digits2_pos p) = Z.log2 (Zpos p) + 1.
Proof.
  induction p as [p IH|p IH|]; cbn [digits2_pos].
  - rewrite Pos2Z.inj_succ, IH, Pos2Z.inj_xI, Z.log2_succ_double by lia. lia.
  - rewrite Pos2Z.inj_succ, IH, Pos2Z.inj_xO, Z.log2_double by lia. lia.
  - reflexivity.
Qed.

Lemma Zdigits2_bounds (m : Z) : 0 < m ->
  2 ^ (Zdigits2 m - 1) <= m < 2 ^ (Zdigits2 m).
Proof.
  intros Hm. destruct m as [|p|p]; try lia. cbn [Zdigits2]. rewrite digits2_pos_log2.
  replace (Z.log2 (Zpos p) + 1 - 1) with (Z.log2 (Zpos p)) by lia.
  pose proof (Z.log2_spec (Zpos p) Hm) as H. rewrite <- Z.add_1_r in H. exact H.
Qed.

Lemma Zdigits2_nonneg (m : Z) : 0 <= Zdigits2 m \/ m < 0.
Proof. destruct m; cbn; lia. Qed.

Lemma Zdigits2_le (m k : Z) : 0 <= m -> 0 <= k -> m <= 2 ^ k -> Zdigits2 m <= k + 1.
Proof.
  intros Hm Hk Hmk. destruct (Z.eq_dec m 0) as [->|Hm0]; [cbn; lia|].
  destruct (Zdigits2_bounds m ltac:(lia)) as [H1 _].
  destruct (Z.le_gt_cases (Zdigits2 m) (k + 1)) as [|Hgt]; [assumption|].
  assert (2 ^ (k + 1) <= 2 ^ (Zdigits2 m - 1)) by (apply Z.pow_le_mono_r; lia).
  rewrite Z.pow_add_r in H by lia. lia.
Qed.

Lemma digits2_pos_iter_xO (m d : positive) :
  digits2_pos (Pos.iter xO m d) = (digits2_pos m + d)%positive.
Proof.
  induction d as [|d IH] using Pos.peano_ind.
  - cbn [Pos.iter digits2_pos]. lia.
  - rewrite Pos.iter_succ. cbn [digits2_pos]. rewrite IH. lia.
Qed.

Lemma iter_xO_val (m d : positive) : Zpos (Pos.iter xO m d) = Zpos m * 2 ^ Zpos d.
Proof.
  induction d as [|d IH] using Pos.peano_ind.
  - cbn [Pos.iter]. rewrite Pos2Z.inj_xO. lia.
  - rewrite Pos.iter_succ, Pos2Z.inj_xO, IH, Pos2Z.inj_succ, Z.pow_succ_r by lia. lia.
Qed.

Lemma pow2_xI (p : positive) : 2 ^ Zpos (xI p) = 2 * 2 ^ Zpos p * 2 ^ Zpos p.
Proof.
  rewrite (Pos2Z.inj_xI p). replace (2 * Zpos p + 1) with (Zpos p + Zpos p + 1) by lia.
  rewrite !Z.pow_add_r by lia. lia.
Qed.

Lemma pow2_xO (p : positive) : 2 ^ Zpos (xO p) = 2 ^ Zpos p * 2 ^ Zpos p.
Proof.
  rewrite (Pos2Z.inj_xO p). replace (2 * Zpos p) with (Zpos p + Zpos p) by lia.
  rewrite !Z.pow_add_r by lia. lia.
Qed.

Lemma shr_1_m (mrs : shr_record) :
  0 <= shr_m mrs -> shr_m (shr_1 mrs) = shr_m mrs / 2.
Proof.
  destruct mrs as [m r s]. cbn. intros Hm.
  destruct m as [|[p|p|]|p]; cbn; try lia.
  - rewrite Pos2Z.inj_xI. Z.div_mod_to_equations. lia.
  - rewrite Pos2Z.inj_xO. Z.div_mod_to_equations. lia.
Qed.

Lemma iter_shr_1_m (p : positive) (mrs : shr_record) :
  0 <= shr_m mrs -> shr_m (SpecFloat.iter_pos shr_1 p mrs) = shr_m mrs / 2 ^ Zpos p.
Proof.
  revert mrs. induction p as [p IH|p IH|]; intros mrs Hm; cbn [SpecFloat.iter_pos].
  - assert (H1 : shr_m (shr_1 mrs) = shr_m mrs / 2) by (apply shr_1_m, Hm).
    assert (H1' : 0 <= shr_m (shr_1 mrs)) by (rewrite H1; apply Z.div_pos; lia).
    assert (H2 := IH _ H1').
    assert (H2' : 0 <= shr_m (SpecFloat.iter_pos shr_1 p (shr_1 mrs))).
    { rewrite H2. apply Z.div_pos; [lia|]. apply Z.pow_pos_nonneg; lia. }
    rewrite (IH _ H2'), H2, H1, !Z.div_div
      by (pose proof (Z.pow_pos_nonneg 2 (Zpos p) ltac:(lia) ltac:(lia)); lia).
    f_equal. rewrite pow2_xI. lia.
  - assert (H2 := IH _ Hm).
    assert (H2' : 0 <= shr_m (SpecFloat.iter_pos shr_1 p mrs)).
    { rewrite H2. apply Z.div_pos; [lia|]. apply Z.pow_pos_nonneg; lia. }
    rewrite (IH _ H2'), H2, Z.div_div
      by (pose proof (Z.pow_pos_nonneg 2 (Zpos p) ltac:(lia) ltac:(lia)); lia).
    f_equal. rewrite pow2_xO. lia.
  - apply shr_1_m, Hm.
Qed.

Lemma shr_spec (mrs : shr_record) (e n : Z) :
  0 <= shr_m mrs -> 0 <= n ->
  shr_m (fst (shr mrs e n)) = shr_m mrs / 2 ^ n /\ snd (shr mrs e n) = e + n.
Proof.
  intros Hm Hn. destruct n as [|p|p]; cbn [shr fst snd].
  - rewrite Z.pow_0_r, Z.div_1_r. lia.
  - split; [apply iter_shr_1_m, Hm | reflexivity].
  - lia.
Qed.

Lemma shr_nonpos (mrs : shr_record) (e n : Z) : n <= 0 -> shr mrs e n = (mrs, e).
Proof. intros Hn. destruct n; cbn; reflexivity || lia. Qed.

Lemma shr_m_of_loc (m : Z) (l : location) : shr_m (shr_record_of_loc m l) = m.
Proof. destruct l as [|[]]; reflexivity. Qed.

Lemma rne_cases (m : Z) (l : location) :
  round_nearest_even m l = m \/ round_nearest_even m l = m + 1.
Proof.
  destruct l as [|[]]; cbn; auto. destruct (Z.even m); auto.
Qed.

Lemma fexp64 (e : Z) : fexp 53 1024 e = Z.max (e - 53) (-1074).
Proof. reflexivity. Qed.

Lemma bpow_plus_IZR (a k : Z) : 0 <= k -> bpow (a + k) = (bpow a * IZR (2 ^ k))%R.
Proof. intros Hk. rewrite bpow_add, bpow_IZR by exact Hk. reflexivity. Qed.

Lemma bpow_lt_inv (a b : Z) : (bpow a < bpow b)%R -> a < b.
Proof.
  intros H. destruct (Z.le_gt_cases b a) as [Hle|]; [|assumption].
  apply bpow_le in Hle. lra.
Qed.

(** Rounding of [mx * 2^ex], known to bracket the exact value [X]. *)
Lemma round_aux_error (sx : bool) (mx ex : Z) (lx : location) (X : R) :
  0 <= mx ->
  (IZR mx * bpow ex <= X < IZR (mx + 1) * bpow ex)%R ->
  ex <= fexp 53 1024 (Zdigits2 mx + ex) ->
  (X < bpow 1000)%R ->
  f64_finite (binary_round_aux 53 1024 sx mx ex lx) /\
  (Rabs (f64_val (binary_round_aux 53 1024 sx mx ex lx) - (if sx then - X else X))
     <= 3 * (X * bpow (-52) + bpow (-1074)))%R.
Proof.
  intros Hmx [HX1 HX2] Hex HXb.
  set (d := Zdigits2 mx) in *.
  set (E := fexp 53 1024 (d + ex)) in *.
  assert (HE : E = Z.max (d + ex - 53) (-1074)) by (unfold E; apply fexp64).
  assert (Hd0 : 0 <= d) by (unfold d; destruct mx; cbn; lia).
  assert (HX0 : (0 <= X)%R).
  { pose proof (bpow_pos ex). apply IZR_le in Hmx. nra. }
  (* the magnitude of a nonzero mantissa *)
  assert (Hdm : 0 < mx -> 2 ^ (d - 1) <= mx < 2 ^ d) by (intros; apply Zdigits2_bounds; lia).
  assert (Hd1 : 0 < mx -> 1 <= d) by (unfold d; destruct mx; cbn; lia).
  assert (Hmx0E : mx = 0 -> E = -1074).
  { intros ->. unfold d in HE. cbn in HE. lia. }
  (* E is not above the exponent of the value *)
  assert (HdE : d + ex <= 1000).
  { destruct (Z.eq_dec mx 0) as [->|Hnz]; [rewrite Hmx0E in * by reflexivity; lia|].
    destruct (Hdm ltac:(lia)) as [Hlo _].
    assert (bpow (d - 1 + ex) <= X)%R.
    { rewrite Z.add_comm, bpow_plus_IZR by lia.
      apply IZR_le in Hlo. pose proof (bpow_pos ex). nra. }
    assert (d - 1 + ex < 1000) by (apply bpow_lt_inv; lra). lia. }
  assert (HEu : (bpow E <= X * bpow (-52) + bpow (-1074))%R).
  { destruct (Z.le_gt_cases (d + ex - 53) (-1074)) as [Hs|Hs].
    - replace E with (-1074) by lia. pose proof (bpow_pos (-52)). nra.
    - destruct (Z.eq_dec mx 0) as [Hz|Hnz]; [specialize (Hmx0E Hz); lia|].
      destruct (Hdm ltac:(lia)) as [Hlo _].
      replace E with (d - 1 + ex + (-52)) by lia. rewrite bpow_add.
      assert (bpow (d - 1 + ex) <= X)%R.
      { rewrite Z.add_comm, bpow_plus_IZR by lia.
        apply IZR_le in Hlo. pose proof (bpow_pos ex). nra. }
      pose proof (bpow_pos (-52)). pose proof (bpow_pos (-1074)). nra. }
  (* first shift: to the exponent E *)
  unfold binary_round_aux, shr_fexp. fold d. fold E.
  destruct (shr_spec (shr_record_of_loc mx lx) ex (E - ex)) as [Hm1 He1];
    [rewrite shr_m_of_loc; lia | lia |].
  destruct (shr (shr_record_of_loc mx lx) ex (E - ex)) as [mrs1 e1] eqn:Hs1.
  cbn [fst snd] in Hm1, He1. rewrite shr_m_of_loc in Hm1.
  replace e1 with E in * by lia. clear He1.
  set (m1 := shr_m mrs1) in *.
  assert (Hpk : 0 < 2 ^ (E - ex)) by (apply Z.pow_pos_nonneg; lia).
  assert (Hm1lo : m1 * 2 ^ (E - ex) <= mx /\ mx + 1 <= (m1 + 1) * 2 ^ (E - ex)).
  { rewrite Hm1. Z.div_mod_to_equations. lia. }
  assert (Hm10 : 0 <= m1) by (rewrite Hm1; apply Z.div_pos; lia).
  assert (Hm1b : m1 < 2 ^ 53).
  { rewrite Hm1. apply Z.div_lt_upper_bound; [lia|].
    rewrite <- Z.pow_add_r by lia.
    destruct (Z.eq_dec mx 0) as [->|Hnz].
    - apply Z.pow_pos_nonneg; lia.
    - destruct (Hdm ltac:(lia)) as [_ Hhi].
      assert (2 ^ d <= 2 ^ (E - ex + 53)) by (apply Z.pow_le_mono_r; lia). lia. }
  assert (HbE : bpow E = (bpow ex * IZR (2 ^ (E - ex)))%R).
  { rewrite <- bpow_plus_IZR by lia. f_equal. lia. }
  assert (HR1 : (IZR m1 * bpow E <= X < IZR (m1 + 1) * bpow E)%R).
  { destruct Hm1lo as [Ha Hb]. apply IZR_le in Ha. apply IZR_le in Hb.
    rewrite mult_IZR in Ha, Hb. rewrite !plus_IZR in Hb. rewrite plus_IZR in HX2. rewrite plus_IZR.
    pose proof (bpow_pos ex) as Hb0. rewrite HbE.
    apply (Rmult_le_compat_r (bpow ex)) in Ha, Hb; [|lra|lra].
    split; [lra|].
    lra. }
  (* rounding to nearest *)
  set (m2 := round_nearest_even m1 (loc_of_shr_record mrs1)).
  assert (Hm2 : m2 = m1 \/ m2 = m1 + 1) by apply rne_cases.
  assert (HR2 : (Rabs (IZR m2 * bpow E - X) <= bpow E)%R).
  { pose proof (bpow_pos E). rewrite plus_IZR in HR1.
    destruct Hm2 as [-> | ->]; [|rewrite plus_IZR]; apply Rabs_le; split; nra. }
  (* second shift: renormalisation *)
  set (n2 := fexp 53 1024 (Zdigits2 m2 + E) - E).
  assert (Hn2 : n2 <= 1).
  { unfold n2. rewrite fexp64.
    assert (Zdigits2 m2 <= 54) by (apply (Zdigits2_le m2 53); lia). lia. }
  assert (Hm20 : 0 <= m2) by lia.
  set (k2 := Z.max 0 n2).
  assert (Hs3 : exists mrs3, shr (shr_record_of_loc m2 loc_Exact) E n2 = (mrs3, E + k2) /\
                  shr_m mrs3 = m2 / 2 ^ k2).
  { destruct (Z.le_gt_cases n2 0) as [Hle|Hgt].
    - exists (shr_record_of_loc m2 loc_Exact). rewrite shr_nonpos by exact Hle.
      split; [f_equal; lia|]. rewrite shr_m_of_loc. replace k2 with 0 by lia.
      rewrite Z.pow_0_r, Z.div_1_r. reflexivity.
    - destruct (shr_spec (shr_record_of_loc m2 loc_Exact) E n2) as [Ha Hb];
        [rewrite shr_m_of_loc; lia | lia |].
      exists (fst (shr (shr_record_of_loc m2 loc_Exact) E n2)).
      replace k2 with n2 by lia. rewrite <- Hb, <- surjective_pairing.
      split; [reflexivity|]. rewrite Ha, shr_m_of_loc. reflexivity. }
  destruct Hs3 as [mrs3 [Hs3 Hm3]]. fold m2 n2. rewrite Hs3.
  set (m3 := shr_m mrs3) in *.
  assert (Hk2 : 0 <= k2 <= 1) by lia.
  assert (Hpk2 : 0 < 2 ^ k2) by (apply Z.pow_pos_nonneg; lia).
  assert (Hm30 : 0 <= m3) by (rewrite Hm3; apply Z.div_pos; lia).
  assert (HR3 : (Rabs (IZR m3 * bpow (E + k2) - IZR m2 * bpow E) <= 2 * bpow E)%R).
  { assert (Hq : m3 * 2 ^ k2 <= m2 < m3 * 2 ^ k2 + 2 ^ k2).
    { rewrite Hm3. Z.div_mod_to_equations. lia. }
    assert (H2k : 2 ^ k2 <= 2).
    { destruct (Z.eq_dec k2 0) as [->|]; [cbn; lia|]. replace k2 with 1 by lia. cbn. lia. }
    rewrite bpow_plus_IZR by lia.
    destruct Hq as [Hq1 Hq2]. apply IZR_le in Hq1. apply IZR_lt in Hq2. apply IZR_le in H2k.
    rewrite mult_IZR in Hq1. rewrite plus_IZR, mult_IZR in Hq2.
    pose proof (bpow_pos E). apply Rabs_le; split; nra. }
  assert (Htot : (Rabs (IZR m3 * bpow (E + k2) - X) <= 3 * bpow E)%R).
  { pose proof (Rabs_triang (IZR m3 * bpow (E + k2) - IZR m2 * bpow E) (IZR m2 * bpow E - X)).
    replace (IZR m3 * bpow (E + k2) - IZR m2 * bpow E + (IZR m2 * bpow E - X))%R
      with (IZR m3 * bpow (E + k2) - X)%R in H by ring.
    lra. }
  assert (Hval : forall r, (Rabs (r - X) <= 3 * bpow E)%R ->
            (Rabs ((if sx then - r else r) - (if sx then - X else X))
               <= 3 * (X * bpow (-52) + bpow (-1074)))%R).
  { intros r Hr. destruct sx.
    - replace (- r - - X)%R with (- (r - X))%R by ring. rewrite Rabs_Ropp. lra.
    - lra. }
  assert (He3 : E + k2 <= 1024 - 53).
  { destruct (Z.eq_dec mx 0) as [Hz|Hnz]; [specialize (Hmx0E Hz); lia | lia]. }
  destruct m3 as [|p|p] eqn:Em3.
  - split; [exact I|]. cbn [f64_val].
    specialize (Hval 0%R). rewrite Rmult_0_l in Htot. destruct sx; [rewrite Ropp_0 in Hval|]; apply Hval; exact Htot.
  - replace (E + k2 <=? 1024 - 53) with true by (symmetry; apply Z.leb_le; exact He3).
    split; [exact I|]. cbn [f64_val].
    apply (Hval (IZR (Zpos p) * bpow (E + k2))%R) in Htot.
    destruct sx; cbv beta iota in Htot |- *; [rewrite Ropp_mult_distr_l in Htot|]; exact Htot.
  - lia.
Qed.

Lemma Zdigits2_pos (p : positive) : Zdigits2 (Zpos p) = Zpos (digits2_pos p).
Proof. reflexivity. Qed.

Lemma Rabs_sign_sub (s : bool) (v X : R) :
  Rabs ((if s then - v else v) - (if s then - X else X)) = Rabs (v - X).
Proof.
  destruct s; [|reflexivity].
  replace (- v - - X)%R with (- (v - X))%R by ring. apply Rabs_Ropp.
Qed.

Lemma binary_round_error (sx : bool) (p : positive) (e : Z) :
  (IZR (Zpos p) * bpow e < bpow 1000)%R ->
  f64_finite (binary_round 53 1024 sx p e) /\
  (Rabs (f64_val (binary_round 53 1024 sx p e)
          - (if sx then - (IZR (Zpos p) * bpow e) else IZR (Zpos p) * bpow e))
     <= 3 * (IZR (Zpos p) * bpow e * bpow (-52) + bpow (-1074)))%R.
Proof.
  intros Hb. unfold binary_round, shl_align.
  set (ez := fexp 53 1024 (Zpos (digits2_pos p) + e)).
  pose proof (bpow_pos e) as He.
  destruct (ez - e) as [|d|d] eqn:Hd.
  - apply round_aux_error; [lia| |rewrite Zdigits2_pos; fold ez; lia|exact Hb].
    rewrite plus_IZR. split; lra.
  - apply round_aux_error; [lia| |rewrite Zdigits2_pos; fold ez; lia|exact Hb].
    rewrite plus_IZR. split; lra.
  - assert (HX : (IZR (Zpos (Pos.iter xO p d)) * bpow ez = IZR (Zpos p) * bpow e)%R).
    { rewrite iter_xO_val, mult_IZR, bpow_IZR by lia. rewrite Rmult_assoc, <- bpow_add.
      f_equal. f_equal. lia. }
    rewrite <- HX in Hb |- *. apply round_aux_error; [lia| | |exact Hb].
    + rewrite plus_IZR. pose proof (bpow_pos ez). split; lra.
    + rewrite Zdigits2_pos, digits2_pos_iter_xO, Pos2Z.inj_add.
      replace (Zpos (digits2_pos p) + Zpos d + ez) with (Zpos (digits2_pos p) + e) by lia.
      fold ez. lia.
Qed.

(** Rounding an integer multiple of a power of two. *)
Lemma normalize_error (n e : Z) :
  (Rabs (IZR n * bpow e) < bpow 1000)%R ->
  f64_finite (binary_normalize 53 1024 n e false) /\
  (Rabs (f64_val (binary_normalize 53 1024 n e false) - IZR n * bpow e)
     <= 3 * (Rabs (IZR n * bpow e) * bpow (-52) + bpow (-1074)))%R.
Proof.
  intros Hb. pose proof (bpow_pos (-1074)). pose proof (bpow_pos e).
  destruct n as [|p|p]; cbn [binary_normalize].
  - split; [exact I|]. cbn [f64_val]. rewrite Rmult_0_l, Rminus_0_r, !Rabs_R0.
    lra.
  - rewrite (Rabs_pos_eq (IZR (Zpos p) * bpow e)) in Hb |- * by (apply Rmult_le_pos; [apply IZR_le; lia|lra]).
    apply (binary_round_error false p e Hb).
  - rewrite <- Pos2Z.opp_pos, opp_IZR, Ropp_mult_distr_l_reverse, Rabs_Ropp in Hb |- *.
    rewrite (Rabs_pos_eq (IZR (Zpos p) * bpow e)) in Hb |- * by (apply Rmult_le_pos; [apply IZR_le; lia|lra]).
    apply (binary_round_error true p e Hb).
Qed.

Lemma f64_of_Z_error (n : Z) :
  (Rabs (IZR n) < bpow 1000)%R ->
  f64_finite (f64_of_Z n) /\
  (Rabs (f64_val (f64_of_Z n) - IZR n) <= 3 * (Rabs (IZR n) * bpow (-52) + bpow (-1074)))%R.
Proof.
  intros Hb. unfold f64_of_Z, f64_prec, f64_emax.
  pose proof (normalize_error n 0) as H. replace (bpow 0) with 1%R in H by reflexivity.
  rewrite Rmult_1_r in H. apply H, Hb.
Qed.

Definition cond_val (s : bool) (m : positive) : Z := if s then Z.opp (Z.pos m) else Z.pos m.

Lemma f64_val_finite (s : bool) (m : positive) (e : Z) :
  f64_val (S754_finite s m e) = (IZR (cond_val s m) * bpow e)%R.
Proof. destruct s; reflexivity. Qed.

Lemma shl_align_val (m : positive) (e e' : Z) :
  e' <= e ->
  (IZR (Zpos (fst (shl_align m e e'))) * bpow e' = IZR (Zpos m) * bpow e)%R.
Proof.
  intros H. unfold shl_align. destruct (e' - e) as [|d|d] eqn:Hd; cbn [fst].
  - replace e' with e by lia. reflexivity.
  - lia.
  - rewrite iter_xO_val, mult_IZR, bpow_IZR by lia. rewrite Rmult_assoc, <- bpow_add.
    f_equal. f_equal. lia.
Qed.

Lemma f64_sub_error (x y : f64) :
  f64_finite x -> f64_finite y ->
  (Rabs (f64_val x - f64_val y) < bpow 1000)%R ->
  f64_finite (f64_sub x y) /\
  (Rabs (f64_val (f64_sub x y) - (f64_val x - f64_val y))
     <= 3 * (Rabs (f64_val x - f64_val y) * bpow (-52) + bpow (-1074)))%R.
Proof.
  intros Hx Hy Hb. pose proof (bpow_pos (-1074)) as Hη.
  pose proof (Rabs_pos (f64_val x - f64_val y)). pose proof (bpow_pos (-52)).
  assert (Hz : forall v, (Rabs (v - v) <= 3 * (Rabs (f64_val x - f64_val y) * bpow (-52) + bpow (-1074)))%R).
  { intros v. rewrite Rminus_diag, Rabs_R0. nra. }
  unfold f64_sub, f64_prec, f64_emax.
  destruct x as [sx| | |sx mx ex]; try contradiction;
    destruct y as [sy| | |sy my ey]; try contradiction.
  - split; [destruct sx, sy; exact I|].
    replace (f64_val (SFsub 53 1024 (S754_zero sx) (S754_zero sy))) with 0%R
      by (destruct sx, sy; reflexivity).
    cbn [f64_val]. rewrite Rminus_diag, Rminus_diag, !Rabs_R0. nra.
  - split; [exact I|]. cbn [SFsub].
    replace (f64_val (S754_finite (negb sy) my ey)) with (f64_val (S754_zero sx) - f64_val (S754_finite sy my ey))%R
      by (destruct sy; cbn; ring).
    rewrite Rminus_diag, Rabs_R0. nra.
  - split; [exact I|]. cbn [SFsub].
    replace (f64_val (S754_finite sx mx ex) - f64_val (S754_zero sy))%R
      with (f64_val (S754_finite sx mx ex) - 0)%R by reflexivity.
    rewrite Rminus_0_r, Rminus_diag, Rabs_R0. pose proof (Rabs_pos (f64_val (S754_finite sx mx ex))). nra.
  - cbn [SFsub]. set (ez := Z.min ex ey).
    set (n := cond_Zopp sx (Zpos (fst (shl_align mx ex ez)))
              - cond_Zopp sy (Zpos (fst (shl_align my ey ez)))).
    assert (Hn : (IZR n * bpow ez
                  = f64_val (S754_finite sx mx ex) - f64_val (S754_finite sy my ey))%R).
    { unfold n. rewrite minus_IZR, Rmult_minus_distr_r.
      rewrite !f64_val_finite.
      pose proof (shl_align_val mx ex ez ltac:(lia)) as H1.
      pose proof (shl_align_val my ey ez ltac:(lia)) as H2.
      destruct sx, sy; cbn [cond_Zopp cond_val]; rewrite ?opp_IZR; lra. }
    rewrite <- Hn in Hb |- *. apply normalize_error, Hb.
Qed.

Lemma f64_mul_error (x : f64) (sy : bool) (my : positive) (ey : Z) :
  f64_finite x -> Zdigits2 (Zpos my) = 53 ->
  (Rabs (f64_val x * f64_val (S754_finite sy my ey)) < bpow 1000)%R ->
  f64_finite (f64_mul x (S754_finite sy my ey)) /\
  (Rabs (f64_val (f64_mul x (S754_finite sy my ey)) - f64_val x * f64_val (S754_finite sy my ey))
     <= 3 * (Rabs (f64_val x * f64_val (S754_finite sy my ey)) * bpow (-52) + bpow (-1074)))%R.
Proof.
  intros Hx Hd Hb. pose proof (bpow_pos (-1074)). pose proof (bpow_pos (-52)).
  unfold f64_mul, f64_prec, f64_emax.
  destruct x as [sx| | |sx mx ex]; try contradiction.
  - split; [exact I|]. cbn [SFmul f64_val]. rewrite Rmult_0_l, Rminus_0_r, !Rabs_R0. lra.
  - cbn [SFmul].
    set (X := (IZR (Zpos (mx * my)) * bpow (ex + ey))%R).
    assert (HX0 : (0 <= X)%R) by (unfold X; pose proof (bpow_pos (ex + ey)); apply Rmult_le_pos; [apply IZR_le; lia|lra]).
    assert (HvX : (f64_val (S754_finite sx mx ex) * f64_val (S754_finite sy my ey)
                   = if xorb sx sy then - X else X)%R).
    { unfold X. rewrite !f64_val_finite, Pos2Z.inj_mul, mult_IZR, bpow_add.
      destruct sx, sy; cbn [cond_val xorb]; rewrite ?opp_IZR; ring. }
    assert (HaX : Rabs (if xorb sx sy then - X else X) = X)
      by (destruct (xorb sx sy); [rewrite Rabs_Ropp|]; apply Rabs_pos_eq, HX0).
    rewrite HvX in Hb |- *. rewrite HaX in Hb |- *.
    apply round_aux_error; [lia| | |exact Hb].
    + unfold X. rewrite plus_IZR. pose proof (bpow_pos (ex + ey)). split; lra.
    + rewrite fexp64.
      assert (53 <= Zdigits2 (Zpos (mx * my))).
      { destruct (Z.le_gt_cases 53 (Zdigits2 (Zpos (mx * my)))) as [|Hlt]; [assumption|].
        pose proof (Zdigits2_bounds (Zpos my) ltac:(lia)) as [Hy _].
        pose proof (Zdigits2_bounds (Zpos (mx * my)) ltac:(lia)) as [_ Hxy].
        rewrite Hd in Hy.
        assert (2 ^ Zdigits2 (Zpos (mx * my)) <= 2 ^ 52) by (apply Z.pow_le_mono_r; lia).
        rewrite Pos2Z.inj_mul in *. replace (53 - 1) with 52 in Hy by lia. assert (Zpos mx * Zpos my >= Zpos my) by nia. lia. }
      lia.
Qed.

Lemma fexp64_mono (a b : Z) : a <= b -> fexp 53 1024 a <= fexp 53 1024 b.
Proof. rewrite !fexp64. lia. Qed.

Lemma div_core_spec (m1 e1 m2 e2 : Z) :
  0 < m1 -> 0 < m2 ->
  match SFdiv_core_binary 53 1024 m1 e1 m2 e2 with
  | (q, e', _) =>
      0 <= q /\
      (IZR q * bpow e' <= IZR m1 * bpow e1 / (IZR m2 * bpow e2) < IZR (q + 1) * bpow e')%R /\
      e' <= fexp 53 1024 (Zdigits2 q + e')
  end.
Proof.
  intros H1 H2. unfold SFdiv_core_binary.
  set (d1 := Zdigits2 m1). set (d2 := Zdigits2 m2).
  set (A := d1 + e1 - (d2 + e2)).
  set (e' := Z.min (fexp 53 1024 A) (e1 - e2)).
  set (s := e1 - e2 - e').
  assert (Hs : 0 <= s) by (unfold s, e'; lia).
  assert (Hm : (match s with Zpos _ => Z.shiftl m1 s | Z0 => m1 | Zneg _ => 0 end) = m1 * 2 ^ s).
  { destruct s eqn:Es; [lia| |lia]. rewrite Z.shiftl_mul_pow2 by lia. reflexivity. }
  rewrite Hm.
  destruct (Z.div_eucl (m1 * 2 ^ s) m2) as [q r] eqn:Hqr.
  assert (Hq : q = m1 * 2 ^ s / m2) by (unfold Z.div; rewrite Hqr; reflexivity).
  assert (Hps : 0 < 2 ^ s) by (apply Z.pow_pos_nonneg; lia).
  assert (Hqb : q * m2 <= m1 * 2 ^ s < (q + 1) * m2).
  { rewrite Hq. pose proof (Z.mul_div_le (m1 * 2 ^ s) m2 H2).
    pose proof (Z.mul_succ_div_gt (m1 * 2 ^ s) m2 H2). lia. }
  assert (Hq0 : 0 <= q) by (rewrite Hq; apply Z.div_pos; nia).
  split; [exact Hq0|split].
  - (* the exact quotient lies in [q, q+1) units of 2^e' *)
    assert (HX : (IZR m1 * bpow e1 / (IZR m2 * bpow e2) = IZR (m1 * 2 ^ s) / IZR m2 * bpow e')%R).
    { rewrite mult_IZR, bpow_IZR by lia.
      replace e1 with (s + e' + e2) by (unfold s; lia). rewrite !bpow_add.
      pose proof (bpow_pos e2). assert (0 < IZR m2)%R by (apply IZR_lt; lia).
      field. lra. }
    rewrite HX. pose proof (bpow_pos e').
    assert (Hm2 : (0 < IZR m2)%R) by (apply IZR_lt; lia).
    destruct Hqb as [Ha Hb]. apply IZR_le in Ha. apply IZR_lt in Hb.
    rewrite (mult_IZR q m2) in Ha. rewrite (mult_IZR (q + 1) m2) in Hb.
    assert (IZR q <= IZR (m1 * 2 ^ s) / IZR m2)%R.
    { apply (Rmult_le_reg_r (IZR m2)); [lra|]. unfold Rdiv. rewrite Rmult_assoc, Rinv_l; lra. }
    assert (IZR (m1 * 2 ^ s) / IZR m2 < IZR (q + 1))%R.
    { apply (Rmult_lt_reg_r (IZR m2)); [lra|]. unfold Rdiv. rewrite Rmult_assoc, Rinv_l; lra. }
    split; nra.
  - (* the quotient has enough digits *)
    pose proof (Zdigits2_bounds m1 H1) as [Hd1 _].
    pose proof (Zdigits2_bounds m2 H2) as [_ Hd2].
    fold d1 in Hd1. fold d2 in Hd2.
    assert (Hd1p : 1 <= d1) by (unfold d1; destruct m1; cbn; lia).
    assert (Hd2p : 1 <= d2) by (unfold d2; destruct m2; cbn; lia).
    assert (Hdig : forall k, 0 <= k -> k <= d1 + s - d2 - 1 -> k + 1 <= Zdigits2 q).
    { intros k Hk0 Hk.
      assert (Hqk : 2 ^ k <= q).
      { rewrite Hq. apply Z.div_le_lower_bound; [lia|].
        assert (2 ^ k * 2 ^ d2 <= 2 ^ (d1 - 1) * 2 ^ s).
        { rewrite <- !Z.pow_add_r by lia. apply Z.pow_le_mono_r; lia. }
        nia. }
      destruct (Z.le_gt_cases (k + 1) (Zdigits2 q)) as [|Hlt]; [assumption|].
      pose proof (Zdigits2_bounds q ltac:(pose proof (Z.pow_pos_nonneg 2 k); lia)) as [_ Hq2].
      assert (2 ^ Zdigits2 q <= 2 ^ k).
      { apply Z.pow_le_mono_r; [lia|].
        destruct (Zdigits2_nonneg q); lia. }
      lia. }
    assert (He' : e' = Z.min (Z.max (A - 53) (-1074)) (e1 - e2))
      by (unfold e'; rewrite fexp64; reflexivity).
    assert (Hs' : s = e1 - e2 - e') by reflexivity.
    assert (HA : A = d1 + e1 - (d2 + e2)) by reflexivity.
    rewrite fexp64.
    destruct (Z.le_gt_cases (A - 53) (-1074)).
    + lia.
    + assert (Hk : 52 <= d1 + s - d2 - 1) by lia.
      specialize (Hdig 52 ltac:(lia) Hk). lia.
Qed.

Lemma f64_div_error (x : f64) (my : positive) (ey : Z) :
  f64_finite x ->
  (Rabs (f64_val x / f64_val (S754_finite false my ey)) < bpow 1000)%R ->
  f64_finite (f64_div x (S754_finite false my ey)) /\
  (Rabs (f64_val (f64_div x (S754_finite false my ey)) - f64_val x / f64_val (S754_finite false my ey))
     <= 3 * (Rabs (f64_val x / f64_val (S754_finite false my ey)) * bpow (-52) + bpow (-1074)))%R.
Proof.
  intros Hx Hb. pose proof (bpow_pos (-1074)). pose proof (bpow_pos (-52)).
  unfold f64_div, f64_prec, f64_emax.
  destruct x as [sx| | |sx mx ex]; try contradiction.
  - split; [exact I|]. cbn [SFdiv f64_val]. unfold Rdiv. rewrite Rmult_0_l, Rminus_0_r, !Rabs_R0. lra.
  - cbn [SFdiv].
    pose proof (div_core_spec (Zpos mx) ex (Zpos my) ey ltac:(lia) ltac:(lia)) as Hc.
    destruct (SFdiv_core_binary 53 1024 (Zpos mx) ex (Zpos my) ey) as [[q e'] l].
    destruct Hc as [Hq0 [Hbr Hex]].
    set (X := (IZR (Zpos mx) * bpow ex / (IZR (Zpos my) * bpow ey))%R) in Hbr.
    assert (HX0 : (0 <= X)%R).
    { unfold X. pose proof (bpow_pos ex). pose proof (bpow_pos ey).
      assert (0 < IZR (Zpos my))%R by (apply IZR_lt; lia).
      assert (0 < IZR (Zpos mx))%R by (apply IZR_lt; lia).
      apply Rlt_le, Rdiv_lt_0_compat; apply Rmult_lt_0_compat; lra. }
    assert (HvX : (f64_val (S754_finite sx mx ex) / f64_val (S754_finite false my ey)
                   = if xorb sx false then - X else X)%R).
    { unfold X. destruct sx; cbn [f64_val xorb]; [|reflexivity].
      unfold Rdiv. rewrite Ropp_mult_distr_l_reverse, Ropp_mult_distr_l_reverse. reflexivity. }
    assert (HaX : Rabs (if xorb sx false then - X else X) = X)
      by (destruct (xorb sx false); [rewrite Rabs_Ropp|]; apply Rabs_pos_eq, HX0).
    rewrite HvX in Hb |- *. rewrite HaX in Hb |- *.
    apply round_aux_error; [exact Hq0|exact Hbr|exact Hex|exact Hb].
Qed.

Lemma Rabs_le_split (x a : R) : (Rabs x <= a)%R -> (- a <= x <= a)%R.
Proof. split_Rabs; lra. Qed.

Lemma Rdiv_nonneg (a b : R) : (0 <= a)%R -> (0 < b)%R -> (0 <= a / b)%R.
Proof. intros Ha Hb. unfold Rdiv. apply Rmult_le_pos; [exact Ha|]. apply Rlt_le, Rinv_0_lt_compat, Hb. Qed.

Lemma Rabs_div_le (x c b : R) : (0 < c)%R -> (Rabs x <= b * c)%R -> (Rabs (x / c) <= b)%R.
Proof.
  intros Hc Hx. unfold Rdiv. rewrite Rabs_mult, Rabs_inv, (Rabs_pos_eq c) by lra.
  apply (Rmult_le_reg_r c); [exact Hc|]. rewrite Rmult_assoc, Rinv_l by lra. lra.
Qed.

Lemma bpow_opp_IZR (k : Z) : 0 <= k -> (bpow (- k) * IZR (2 ^ k) = 1)%R.
Proof.
  intros Hk. rewrite bpow_IZR by exact Hk. rewrite <- bpow_add.
  replace (- k + k) with 0 by lia. reflexivity.
Qed.

Lemma f64_to_i64_trunc (x : f64) :
  f64_finite x -> (Rabs (f64_val x) < bpow 62)%R ->
  (Rabs (IZR (f64_to_i64 x) - f64_val x) < 1)%R.
Proof.
  intros Hx Hb. destruct x as [s| | |s m e]; try contradiction.
  - cbn. rewrite Rminus_0_r, Rabs_R0. lra.
  - set (R0 := (IZR (Zpos m) * bpow e)%R).
    set (v0 := if 0 <=? e then Z.shiftl (Zpos m) e else Z.shiftr (Zpos m) (- e)).
    assert (Hm : (0 < IZR (Zpos m))%R) by (apply IZR_lt; lia).
    assert (Hv : 0 <= v0 /\ (IZR v0 <= R0 < IZR v0 + 1)%R).
    { unfold v0, R0. destruct (Z.leb_spec 0 e) as [He|He].
      - rewrite Z.shiftl_mul_pow2 by exact He. rewrite mult_IZR, bpow_IZR by exact He.
        split; [pose proof (Z.pow_pos_nonneg 2 e); lia | lra].
      - rewrite Z.shiftr_div_pow2 by lia.
        pose proof (Z.pow_pos_nonneg 2 (- e) ltac:(lia) ltac:(lia)) as Hp.
        pose proof (Z.mul_div_le (Zpos m) (2 ^ (- e)) Hp) as H1.
        pose proof (Z.mul_succ_div_gt (Zpos m) (2 ^ (- e)) Hp) as H2.
        split; [apply Z.div_pos; lia|].
        set (k := - e) in *. replace e with (- k) by lia.
        pose proof (bpow_opp_IZR k ltac:(lia)) as Hk.
        set (q := Zpos m / 2 ^ k) in *.
        apply IZR_le in H1. apply IZR_lt in H2.
        rewrite mult_IZR in H1, H2. rewrite succ_IZR in H2.
        pose proof (bpow_pos (- k)). split; nra. }
    destruct Hv as [Hv0 [Hv1 Hv2]].
    assert (HR0 : Rabs (f64_val (S754_finite s m e)) = R0).
    { unfold R0. pose proof (bpow_pos e). destruct s; cbn [f64_val].
      - rewrite Ropp_mult_distr_l_reverse, Rabs_Ropp. apply Rabs_pos_eq. nra.
      - apply Rabs_pos_eq. nra. }
    assert (Hv62 : v0 < 2 ^ 62).
    { apply lt_IZR. rewrite bpow_IZR by lia. lra. }
    unfold f64_to_i64. fold v0.
    replace (Z.max I64_MIN (Z.min I64_MAX (if s then - v0 else v0)))
      with (if s then - v0 else v0) by (unfold I64_MIN, I64_MAX; destruct s; lia).
    unfold R0 in *. destruct s; cbn [f64_val] in HR0 |- *.
    + rewrite opp_IZR. replace (- IZR v0 - - IZR (Zpos m) * bpow e)%R
        with (- (IZR v0 - IZR (Zpos m) * bpow e))%R by ring.
      rewrite Rabs_Ropp. apply Rabs_def1; lra.
    + apply Rabs_def1; lra.
Qed.

(** ** Error of the triangle scores *)

Lemma U_facts : (0 < bpow (-1074) <= bpow (-52))%R /\ (1000000000000000 * bpow (-52) <= 1)%R.
Proof.
  split; [split; [apply bpow_pos | apply bpow_le; lia]|].
  pose proof (bpow_opp_IZR 52 ltac:(lia)) as H. cbn [Z.opp] in H. pose proof (bpow_pos (-52)).
  replace (IZR (2 ^ 52)) with 4503599627370496%R in H by reflexivity. lra.
Qed.

Lemma bpow_1000_gt (z : Z) : z <= 2 ^ 64 -> (IZR z < bpow 1000)%R.
Proof.
  intros Hz. rewrite <- bpow_IZR by lia. apply IZR_lt.
  assert (2 ^ 64 < 2 ^ 1000) by (apply Z.pow_lt_mono_r; lia). lia.
Qed.

Section Scores.
Variables (T : Z).
Hypothesis HT : 1 <= T <= 2 ^ 64.
Let U := bpow (-52).

Let c := f64_of_Z T.

Lemma of_Z_close (t : Z) : 0 <= t <= T ->
  f64_finite (f64_of_Z t) /\ (Rabs (f64_val (f64_of_Z t) - IZR t) <= 6 * IZR T * U)%R.
Proof.
  intros Ht. destruct U_facts as [[Hη HηU] HU].
  assert (HtT : (0 <= IZR t <= IZR T)%R) by (split; apply IZR_le; lia).
  assert (HT1 : (1 <= IZR T)%R) by (apply IZR_le; lia).
  destruct (f64_of_Z_error t) as [Hf He].
  { rewrite Rabs_pos_eq by lra. apply bpow_1000_gt. lia. }
  split; [exact Hf|]. rewrite (Rabs_pos_eq (IZR t)) in He by lra. fold U in He, HηU |- *.
  assert (0 < U)%R by lra.
  assert (IZR t * U <= IZR T * U)%R by (apply Rmult_le_compat_r; lra).
  assert (U <= IZR T * U)%R by nra.
  lra.
Qed.

Lemma c_pos : (IZR T / 2 <= f64_val c)%R /\
  exists m e, c = S754_finite false m e.
Proof.
  destruct (of_Z_close T ltac:(lia)) as [Hf He]. fold c in Hf, He.
  destruct U_facts as [[Hη HηU] HU]. fold U in HηU, HU |- *.
  assert (HT1 : (1 <= IZR T)%R) by (apply IZR_le; lia).
  apply Rabs_le_split in He. destruct He as [He1 _].
  assert (Hc : (IZR T / 2 <= f64_val c)%R) by nra.
  split; [exact Hc|].
  destruct c as [s| | |s m e]; try contradiction.
  - cbn in Hc. lra.
  - destruct s; [|eauto]. cbn [f64_val] in Hc.
    pose proof (bpow_pos e). assert (0 < IZR (Zpos m))%R by (apply IZR_lt; lia). nra.
Qed.

Lemma pct_close (t : Z) : 0 <= t <= T ->
  f64_finite (f64_div (f64_of_Z t) c) /\
  (Rabs (f64_val (f64_div (f64_of_Z t) c) - IZR t / IZR T) <= 40 * U)%R.
Proof.
  intros Ht. destruct U_facts as [[Hη HηU] HU]. fold U in HηU, HU |- *.
  assert (HT1 : (1 <= IZR T)%R) by (apply IZR_le; lia).
  assert (HtT : (0 <= IZR t <= IZR T)%R) by (split; apply IZR_le; lia).
  destruct (of_Z_close t Ht) as [Haf Ha].
  destruct (of_Z_close T ltac:(lia)) as [_ Hcv]. fold c in Hcv.
  destruct c_pos as [Hc [m [e Hce]]].
  set (a := f64_val (f64_of_Z t)) in *.
  set (cv := f64_val c) in *.
  set (rho := (IZR t / IZR T)%R).
  assert (Hrho : (0 <= rho <= 1)%R).
  { unfold rho. split; [apply Rdiv_nonneg; lra|].
    apply (Rmult_le_reg_r (IZR T)); [lra|]. unfold Rdiv. rewrite Rmult_assoc, Rinv_l; lra. }
  assert (Ht_rho : IZR t = (rho * IZR T)%R) by (unfold rho; field; lra).
  (* exact quotient of the rounded operands *)
  assert (Hq : (Rabs (a / cv - rho) <= 24 * U)%R).
  { replace (a / cv - rho)%R with ((a - IZR t - rho * (cv - IZR T)) / cv)%R
      by (rewrite Ht_rho; field; lra).
    apply Rabs_div_le; [lra|].
    eapply Rle_trans; [apply Rabs_triang|]. rewrite Rabs_Ropp, Rabs_mult, (Rabs_pos_eq rho) by lra.
    assert (rho * Rabs (cv - IZR T) <= 6 * IZR T * U)%R.
    { pose proof (Rabs_pos (cv - IZR T)). nra. }
    nra. }
  assert (Hqb : (Rabs (a / cv) <= 4)%R).
  { apply Rabs_le. apply Rabs_le_split in Hq. nra. }
  unfold cv in Hq, Hqb. rewrite Hce in Hq, Hqb |- *.
  destruct (f64_div_error (f64_of_Z t) m e Haf) as [Hf He].
  { fold a. eapply Rle_lt_trans; [exact Hqb|]. apply bpow_1000_gt. lia. }
  split; [exact Hf|]. fold a in He |- *.
  replace (f64_val (f64_div (f64_of_Z t) (S754_finite false m e)) - rho)%R
    with ((f64_val (f64_div (f64_of_Z t) (S754_finite false m e)) - a / f64_val (S754_finite false m e))
          + (a / f64_val (S754_finite false m e) - rho))%R by ring.
  eapply Rle_trans; [apply Rabs_triang|]. fold U in He. nra.
Qed.

Lemma diff_close (t p : Z) : 0 <= t <= T -> 0 <= p <= T ->
  f64_finite (f64_sub (f64_div (f64_of_Z t) c) (f64_div (f64_of_Z p) c)) /\
  (Rabs (f64_val (f64_sub (f64_div (f64_of_Z t) c) (f64_div (f64_of_Z p) c))
         - (IZR t - IZR p) / IZR T) <= 100 * U)%R.
Proof.
  intros Ht Hp. destruct U_facts as [[Hη HηU] HU]. fold U in HηU, HU |- *.
  assert (HT1 : (1 <= IZR T)%R) by (apply IZR_le; lia).
  destruct (pct_close t Ht) as [Hft Het]. destruct (pct_close p Hp) as [Hfp Hep].
  set (pt := f64_val (f64_div (f64_of_Z t) c)) in *.
  set (pp := f64_val (f64_div (f64_of_Z p) c)) in *.
  assert (Hrt : (0 <= IZR t / IZR T <= 1)%R).
  { split; [apply Rdiv_nonneg; [apply IZR_le; lia|lra]|].
    apply (Rmult_le_reg_r (IZR T)); [lra|]. unfold Rdiv. rewrite Rmult_assoc, Rinv_l by lra.
    rewrite Rmult_1_r, Rmult_1_l. apply IZR_le. lia. }
  assert (Hrp : (0 <= IZR p / IZR T <= 1)%R).
  { split; [apply Rdiv_nonneg; [apply IZR_le; lia|lra]|].
    apply (Rmult_le_reg_r (IZR T)); [lra|]. unfold Rdiv. rewrite Rmult_assoc, Rinv_l by lra.
    rewrite Rmult_1_r, Rmult_1_l. apply IZR_le. lia. }
  apply Rabs_le_split in Het. apply Rabs_le_split in Hep.
  assert (HD : (Rabs (pt - pp) <= 4)%R) by (apply Rabs_le; lra).
  destruct (f64_sub_error _ _ Hft Hfp) as [Hf He].
  { fold pt pp. eapply Rle_lt_trans; [exact HD|]. apply bpow_1000_gt. lia. }
  split; [exact Hf|]. fold pt pp in He |- *. fold U in He.
  replace ((IZR t - IZR p) / IZR T)%R with (IZR t / IZR T - IZR p / IZR T)%R by (field; lra).
  apply Rabs_le_split in He. pose proof (Rabs_pos (pt - pp)). apply Rabs_le. nra.
Qed.

Lemma scale_eq : f64_of_Z 10000 = S754_finite false 5497558138880000 (-39).
Proof. vm_compute. reflexivity. Qed.

Lemma scale_val : f64_val (S754_finite false 5497558138880000 (-39)) = 10000%R.
Proof.
  cbn [f64_val]. pose proof (bpow_opp_IZR 39 ltac:(lia)) as H. cbn [Z.opp] in H.
  replace (IZR (2 ^ 39)) with 549755813888%R in H by reflexivity.
  replace (IZR (Zpos 5497558138880000)) with (10000 * 549755813888)%R by (rewrite <- mult_IZR; reflexivity).
  lra.
Qed.

Lemma score_close (t p : Z) : 0 <= t <= T -> 0 <= p <= T ->
  let z := f64_mul (f64_sub (f64_div (f64_of_Z t) c) (f64_div (f64_of_Z p) c)) (f64_of_Z 10000) in
  f64_finite z /\ (Rabs (f64_val z) < bpow 62)%R /\
  (Rabs (f64_val z - 10000 * ((IZR t - IZR p) / IZR T)) <= / 1000000)%R.
Proof.
  intros Ht Hp z. destruct U_facts as [[Hη HηU] HU]. fold U in HηU, HU |- *.
  destruct (diff_close t p Ht Hp) as [Hfr Her].
  set (r := f64_sub (f64_div (f64_of_Z t) c) (f64_div (f64_of_Z p) c)) in *.
  assert (HT1 : (1 <= IZR T)%R) by (apply IZR_le; lia).
  assert (Hex : (Rabs ((IZR t - IZR p) / IZR T) <= 1)%R).
  { apply Rabs_div_le; [lra|]. apply Rabs_le.
    assert (0 <= IZR t <= IZR T)%R by (split; apply IZR_le; lia).
    assert (0 <= IZR p <= IZR T)%R by (split; apply IZR_le; lia). lra. }
  assert (Hr : (Rabs (f64_val r) <= 2)%R).
  { apply Rabs_le_split in Her. apply Rabs_le_split in Hex. apply Rabs_le. lra. }
  unfold z. rewrite scale_eq in *.
  destruct (f64_mul_error r false 5497558138880000 (-39) Hfr eq_refl) as [Hf He].
  { rewrite scale_val, Rabs_mult, (Rabs_pos_eq 10000) by lra.
    eapply Rle_lt_trans with (r2 := 20000%R); [lra|].
    apply bpow_1000_gt. lia. }
  rewrite scale_val in He.
  rewrite Rabs_mult, (Rabs_pos_eq 10000) in He by lra. fold U in He.
  assert (HrU : (Rabs (f64_val r) * 10000 * U <= 20000 * U)%R).
  { assert (0 < U)%R by lra. pose proof (Rabs_pos (f64_val r)). nra. }
  apply Rabs_le_split in He. apply Rabs_le_split in Her. apply Rabs_le_split in Hr.
  apply Rabs_le_split in Hex.
  assert (Hsz : (Rabs (f64_val (f64_mul r (S754_finite false 5497558138880000 (-39)))) <= 20001)%R).
  { apply Rabs_le. split; lra. }
  split; [exact Hf|split].
  - eapply Rle_lt_trans; [exact Hsz|]. rewrite <- bpow_IZR by lia. apply IZR_lt. reflexivity.
  - apply Rabs_le. split; lra.
Qed.
End Scores.




(** ** C2: the triangle scores of [resolve_epoch] *)

(** [pct = tvl as f64 / total_tvl as f64] of [resolve_epoch]. *)
Definition pct (T t : Z) : f64 := f64_div (f64_of_Z t) (f64_of_Z T).

(** [((pct_target - pct_predator) * 10000.0) as i64] of [resolve_epoch]. *)
Definition triangle_score (T t p : Z) : Z :=
  f64_to_i64 (f64_mul (f64_sub (pct T t) (pct T p)) (f64_of_Z 10000)).

(** Modelled from the spec: the score as the exact share difference
    [(t - p) / T] scaled by 10000 and truncated toward zero. *)
Definition spec_score (T t p : Z) : Z := Z.quot ((t - p) * 10000) T.

(** Factions with TVL 1, 2 and 7 out of 10, before the epoch is resolved. *)
Definition tri_world : World :=
  mkWorld (mkGameState 7 1 1000 260200 10
             (mkFactions (mkFactionState 0 "Vanguard" 1 0)
                         (mkFactionState 1 "Mage" 2 0)
                         (mkFactionState 2 "Assassin" 7 0)) Active)
    [] (fun _ => 0).

Lemma triangle_score_near (T t p : Z) :
  1 <= T <= 2 ^ 64 -> 0 <= t <= T -> 0 <= p <= T ->
  (Rabs (IZR (triangle_score T t p) - 10000 * ((IZR t - IZR p) / IZR T)) < 1 + / 1000000)%R.
Proof.
  intros HT Ht Hp. destruct (score_close T HT t p Ht Hp) as [Hf [Hb He]].
  pose proof (f64_to_i64_trunc _ Hf Hb) as Htr. unfold triangle_score, pct.
  apply Rabs_le_split in He. apply Rabs_def2 in Htr. apply Rabs_def1; lra.
Qed.

Lemma triangle_scores_sum (T t0 t1 t2 : Z) :
  1 <= T <= 2 ^ 64 -> 0 <= t0 <= T -> 0 <= t1 <= T -> 0 <= t2 <= T ->
  -3 <= triangle_score T t2 t1 + triangle_score T t0 t2 + triangle_score T t1 t0 <= 3.
Proof.
  intros HT H0 H1 H2.
  pose proof (triangle_score_near T t2 t1 HT H2 H1) as S0.
  pose proof (triangle_score_near T t0 t2 HT H0 H2) as S1.
  pose proof (triangle_score_near T t1 t0 HT H1 H0) as S2.
  apply Rabs_def2 in S0. apply Rabs_def2 in S1. apply Rabs_def2 in S2.
  assert (HT1 : (1 <= IZR T)%R) by (apply IZR_le; lia).
  assert (Hz : (10000 * ((IZR t2 - IZR t1) / IZR T) + 10000 * ((IZR t0 - IZR t2) / IZR T)
                + 10000 * ((IZR t1 - IZR t0) / IZR T) = 0)%R) by (field; lra).
  assert (Hsum : (-4 < IZR (triangle_score T t2 t1 + triangle_score T t0 t2
                           + triangle_score T t1 t0) < 4)%R).
  { rewrite !plus_IZR. split; lra. }
  destruct Hsum as [Ha Hb]. apply lt_IZR in Ha. apply lt_IZR in Hb. lia.
Qed.

Lemma total_tvl_f64_nonzero (T : Z) :
  1 <= T <= 2 ^ 64 -> f64_eqb (f64_of_Z T) (f64_of_Z 0) = false.
Proof. intros HT. destruct (c_pos T HT) as [_ [m [e ->]]]. reflexivity. Qed.

(** Claim C2: when the admin resolves an epoch with a total TVL [T] in
    1..u64::MAX and faction TVLs in 0..T, the call succeeds and stores
    for each faction the binary64 score
    [((tvl_target/T - tvl_predator/T) * 10000) as i64] of the triangle
    0 -> (2, 1), 1 -> (0, 2), 2 -> (1, 0); each stored score lies within
    1 + 10^-6 of the exact [10000 * (tvl_target - tvl_predator) / T], and
    the three stored scores sum to an integer in [-3, 3]. *)
Theorem resolve_epoch_scores (signer : Z) (w : World)
  (Hadmin : signer = admin (game_state w))
  (HT : 1 <= total_tvl (game_state w) <= U64_MAX)
  (H0 : 0 <= tvl (faction0 (factions (game_state w))) <= total_tvl (game_state w))
  (H1 : 0 <= tvl (faction1 (factions (game_state w))) <= total_tvl (game_state w))
  (H2 : 0 <= tvl (faction2 (factions (game_state w))) <= total_tvl (game_state w)) :
  let T := total_tvl (game_state w) in
  let t0 := tvl (faction0 (factions (game_state w))) in
  let t1 := tvl (faction1 (factions (game_state w))) in
  let t2 := tvl (faction2 (factions (game_state w))) in
  exists w', commit (resolve_epoch signer) w = inr w' /\
    let fs := factions (game_state w') in
    score (faction0 fs) = triangle_score T t2 t1 /\
    score (faction1 fs) = triangle_score T t0 t2 /\
    score (faction2 fs) = triangle_score T t1 t0 /\
    (Rabs (IZR (score (faction0 fs)) - 10000 * ((IZR t2 - IZR t1) / IZR T)) < 1 + / 1000000)%R /\
    (Rabs (IZR (score (faction1 fs)) - 10000 * ((IZR t0 - IZR t2) / IZR T)) < 1 + / 1000000)%R /\
    (Rabs (IZR (score (faction2 fs)) - 10000 * ((IZR t1 - IZR t0) / IZR T)) < 1 + / 1000000)%R /\
    -3 <= score (faction0 fs) + score (faction1 fs) + score (faction2 fs) <= 3.
Proof.
  cbv zeta.
  assert (HT' : 1 <= total_tvl (game_state w) <= 2 ^ 64) by (unfold U64_MAX in HT; lia).
  pose proof (total_tvl_f64_nonzero _ HT') as Hnz.
  unfold resolve_epoch.
  cbv [commit bind ret throw get_game_state put_game_state require_admin].
  rewrite <- Hadmin, Z.eqb_refl. cbn -[f64_of_Z f64_div f64_sub f64_mul f64_eqb f64_to_i64]. rewrite Hnz.
  eexists; split; [reflexivity|].
  cbn -[f64_of_Z f64_div f64_sub f64_mul f64_eqb f64_to_i64].
  fold (pct (total_tvl (game_state w)) (tvl (faction0 (factions (game_state w))))).
  fold (pct (total_tvl (game_state w)) (tvl (faction1 (factions (game_state w))))).
  fold (pct (total_tvl (game_state w)) (tvl (faction2 (factions (game_state w))))).
  fold (triangle_score (total_tvl (game_state w)) (tvl (faction2 (factions (game_state w))))
          (tvl (faction1 (factions (game_state w))))).
  fold (triangle_score (total_tvl (game_state w)) (tvl (faction0 (factions (game_state w))))
          (tvl (faction2 (factions (game_state w))))).
  fold (triangle_score (total_tvl (game_state w)) (tvl (faction1 (factions (game_state w))))
          (tvl (faction0 (factions (game_state w))))).
  split; [reflexivity|]. split; [reflexivity|]. split; [reflexivity|].
  split; [apply triangle_score_near; assumption|].
  split; [apply triangle_score_near; assumption|].
  split; [apply triangle_score_near; assumption|].
  apply triangle_scores_sum; assumption.
Qed.

Lemma resolve_epoch_scores_witness :
  exists w', commit (resolve_epoch 7) tri_world = inr w' /\
    let fs := factions (game_state w') in
    score (faction0 fs) = triangle_score 10 7 2 /\
    score (faction1 fs) = triangle_score 10 1 7 /\
    score (faction2 fs) = triangle_score 10 2 1 /\
    (Rabs (IZR (score (faction0 fs)) - 10000 * ((IZR 7 - IZR 2) / IZR 10)) < 1 + / 1000000)%R /\
    (Rabs (IZR (score (faction1 fs)) - 10000 * ((IZR 1 - IZR 7) / IZR 10)) < 1 + / 1000000)%R /\
    (Rabs (IZR (score (faction2 fs)) - 10000 * ((IZR 2 - IZR 1) / IZR 10)) < 1 + / 1000000)%R /\
    -3 <= score (faction0 fs) + score (faction1 fs) + score (faction2 fs) <= 3.
Proof.
  exact (resolve_epoch_scores 7 tri_world eq_refl
           ltac:(unfold U64_MAX; cbn; lia) ltac:(cbn; lia) ltac:(cbn; lia) ltac:(cbn; lia)).
Defined.

Lemma raw_differences_tri :
  f64_sub (pct 10 7) (pct 10 2) = S754_finite false 9007199254740991 (-54) /\
  f64_sub (pct 10 1) (pct 10 7) = S754_finite true 5404319552844595 (-53) /\
  f64_sub (pct 10 2) (pct 10 1) = S754_finite false 7205759403792794 (-56).
Proof. vm_compute. repeat split. Qed.

(** On [tri_world] the stored score of faction 0 is 4999 where the exact
    truncation is 5000, and the three raw share differences computed by
    [resolve_epoch] sum to -2^-55, not to zero. *)
Lemma resolve_epoch_scores_counterexample :
  exists w', commit (resolve_epoch 7) tri_world = inr w' /\
    score (faction0 (factions (game_state w'))) = 4999 /\
    spec_score 10 7 2 = 5000 /\
    (f64_val (f64_sub (pct 10 7) (pct 10 2)) + f64_val (f64_sub (pct 10 1) (pct 10 7))
     + f64_val (f64_sub (pct 10 2) (pct 10 1)) <> 0)%R.
Proof.
  eexists; split; [vm_compute; reflexivity|].
  split; [vm_compute; reflexivity|]. split; [vm_compute; reflexivity|].
  destruct raw_differences_tri as [-> [-> ->]]. cbn [f64_val].
  assert (E4 : bpow (-54) = (bpow (-56) * 4)%R).
  { replace (-54) with (-56 + 2) by lia. rewrite bpow_add, <- (bpow_IZR 2) by lia. reflexivity. }
  assert (E8 : bpow (-53) = (bpow (-56) * 8)%R).
  { replace (-53) with (-56 + 3) by lia. rewrite bpow_add, <- (bpow_IZR 3) by lia. reflexivity. }
  rewrite E4, E8. pose proof (bpow_pos (-56)). nra.
Qed.

(** * Further properties of the program *)





(** [update_automation] fails with [AccountNotFound] for a missing position; otherwise it only replaces that position's automation settings, without validating the rules. *)
Theorem update_automation_spec (w : World) (i : nat) (s1 s2 : AutomationRule)
  (fb : FallbackAction) :
  (user_at w i = None -> commit (update_automation i s1 s2 fb) w = inl AccountNotFound) /\
  (forall u, user_at w i = Some u ->
     exists w', commit (update_automation i s1 s2 fb) w = inr w' /\
       user_positions w' =
         list_set (user_positions w) i
           (set_automation_settings u (mkAutomationSettings s1 s2 fb)) /\
       game_state w' = game_state w /\
       token_balance w' = token_balance w).
Proof.
  unfold commit, update_automation, user_at. cbv [bind get_user put_user].
  split.
  - intros H. now rewrite H.
  - intros u H. rewrite H. eexists. split; [reflexivity|]. repeat split.
Qed.

Lemma update_automation_spec_witness :
  let u := sample_user 1 default_inventory default_rule default_rule AutoCompound in
  let w := sample_world u 0 in
  user_at w 1 = Some u /\
  exists w', commit (update_automation 1 (mkAutomationRule 9 0) default_rule SendToWallet) w
             = inr w' /\
    user_positions w' =
      list_set (user_positions w) 1
        (set_automation_settings u
           (mkAutomationSettings (mkAutomationRule 9 0) default_rule SendToWallet)).
Proof.
  intros u w. split; [reflexivity|].
  destruct (proj2 (update_automation_spec w 1 (mkAutomationRule 9 0) default_rule SendToWallet)
              u eq_refl) as (w' & H1 & H2 & _).
  exists w'. split; assumption.
Defined.

(** [resolve_epoch] and [start_new_epoch] signed by anyone but the admin fail with [ConstraintAddress] and leave the world unchanged. *)
Theorem admin_only (w : World) (signer now : Z) (Hs : signer <> admin (game_state w)) :
  commit (resolve_epoch signer) w = inl ConstraintAddress /\
  after (resolve_epoch signer) w = w /\
  commit (start_new_epoch signer now) w = inl ConstraintAddress /\
  after (start_new_epoch signer now) w = w.
Proof.
  unfold after, commit, resolve_epoch, start_new_epoch.
  cbv [bind require_admin get_game_state ret throw].
  replace (signer =? admin (game_state w)) with false by (symmetry; now apply Z.eqb_neq).
  repeat split.
Qed.

Lemma admin_only_witness :
  let w := sample_world (sample_user 1 default_inventory default_rule default_rule
                           AutoCompound) 0 in
  commit (resolve_epoch 8) w = inl ConstraintAddress /\
  commit (start_new_epoch 8 5000) w = inl ConstraintAddress.
Proof.
  intros w.
  destruct (admin_only w 8 5000 ltac:(cbn; lia)) as (H1 & _ & H2 & _).
  split; assumption.
Defined.

(** [inject_yield] moves [amount] from the provider account to the vault, failing with [TransferFailed] when the provider lacks funds or the vault would overflow; nothing else changes. *)
Theorem inject_yield_spec (w : World) (amount : Z) :
  (token_balance w ProviderUsdc < amount ->
     commit (inject_yield amount) w = inl TransferFailed) /\
  (amount <= token_balance w ProviderUsdc ->
   U64_MAX < token_balance w Vault + amount ->
     commit (inject_yield amount) w = inl TransferFailed) /\
  (amount <= token_balance w ProviderUsdc ->
   token_balance w Vault + amount <= U64_MAX ->
     exists w', commit (inject_yield amount) w = inr w' /\
       token_balance w' ProviderUsdc = token_balance w ProviderUsdc - amount /\
       token_balance w' Vault = token_balance w Vault + amount /\
       (forall a, a <> ProviderUsdc -> a <> Vault -> token_balance w' a = token_balance w a) /\
       game_state w' = game_state w /\
       user_positions w' = user_positions w).
Proof.
  unfold commit, inject_yield, token_transfer. cbn [token_account_eqb].
  split; [|split].
  - intros H. now replace (token_balance w ProviderUsdc <? amount) with true
      by (symmetry; apply Z.ltb_lt; lia).
  - intros H1 H2. replace (token_balance w ProviderUsdc <? amount) with false
      by (symmetry; apply Z.ltb_ge; lia).
    now replace (U64_MAX <? token_balance w Vault + amount) with true
      by (symmetry; apply Z.ltb_lt; lia).
  - intros H1 H2. replace (token_balance w ProviderUsdc <? amount) with false
      by (symmetry; apply Z.ltb_ge; lia).
    replace (U64_MAX <? token_balance w Vault + amount) with false
      by (symmetry; apply Z.ltb_ge; lia).
    eexists. split; [reflexivity|]. cbn. repeat split.
    intros a H3 H4. destruct a; cbn; congruence.
Qed.

Lemma inject_yield_spec_witness :
  let w := mkWorld (mkGameState 7 1 1000 260200 0 initial_factions Active) []
             (fun a => match a with ProviderUsdc => 500 | _ => 0 end) in
  exists w', commit (inject_yield 200) w = inr w' /\
    token_balance w' ProviderUsdc = 300 /\ token_balance w' Vault = 200.
Proof.
  intros w.
  destruct (proj2 (proj2 (inject_yield_spec w 200)) ltac:(cbn; lia)
              ltac:(cbn; unfold U64_MAX; lia)) as (w' & H1 & H2 & H3 & _).
  exists w'. split; [exact H1|]. split; [exact H2|exact H3].
Defined.

(** The fields of a faction that only [deposit], [withdraw] and the
    compounding settlement touch. *)
Definition same_faction_ids (f f' : FactionState) : Prop :=
  fid f' = fid f /\ name f' = name f /\ tvl f' = tvl f.

(** [resolve_epoch] by the admin always succeeds, sets the status to [Settlement] and touches only the faction scores; with a total TVL of 0 it leaves the scores as well. *)
Theorem resolve_epoch_frame (w : World) (signer : Z)
  (Hadmin : signer = admin (game_state w)) :
  exists w', commit (resolve_epoch signer) w = inr w' /\
    status (game_state w') = Settlement /\
    admin (game_state w') = admin (game_state w) /\
    epoch_number (game_state w') = epoch_number (game_state w) /\
    epoch_start_ts (game_state w') = epoch_start_ts (game_state w) /\
    epoch_end_ts (game_state w') = epoch_end_ts (game_state w) /\
    total_tvl (game_state w') = total_tvl (game_state w) /\
    same_faction_ids (faction0 (factions (game_state w))) (faction0 (factions (game_state w'))) /\
    same_faction_ids (faction1 (factions (game_state w))) (faction1 (factions (game_state w'))) /\
    same_faction_ids (faction2 (factions (game_state w))) (faction2 (factions (game_state w'))) /\
    (total_tvl (game_state w) = 0 -> factions (game_state w') = factions (game_state w)) /\
    user_positions w' = user_positions w /\
    token_balance w' = token_balance w.
Proof.
  unfold commit, resolve_epoch.
  cbv [bind ret throw get_game_state put_game_state require_admin].
  rewrite <- Hadmin, Z.eqb_refl. cbn -[f64_of_Z f64_div f64_sub f64_mul f64_eqb f64_to_i64].
  destruct (f64_eqb _ _) eqn:E.
  - eexists. split; [reflexivity|]. cbn. unfold same_faction_ids. repeat split; auto.
  - eexists. split; [reflexivity|]. cbn. unfold same_faction_ids. repeat split; auto.
    intros Ht. rewrite Ht in E. discriminate E.
Qed.

Lemma resolve_epoch_frame_witness :
  let w := sample_world (sample_user 1 default_inventory default_rule default_rule
                           AutoCompound) 0 in
  exists w', commit (resolve_epoch 7) w = inr w' /\ status (game_state w') = Settlement.
Proof.
  intros w.
  destruct (resolve_epoch_frame w 7 eq_refl) as (w' & H1 & H2 & _).
  exists w'. split; assumption.
Defined.

(** [start_new_epoch] by the admin, when the epoch counter and [now + EPOCH_DURATION] do not overflow, succeeds and sets the epoch window to [now, now + EPOCH_DURATION], keeping the admin, the faction ids, names and TVLs and the balances. *)
Theorem start_new_epoch_spec (w : World) (signer now : Z)
  (Hadmin : signer = admin (game_state w))
  (He : epoch_number (game_state w) < U64_MAX)
  (Hnow : I64_MIN <= now + EPOCH_DURATION <= I64_MAX) :
  exists w', commit (start_new_epoch signer now) w = inr w' /\
    epoch_start_ts (game_state w') = now /\
    epoch_end_ts (game_state w') = now + EPOCH_DURATION /\
    admin (game_state w') = admin (game_state w) /\
    same_faction_ids (faction0 (factions (game_state w))) (faction0 (factions (game_state w'))) /\
    same_faction_ids (faction1 (factions (game_state w))) (faction1 (factions (game_state w'))) /\
    same_faction_ids (faction2 (factions (game_state w))) (faction2 (factions (game_state w'))) /\
    token_balance w' = token_balance w.
Proof.
  unfold commit, start_new_epoch.
  cbv [bind ret throw get_game_state put_game_state require_admin add_assign_u64 add_i64].
  rewrite <- Hadmin, Z.eqb_refl.
  replace (epoch_number (game_state w) + 1 <=? U64_MAX) with true
    by (symmetry; apply Z.leb_le; lia).
  cbn [set_game_state game_state].
  replace ((I64_MIN <=? now + EPOCH_DURATION) && (now + EPOCH_DURATION <=? I64_MAX)) with true
    by (symmetry; apply andb_true_iff; split; apply Z.leb_le; lia).
  eexists. split; [reflexivity|]. cbn. unfold same_faction_ids. repeat split.
  symmetry; exact Hadmin.
Qed.

Lemma start_new_epoch_spec_witness :
  let w := sample_world (sample_user 1 default_inventory default_rule default_rule
                           AutoCompound) 0 in
  exists w', commit (start_new_epoch 7 5000) w = inr w' /\
    epoch_end_ts (game_state w') = 264200.
Proof.
  intros w.
  destruct (start_new_epoch_spec w 7 5000 eq_refl ltac:(cbn; unfold U64_MAX; lia)
              ltac:(unfold I64_MIN, I64_MAX, EPOCH_DURATION; lia)) as (w' & H1 & _ & H2 & _).
  exists w'. split; [exact H1|]. rewrite H2. reflexivity.
Defined.

Ltac zbool :=
  repeat match goal with
         | E : (_ <? _) = true |- _ => apply Z.ltb_lt in E
         | E : (_ <? _) = false |- _ => apply Z.ltb_ge in E
         | E : (_ <=? _) = true |- _ => apply Z.leb_le in E
         | E : (_ <=? _) = false |- _ => apply Z.leb_gt in E
         | E : (_ =? _) = true |- _ => apply Z.eqb_eq in E
         | E : (_ =? _) = false |- _ => apply Z.eqb_neq in E
         end.

Ltac run_tests :=
  repeat (cbn -[U64_MAX faction_get list_set];
          match goal with
          | |- context [if ?c then _ else _] =>
              let E := fresh "E" in destruct c eqn:E; zbool; try lia
          end).

(** The world after a successful [deposit] of [amount] by the [i]-th
    position [u] of faction [f]. *)
Definition deposit_post (w : World) (i : nat) (u : UserPosition) (f : FactionState)
  (amount : Z) : World :=
  let g := game_state w in
  let b := token_balance w in
  mkWorld
    (set_factions (set_total_tvl g (total_tvl g + amount))
       (faction_put (factions g) (faction_id u) (set_tvl f (tvl f + amount))))
    (list_set (user_positions w) i
       (set_last_deposit_epoch (set_deposited_amount u (deposited_amount u + amount))
          (epoch_number g)))
    (fun a => if token_account_eqb a (UserUsdc i) then b (UserUsdc i) - amount
              else if token_account_eqb a Vault then b Vault + amount
              else b a).

(** The world after a successful [withdraw]. *)
Definition withdraw_post (w : World) (i : nat) (u : UserPosition) (f : FactionState)
  (amount : Z) : World :=
  let g := game_state w in
  let b := token_balance w in
  mkWorld
    (set_factions (set_total_tvl g (total_tvl g - amount))
       (faction_put (factions g) (faction_id u) (set_tvl f (tvl f - amount))))
    (list_set (user_positions w) i (set_deposited_amount u (deposited_amount u - amount)))
    (fun a => if token_account_eqb a Vault then b Vault - amount
              else if token_account_eqb a (UserUsdc i) then b (UserUsdc i) + amount
              else b a).

Lemma deposit_run (w : World) (i : nat) (u : UserPosition) (f : FactionState) (amount : Z) :
  user_at w i = Some u ->
  faction_get (factions (game_state w)) (faction_id u) = Some f ->
  amount <= token_balance w (UserUsdc i) ->
  token_balance w Vault + amount <= U64_MAX ->
  deposited_amount u + amount <= U64_MAX ->
  total_tvl (game_state w) + amount <= U64_MAX ->
  tvl f + amount <= U64_MAX ->
  deposit i amount w = (inr tt, deposit_post w i u f amount).
Proof.
  intros Hn Hf H1 H2 H3 H4 H5. unfold deposit, user_at in *.
  cbv [bind ret throw unwrap get_game_state put_game_state faction_at put_faction
       get_user put_user token_transfer checked_add checked_sub set_user_positions
       set_game_state set_token_balance].
  rewrite Hn. run_tests. rewrite Hf. run_tests. reflexivity.
Qed.

Lemma deposit_inv (w w' : World) (i : nat) (amount : Z) :
  commit (deposit i amount) w = inr w' ->
  exists u f, user_at w i = Some u /\
    faction_get (factions (game_state w)) (faction_id u) = Some f /\
    amount <= token_balance w (UserUsdc i) /\
    token_balance w Vault + amount <= U64_MAX /\
    deposited_amount u + amount <= U64_MAX /\
    total_tvl (game_state w) + amount <= U64_MAX /\
    tvl f + amount <= U64_MAX /\
    w' = deposit_post w i u f amount.
Proof.
  intros H. unfold deposit, user_at in *. mexec_all_in H. crush_in H; try discriminate.
  cbn -[U64_MAX faction_get list_set] in *. zbool. injection H as <-.
  exists u, f. repeat split; try assumption.
Qed.

Lemma withdraw_run (w : World) (i : nat) (u : UserPosition) (f : FactionState) (amount : Z) :
  user_at w i = Some u ->
  faction_get (factions (game_state w)) (faction_id u) = Some f ->
  amount <= deposited_amount u ->
  amount <= token_balance w Vault ->
  token_balance w (UserUsdc i) + amount <= U64_MAX ->
  amount <= total_tvl (game_state w) ->
  amount <= tvl f ->
  withdraw i amount w = (inr tt, withdraw_post w i u f amount).
Proof.
  intros Hn Hf H1 H2 H3 H4 H5. unfold withdraw, user_at in *.
  cbv [bind ret throw unwrap get_game_state put_game_state faction_at put_faction
       get_user put_user token_transfer checked_add checked_sub set_user_positions
       set_game_state set_token_balance].
  rewrite Hn. run_tests. rewrite Hf. run_tests. reflexivity.
Qed.

Lemma faction_get_put_same (fs : Factions) (k : Z) (f x : FactionState) :
  faction_get fs k = Some f -> faction_get (faction_put fs k x) k = Some x.
Proof.
  unfold faction_get, faction_put.
  destruct (k =? 0); [reflexivity|]. destruct (k =? 1); [reflexivity|].
  destruct (k =? 2); [reflexivity|discriminate].
Qed.

Lemma faction_put_put (fs : Factions) (k : Z) (x y : FactionState) :
  faction_put (faction_put fs k x) k y = faction_put fs k y.
Proof.
  unfold faction_put.
  destruct (k =? 0); [reflexivity|]. destruct (k =? 1); [reflexivity|].
  destruct (k =? 2); reflexivity.
Qed.

Lemma faction_put_get (fs : Factions) (k : Z) (f : FactionState) :
  faction_get fs k = Some f -> faction_put fs k f = fs.
Proof.
  destruct fs. unfold faction_get, faction_put; cbn.
  destruct (k =? 0); [now injection 1 as <-|]. destruct (k =? 1); [now injection 1 as <-|].
  destruct (k =? 2); [now injection 1 as <-|discriminate].
Qed.

Lemma list_set_list_set {A} (l : list A) (i : nat) (x y : A) :
  list_set (list_set l i x) i y = list_set l i y.
Proof.
  revert i; induction l as [|h t IH]; intros [|i]; cbn; try reflexivity.
  now rewrite IH.
Qed.

Lemma faction_deposits_le_sum (k : Z) (us : list UserPosition) :
  Forall (fun u => 0 <= deposited_amount u) us -> faction_deposits k us <= sum_deposits us.
Proof.
  induction 1 as [|u us Hu Ht IH]; cbn; [lia|]. destruct (faction_id u =? k); lia.
Qed.

(** [deposit] fails with [AccountNotFound] for a missing position and [TransferFailed] when the user lacks funds; in range it moves [amount] from the user to the vault and adds it to the position, the total TVL and the faction TVL, stamping the current epoch. *)
Theorem deposit_spec (w : World) (i : nat) (amount : Z) :
  (user_at w i = None -> commit (deposit i amount) w = inl AccountNotFound) /\
  (forall u, user_at w i = Some u -> token_balance w (UserUsdc i) < amount ->
     commit (deposit i amount) w = inl TransferFailed) /\
  (forall u f, user_at w i = Some u ->
     faction_get (factions (game_state w)) (faction_id u) = Some f ->
     ledger_ok_w w -> Forall (fun u => 0 <= deposited_amount u) (user_positions w) ->
     0 <= amount -> amount <= token_balance w (UserUsdc i) ->
     token_balance w Vault + amount <= U64_MAX ->
     total_tvl (game_state w) + amount <= U64_MAX ->
     exists w', commit (deposit i amount) w = inr w' /\
       user_positions w' =
         list_set (user_positions w) i
           (set_last_deposit_epoch (set_deposited_amount u (deposited_amount u + amount))
              (epoch_number (game_state w))) /\
       game_state w' =
         set_factions (set_total_tvl (game_state w) (total_tvl (game_state w) + amount))
           (faction_put (factions (game_state w)) (faction_id u) (set_tvl f (tvl f + amount))) /\
       token_balance w' (UserUsdc i) = token_balance w (UserUsdc i) - amount /\
       token_balance w' Vault = token_balance w Vault + amount /\
       (forall a, a <> UserUsdc i -> a <> Vault -> token_balance w' a = token_balance w a)).
Proof.
  split; [|split].
  - intros Hn. unfold commit, deposit, user_at in *. cbv [bind get_user]. now rewrite Hn.
  - intros u Hn Hb. unfold commit, deposit, user_at in *. cbv [bind get_user token_transfer].
    rewrite Hn. now replace (token_balance w (UserUsdc i) <? amount) with true
      by (symmetry; apply Z.ltb_lt; lia).
  - intros u f Hn Hf Hl Hnn Ha H1 H2 H3.
    pose proof (faction_get_tvl_ledger _ _ _ _ Hl Hf) as Htf.
    pose proof (faction_deposits_ge (faction_id u) _ _ _ Hnn Hn eq_refl) as Hfd.
    pose proof (faction_deposits_le_sum (faction_id u) _ Hnn) as Hfs.
    destruct Hl as (Ht & _).
    exists (deposit_post w i u f amount). split.
    + unfold commit. rewrite (deposit_run w i u f amount Hn Hf); [reflexivity|lia..].
    + cbn. rewrite Nat.eqb_refl. repeat split.
      intros a Ha1 Ha2. destruct a; cbn; try reflexivity; try congruence.
      destruct (Nat.eqb_spec n i); [subst; congruence|reflexivity].
Qed.

(** A committed deposit followed by a withdrawal of the same amount succeeds and restores the game state and every balance; only the position's deposit epoch stays updated. *)
Theorem deposit_withdraw_roundtrip (w w1 : World) (i : nat) (amount : Z)
  (Hok : world_ok w) (Hd : commit (deposit i amount) w = inr w1) :
  exists u w2, user_at w i = Some u /\
    commit (withdraw i amount) w1 = inr w2 /\
    game_state w2 = game_state w /\
    user_positions w2 =
      list_set (user_positions w) i (set_last_deposit_epoch u (epoch_number (game_state w))) /\
    (forall a, token_balance w2 a = token_balance w a).
Proof.
  destruct (deposit_inv w w1 i amount Hd)
    as (u & f & Hn & Hf & H1 & H2 & H3 & H4 & H5 & ->).
  destruct Hok as (Hg & Hus & Hb).
  pose proof (Forall_nth_error _ _ _ _ Hus Hn) as (_ & Hu & _).
  pose proof (faction_get_ok _ _ _ (proj2 (proj2 (proj2 (proj2 Hg)))) Hf) as (_ & Hfv & _).
  destruct Hg as (_ & _ & _ & HT & _).
  set (x := set_last_deposit_epoch (set_deposited_amount u (deposited_amount u + amount))
              (epoch_number (game_state w))).
  assert (Hn1 : user_at (deposit_post w i u f amount) i = Some x)
    by (exact (nth_error_list_set_same _ _ _ _ Hn)).
  assert (Hf1 : faction_get (factions (game_state (deposit_post w i u f amount))) (faction_id x)
                = Some (set_tvl f (tvl f + amount)))
    by (exact (faction_get_put_same _ _ _ _ Hf)).
  pose proof (Hb (UserUsdc i)) as Hbu. pose proof (Hb Vault) as Hbv.
  unfold u64_ok in *.
  exists u, (withdraw_post (deposit_post w i u f amount) i x (set_tvl f (tvl f + amount)) amount).
  split; [exact Hn|]. split.
  { unfold commit. rewrite (withdraw_run _ _ _ _ _ Hn1 Hf1); cbn; rewrite ?Nat.eqb_refl; [reflexivity|unfold U64_MAX in *; lia..]. }
  split; [|split].
  - cbn. rewrite faction_put_put.
    replace (set_tvl (set_tvl f (tvl f + amount)) (tvl f + amount - amount)) with f
      by (destruct f; unfold set_tvl; cbn; f_equal; lia).
    rewrite (faction_put_get _ _ _ Hf).
    replace (total_tvl (game_state w) + amount - amount) with (total_tvl (game_state w)) by lia.
    now destruct (game_state w).
  - cbn. rewrite list_set_list_set. f_equal. unfold x.
    destruct u; unfold set_deposited_amount, set_last_deposit_epoch; cbn.
    f_equal; lia.
  - intros a. destruct a; cbn; try lia.
    rewrite Nat.eqb_refl. destruct (Nat.eqb_spec n i); [subst; lia|reflexivity].
Qed.

(** A world whose users hold 5 USDC in their wallets. *)
Definition deposit_sample_world : World :=
  set_token_balance withdraw_sample_world
    (fun a => match a with Vault => 10000000 | UserUsdc _ => 5000000 | _ => 0 end).

Lemma deposit_sample_world_ok : world_ok deposit_sample_world.
Proof.
  unfold world_ok, game_ok, factions_ok, faction_ok, user_ok, rule_ok, u64_ok, u8_ok, i64_ok,
    I64_MIN, I64_MAX, U64_MAX; cbn.
  repeat split; try lia. repeat constructor; cbn; lia.
  all: destruct a; lia.
Qed.

Lemma deposit_spec_witness :
  exists w', commit (deposit 0 5000000) deposit_sample_world = inr w' /\
    total_tvl (game_state w') = 15000000 /\ token_balance w' Vault = 15000000.
Proof.
  assert (Hl : ledger_ok_w deposit_sample_world).
  { unfold ledger_ok_w; cbn. repeat split; repeat constructor; cbn; lia. }
  destruct (proj2 (proj2 (deposit_spec deposit_sample_world 0 5000000))
              (mkUserPosition 10 0 10000000 1
                 (mkAutomationSettings default_rule default_rule AutoCompound)
                 default_inventory)
              (faction0 sample_factions) eq_refl eq_refl Hl
              ltac:(repeat constructor; cbn; lia) ltac:(lia) ltac:(cbn; lia)
              ltac:(cbn; unfold U64_MAX; lia) ltac:(cbn; unfold U64_MAX; lia))
    as (w' & H1 & _ & H2 & _ & H3 & _).
  exists w'. split; [exact H1|]. rewrite H2, H3. split; reflexivity.
Defined.

Lemma deposit_withdraw_roundtrip_witness :
  exists w1 u w2, commit (deposit 0 5000000) deposit_sample_world = inr w1 /\
    user_at deposit_sample_world 0 = Some u /\
    commit (withdraw 0 5000000) w1 = inr w2 /\
    game_state w2 = game_state deposit_sample_world.
Proof.
  destruct (deposit_withdraw_roundtrip deposit_sample_world _ 0 5000000
              deposit_sample_world_ok eq_refl) as (u & w2 & H1 & H2 & H3 & _).
  exists (deposit_post deposit_sample_world 0
            (mkUserPosition 10 0 10000000 1
               (mkAutomationSettings default_rule default_rule AutoCompound)
               default_inventory)
            (faction0 sample_factions) 5000000), u, w2.
  split; [reflexivity|]. split; [exact H1|]. split; [exact H2|exact H3].
Defined.

Definition faction_view (f : FactionState) : Z * string * Z := (fid f, name f, score f).

Definition game_frame (g g' : GameState) : Prop :=
  admin g' = admin g /\ epoch_number g' = epoch_number g /\
  epoch_start_ts g' = epoch_start_ts g /\ epoch_end_ts g' = epoch_end_ts g /\
  status g' = status g /\
  faction_view (faction0 (factions g')) = faction_view (faction0 (factions g)) /\
  faction_view (faction1 (factions g')) = faction_view (faction1 (factions g)) /\
  faction_view (faction2 (factions g')) = faction_view (faction2 (factions g)).

Definition settle_frame (i : nat) (w w' : World) : Prop :=
  game_frame (game_state w) (game_state w') /\
  (forall j, j <> i -> user_at w' j = user_at w j) /\
  (forall a, a <> Vault -> a <> ShopTreasury -> a <> UserUsdc i ->
     token_balance w' a = token_balance w a) /\
  token_balance w (UserUsdc i) <= token_balance w' (UserUsdc i).

Lemma settle_frame_refl (i : nat) (w : World) : settle_frame i w w.
Proof. unfold settle_frame, game_frame. repeat split; auto; lia. Qed.

Lemma settle_frame_trans (i : nat) (w1 w2 w3 : World) :
  settle_frame i w1 w2 -> settle_frame i w2 w3 -> settle_frame i w1 w3.
Proof.
  unfold settle_frame, game_frame.
  intros (( ? & ? & ? & ? & ? & ? & ? & ?) & Hu1 & Hb1 & Hi1)
         (( ? & ? & ? & ? & ? & ? & ? & ?) & Hu2 & Hb2 & Hi2).
  repeat split; try congruence; [| |lia].
  - intros j Hj. now rewrite Hu2, Hu1.
  - intros a Ha1 Ha2 Ha3. now rewrite Hb2, Hb1.
Qed.

Lemma nth_error_list_set_other {A} (l : list A) (i j : nat) (x : A) :
  j <> i -> nth_error (list_set l i x) j = nth_error l j.
Proof.
  revert i j; induction l as [|h t IH]; intros [|i] [|j] Hj; cbn; try reflexivity.
  - congruence.
  - apply IH. congruence.
Qed.

Lemma frame_user (i : nat) (w : World) (x : UserPosition) :
  settle_frame i w (set_user_positions w (list_set (user_positions w) i x)).
Proof.
  unfold settle_frame, game_frame, user_at. cbn. repeat split; auto; try lia.
  intros j Hj. now apply nth_error_list_set_other.
Qed.

Lemma game_frame_total (g : GameState) (t : Z) : game_frame g (set_total_tvl g t).
Proof. unfold game_frame. repeat split. Qed.

Lemma game_frame_tvl (g : GameState) (k : Z) (f : FactionState) (v : Z) :
  faction_get (factions g) k = Some f ->
  game_frame g (set_factions g (faction_put (factions g) k (set_tvl f v))).
Proof.
  unfold game_frame, faction_get, faction_put, set_factions; cbn.
  destruct (k =? 0); [injection 1 as <-; repeat split|].
  destruct (k =? 1); [injection 1 as <-; repeat split|].
  destruct (k =? 2); [injection 1 as <-; repeat split|discriminate].
Qed.

Lemma frame_game (i : nat) (w : World) (g : GameState) :
  game_frame (game_state w) g -> settle_frame i w (set_game_state w g).
Proof.
  intros H. unfold settle_frame, user_at. cbn. split; [exact H|]. repeat split; auto; lia.
Qed.

Lemma frame_transfer (i : nat) (w w' : World) (to : TokenAccount) (amount : Z) r :
  to = ShopTreasury \/ (to = UserUsdc i /\ 0 <= amount) ->
  token_transfer Vault to amount w = (r, w') -> settle_frame i w w'.
Proof.
  intros Hto H. unfold token_transfer in H.
  destruct (token_balance w Vault <? amount); [injection H as _ <-; apply settle_frame_refl|].
  destruct (token_account_eqb Vault to); [injection H as _ <-; apply settle_frame_refl|].
  destruct (U64_MAX <? token_balance w to + amount); [injection H as _ <-; apply settle_frame_refl|].
  injection H as _ <-. unfold settle_frame, game_frame, user_at; cbn.
  repeat split; auto.
  - intros a H1 H2 H3. destruct Hto as [->|[-> _]]; destruct a; cbn; try congruence.
    destruct (Nat.eqb_spec n i); congruence.
  - destruct Hto as [->|[-> Ha]]; cbn; [lia|]. rewrite Nat.eqb_refl. lia.
Qed.

(** [m] run from any world keeps the settlement frame of user [i]. *)
Definition keeps {A} (i : nat) (m : M A) : Prop := forall w, settle_frame i w (snd (m w)).

Lemma keeps_bind {A B} (i : nat) (m : M A) (k : A -> M B) :
  keeps i m -> (forall a, keeps i (k a)) -> keeps i (bind m k).
Proof.
  intros Hm Hk w. unfold bind. specialize (Hm w).
  destruct (m w) as [[e|a] w1]; cbn in *; [exact Hm|].
  exact (settle_frame_trans _ _ _ _ Hm (Hk a w1)).
Qed.

Lemma keeps_ret {A} (i : nat) (a : A) : keeps i (ret a).
Proof. intros w. apply settle_frame_refl. Qed.

Lemma keeps_throw {A} (i : nat) (e : Error) : keeps (A := A) i (throw e).
Proof. intros w. apply settle_frame_refl. Qed.

Lemma keeps_unwrap {A} (i : nat) (o : option A) : keeps i (unwrap o).
Proof. intros w. destruct o; apply settle_frame_refl. Qed.

Lemma keeps_get_user (i j : nat) : keeps i (get_user j).
Proof. intros w. unfold get_user. destruct (nth_error _ _); apply settle_frame_refl. Qed.

Lemma keeps_get_game_state (i : nat) : keeps i get_game_state.
Proof. intros w. apply settle_frame_refl. Qed.

Lemma keeps_put_user (i : nat) (x : UserPosition) : keeps i (put_user i x).
Proof. intros w. apply frame_user. Qed.

Lemma keeps_faction_at (i : nat) (g : GameState) (k : Z) : keeps i (faction_at g k).
Proof. apply keeps_unwrap. Qed.

Lemma keeps_transfer_shop (i : nat) (amount : Z) :
  keeps i (token_transfer Vault ShopTreasury amount).
Proof.
  intros w. destruct (token_transfer Vault ShopTreasury amount w) as [r w'] eqn:E.
  exact (frame_transfer i w w' ShopTreasury amount r (or_introl eq_refl) E).
Qed.

Lemma keeps_transfer_user (i : nat) (amount : Z) :
  0 <= amount -> keeps i (token_transfer Vault (UserUsdc i) amount).
Proof.
  intros Ha w. destruct (token_transfer Vault (UserUsdc i) amount w) as [r w'] eqn:E.
  exact (frame_transfer i w w' (UserUsdc i) amount r (or_intror (conj eq_refl Ha)) E).
Qed.

(** The TVL credit at the end of the compounding fallback. *)
Lemma keeps_credit (i : nat) (k r : Z) :
  keeps i (g <- get_game_state ;;
           t <- unwrap (checked_add (total_tvl g) r) ;;
           put_game_state (set_total_tvl g t) ;;
           g <- get_game_state ;;
           f <- faction_at g k ;;
           v <- unwrap (checked_add (tvl f) r) ;;
           put_faction k (set_tvl f v)).
Proof.
  intros w. cbv [bind get_game_state unwrap ret throw put_game_state faction_at put_faction].
  destruct (checked_add (total_tvl (game_state w)) r) as [t|]; [|apply settle_frame_refl].
  cbn [snd game_state set_game_state].
  destruct (faction_get (factions (set_total_tvl (game_state w) t)) k) as [f|] eqn:Hf;
    [|apply frame_game, game_frame_total].
  destruct (checked_add (tvl f) r) as [v|]; [|apply frame_game, game_frame_total].
  cbn [snd]. eapply settle_frame_trans; [apply frame_game, game_frame_total|].
  apply frame_game. exact (game_frame_tvl _ _ _ _ Hf).
Qed.

Ltac keeps_solve :=
  repeat (cbv beta zeta;
          first [ apply keeps_ret | apply keeps_throw | apply keeps_unwrap
                | apply keeps_get_user | apply keeps_get_game_state | apply keeps_put_user
                | apply keeps_faction_at | apply keeps_transfer_shop | apply keeps_credit
                | apply keeps_bind; intros
                | match goal with
                  | |- keeps _ (if ?c then _ else _) => destruct c eqn:?
                  | |- keeps _ (match ?x with _ => _ end) => destruct x
                  end ]).

Lemma process_rule_keeps (i : nat) (rule : AutomationRule) (budget : Z) :
  keeps i (process_rule i rule budget).
Proof. unfold process_rule. keeps_solve. Qed.

Lemma apply_buffs_keeps (i : nat) (y : Z) : keeps i (apply_buffs i y).
Proof. unfold apply_buffs. keeps_solve. Qed.

Lemma automation_pipeline_keeps (i : nat) (y : Z) : keeps i (automation_pipeline i y).
Proof.
  unfold automation_pipeline. keeps_solve; try apply process_rule_keeps.
  apply keeps_transfer_user. zbool. lia.
Qed.

Lemma execute_settlement_keeps (i : nat) (y : Z) : keeps i (execute_settlement i y).
Proof. unfold execute_settlement. keeps_solve; try apply apply_buffs_keeps; apply automation_pipeline_keeps. Qed.



Lemma apply_buffs_winner (w : World) (i : nat) (u : UserPosition) (f : FactionState) (y : Z) :
  user_at w i = Some u ->
  faction_get (factions (game_state w)) (faction_id u) = Some f ->
  0 < score f ->
  apply_buffs i y w =
    if 0 <? sword_count (inventory u) then
      if y + y / 5 <=? U64_MAX then (inr (Some (y + y / 5)), w) else (inl Panic, w)
    else (inr (Some y), w).
Proof.
  intros Hn Hf Hs. unfold apply_buffs, user_at in *.
  cbv [bind ret throw unwrap get_game_state faction_at get_user checked_add].
  rewrite Hn, Hf. replace (score f <=? 0) with false by (symmetry; apply Z.leb_gt; lia).
  destruct (0 <? sword_count (inventory u)); [|reflexivity].
  destruct (y + y / 5 <=? U64_MAX); reflexivity.
Qed.

Lemma process_rule_none (w : World) (i : nat) (rule : AutomationRule) (budget : Z) :
  item_id rule = 0 -> process_rule i rule budget w = (inr (false, budget), w).
Proof. intros H. unfold process_rule. now rewrite H. Qed.

(** With two empty slots, the pipeline goes straight to the fallback. *)
Lemma automation_pipeline_no_slots (w : World) (i : nat) (u : UserPosition) (y : Z) :
  user_at w i = Some u ->
  item_id (priority_slot_1 (automation_settings u)) = 0 ->
  item_id (priority_slot_2 (automation_settings u)) = 0 ->
  0 < y ->
  automation_pipeline i y w =
    match fallback_action (automation_settings u) with
    | SendToWallet => token_transfer Vault (UserUsdc i) y w
    | AutoCompound =>
        (user_position <- get_user i ;;
         d <- unwrap (checked_add (deposited_amount user_position) y) ;;
         put_user i (set_deposited_amount user_position d) ;;
         g <- get_game_state ;;
         t <- unwrap (checked_add (total_tvl g) y) ;;
         put_game_state (set_total_tvl g t) ;;
         g <- get_game_state ;;
         f <- faction_at g (faction_id user_position) ;;
         v <- unwrap (checked_add (tvl f) y) ;;
         put_faction (faction_id user_position) (set_tvl f v)) w
    end.
Proof.
  intros Hn H1 H2 Hy. unfold automation_pipeline, user_at in *.
  replace (y =? 0) with false by (symmetry; apply Z.eqb_neq; lia).
  rewrite !bind_unfold. unfold get_user at 1. rewrite Hn.
  rewrite bind_unfold, (process_rule_none _ _ _ _ H1).
  rewrite bind_unfold, (process_rule_none _ _ _ _ H2). cbn [snd].
  replace (0 <? y) with true by (symmetry; apply Z.ltb_lt; lia).
  destruct (fallback_action (automation_settings u)); reflexivity.
Qed.

(** A settlement of zero yield for a position of a winning faction changes nothing. *)
Theorem settlement_zero_yield (w : World) (i : nat) (u : UserPosition) (f : FactionState)
  (Hn : user_at w i = Some u)
  (Hf : faction_get (factions (game_state w)) (faction_id u) = Some f)
  (Hscore : 0 < score f) :
  execute_settlement i 0 w = (inr tt, w).
Proof.
  unfold execute_settlement. rewrite bind_unfold, (apply_buffs_winner w i u f 0 Hn Hf Hscore).
  destruct (0 <? sword_count (inventory u)); reflexivity.
Qed.

Lemma settlement_zero_yield_witness :
  let u := sample_user 1 (mkUserInventory 1 0 0) (mkAutomationRule 1 0) default_rule
             SendToWallet in
  let w := sample_world u 30000000 in
  execute_settlement 1 0 w = (inr tt, w).
Proof.
  intros u w. exact (settlement_zero_yield w 1 u (faction1 sample_factions) eq_refl eq_refl
                       ltac:(cbn; lia)).
Defined.

Lemma settlement_no_slots (w : World) (i : nat) (u : UserPosition) (f : FactionState) (y : Z) :
  user_at w i = Some u ->
  faction_get (factions (game_state w)) (faction_id u) = Some f ->
  0 < score f -> sword_count (inventory u) <= 0 ->
  item_id (priority_slot_1 (automation_settings u)) = 0 ->
  item_id (priority_slot_2 (automation_settings u)) = 0 ->
  0 < y ->
  execute_settlement i y w = automation_pipeline i y w.
Proof.
  intros Hn Hf Hs Hsw H1 H2 Hy. unfold execute_settlement.
  rewrite bind_unfold, (apply_buffs_winner w i u f y Hn Hf Hs).
  now replace (0 <? sword_count (inventory u)) with false by (symmetry; apply Z.ltb_ge; lia).
Qed.







Lemma compound_run (w : World) (i : nat) (u : UserPosition) (f : FactionState) (y : Z) :
  user_at w i = Some u ->
  faction_get (factions (game_state w)) (faction_id u) = Some f ->
  0 < score f -> sword_count (inventory u) <= 0 ->
  item_id (priority_slot_1 (automation_settings u)) = 0 ->
  item_id (priority_slot_2 (automation_settings u)) = 0 ->
  fallback_action (automation_settings u) = AutoCompound ->
  0 < y ->
  deposited_amount u + y <= U64_MAX ->
  total_tvl (game_state w) + y <= U64_MAX ->
  tvl f + y <= U64_MAX ->
  commit (execute_settlement i y) w =
    inr (mkWorld
           (set_factions (set_total_tvl (game_state w) (total_tvl (game_state w) + y))
              (faction_put (factions (game_state w)) (faction_id u) (set_tvl f (tvl f + y))))
           (list_set (user_positions w) i (set_deposited_amount u (deposited_amount u + y)))
           (token_balance w)).
Proof.
  intros Hn Hf Hs Hsw H1 H2 Hfb Hy Hd Ht Hv. unfold commit.
  rewrite (settlement_no_slots w i u f y Hn Hf Hs Hsw H1 H2 Hy),
    (automation_pipeline_no_slots w i u y Hn H1 H2 Hy), Hfb.
  unfold user_at in Hn.
  cbv [bind ret throw unwrap get_game_state put_game_state faction_at put_faction
       get_user put_user checked_add set_user_positions set_game_state].
  rewrite Hn. run_tests. rewrite Hf. run_tests. reflexivity.
Qed.

(** For a winning position without sword, with empty slots and [AutoCompound], a settlement of [y > 0] adds [y] to the deposit, the total TVL and the faction TVL and moves no tokens. *)
Theorem settlement_auto_compound (w : World) (i : nat) (u : UserPosition) (f : FactionState)
  (y : Z)
  (Hn : user_at w i = Some u)
  (Hf : faction_get (factions (game_state w)) (faction_id u) = Some f)
  (Hscore : 0 < score f) (Hsw : sword_count (inventory u) = 0)
  (H1 : item_id (priority_slot_1 (automation_settings u)) = 0)
  (H2 : item_id (priority_slot_2 (automation_settings u)) = 0)
  (Hfb : fallback_action (automation_settings u) = AutoCompound)
  (Hl : ledger_ok_w w)
  (Hnn : Forall (fun u => 0 <= deposited_amount u) (user_positions w))
  (Hy : 0 < y) (Ht : total_tvl (game_state w) + y <= U64_MAX) :
  exists w', commit (execute_settlement i y) w = inr w' /\
    user_positions w' =
      list_set (user_positions w) i (set_deposited_amount u (deposited_amount u + y)) /\
    game_state w' =
      set_factions (set_total_tvl (game_state w) (total_tvl (game_state w) + y))
        (faction_put (factions (game_state w)) (faction_id u) (set_tvl f (tvl f + y))) /\
    token_balance w' = token_balance w.
Proof.
  pose proof (faction_get_tvl_ledger _ _ _ _ Hl Hf) as Htf.
  pose proof (faction_deposits_ge (faction_id u) _ _ _ Hnn Hn eq_refl) as Hfd.
  pose proof (faction_deposits_le_sum (faction_id u) _ Hnn) as Hfs.
  destruct Hl as (Hts & _).
  eexists. split.
  - exact (compound_run w i u f y Hn Hf Hscore ltac:(lia) H1 H2 Hfb Hy ltac:(lia) Ht ltac:(lia)).
  - repeat split.
Qed.

Lemma settlement_auto_compound_witness :
  let u := sample_user 1 default_inventory default_rule default_rule AutoCompound in
  let w := sample_world u 0 in
  exists w', commit (execute_settlement 1 3000000) w = inr w' /\
    total_tvl (game_state w') = 13000000 /\ token_balance w' = token_balance w.
Proof.
  intros u w.
  assert (Hl : ledger_ok_w w).
  { unfold ledger_ok_w; cbn. repeat split; repeat constructor; cbn; lia. }
  destruct (settlement_auto_compound w 1 u (faction1 sample_factions) 3000000 eq_refl eq_refl
              ltac:(cbn; lia) eq_refl eq_refl eq_refl eq_refl Hl
              ltac:(repeat constructor; cbn; lia) ltac:(lia) ltac:(cbn; unfold U64_MAX; lia))
    as (w' & Hc & _ & Hg & Hb).
  exists w'. split; [exact Hc|]. split; [rewrite Hg; reflexivity|exact Hb].
Defined.



(** ** The registry of positions, epochs and status across transactions *)

Definition registry_view (u : UserPosition) : Z * Z := (owner u, faction_id u).

(** How one committed instruction changes the list of positions: it appends
    a fresh position of a valid faction registered at the current epoch, or
    it keeps every position's owner and faction and leaves its
    [last_deposit_epoch] alone or sets it to the current epoch. *)
Definition positions_step (g : GameState) (us us' : list UserPosition) : Prop :=
  (exists p, us' = us ++ [p] /\ ~ In (owner p) (map owner us) /\
             0 <= faction_id p <= 2 /\ last_deposit_epoch p = epoch_number g) \/
  Forall2 (fun u u' => registry_view u' = registry_view u /\
                       (last_deposit_epoch u' = last_deposit_epoch u \/
                        last_deposit_epoch u' = epoch_number g)) us us'.

(** How one committed instruction changes the epoch and the status. *)
Definition game_step (g g' : GameState) : Prop :=
  epoch_number g <= epoch_number g' /\ (status g' = status g \/ status g' <> Paused).

Lemma Forall2_refl_list {A} (R : A -> A -> Prop) (l : list A) :
  (forall x, In x l -> R x x) -> Forall2 R l l.
Proof.
  induction l as [|x l IH]; intros H; constructor.
  - apply H. now left.
  - apply IH. intros y Hy. apply H. now right.
Qed.

Lemma Forall2_list_set {A} (R : A -> A -> Prop) (l : list A) (i : nat) (x y : A) :
  (forall z, In z l -> R z z) -> nth_error l i = Some y -> R y x ->
  Forall2 R l (list_set l i x).
Proof.
  revert i; induction l as [|h t IH]; intros [|i] Hr Hn Hy; cbn in *; try discriminate.
  - injection Hn as ->. constructor; [exact Hy|].
    apply Forall2_refl_list. intros z Hz. apply Hr. now right.
  - constructor; [apply Hr; now left|]. apply (IH i); auto.
Qed.

Lemma Forall2_of_map {A B} (p : A -> B) (l l' : list A) :
  map p l' = map p l -> Forall2 (fun u u' => p u' = p u) l l'.
Proof.
  revert l'; induction l as [|h t IH]; intros [|h' t'] H; cbn in H; try discriminate.
  - constructor.
  - injection H as H1 H2. constructor; [exact H1|]. apply IH, H2.
Qed.

Ltac pos_same :=
  right; apply Forall2_refl_list; intros ? _; split; [reflexivity|left; reflexivity].

Ltac pos_set :=
  right; eapply Forall2_list_set;
    [intros ? _; split; [reflexivity|left; reflexivity] | eassumption | ].

Lemma instruction_step (ins : Instruction) (w w' : World) :
  instruction_ok ins ->
  commit (instruction_denote ins) w = inr w' ->
  positions_step (game_state w) (user_positions w) (user_positions w') /\
  game_step (game_state w) (game_state w').
Proof.
  intros Hok H. destruct ins; cbn in H, Hok.
  - (* register_user *)
    unfold commit, register_user, throw in H. destruct (faction_id0 <? 3) eqn:Ek; [|discriminate].
    destruct (existsb _ _) eqn:Ee; [discriminate|]. injection H as <-. cbn.
    split; [|split; [cbn; lia|left; reflexivity]].
    left. eexists. split; [reflexivity|]. cbn. zbool. unfold u8_ok in Hok.
    split; [|split; [cbn; lia|reflexivity]].
    intros Hin. apply in_map_iff in Hin as (u & Hu & Hin).
    assert (Hx : existsb (fun u => owner u =? user) (user_positions w) = true).
    { apply existsb_exists. exists u. split; [exact Hin|]. now apply Z.eqb_eq. }
    congruence.
  - (* deposit *)
    destruct (deposit_inv w w' i amount H) as (u & f & Hn & Hf & _ & _ & _ & _ & _ & ->).
    cbn. split; [|split; [cbn; lia|left; reflexivity]].
    pos_set. split; [reflexivity|right; reflexivity].
  - (* withdraw *)
    unfold withdraw in H. mexec_all_in H. crush_in H; try discriminate.
    injection H as <-. cbn. split; [|split; [cbn; lia|left; reflexivity]].
    pos_set. split; [reflexivity|left; reflexivity].
  - (* update_automation *)
    unfold update_automation in H. mexec_all_in H. crush_in H; try discriminate.
    injection H as <-. cbn. split; [|split; [cbn; lia|left; reflexivity]].
    pos_set. split; [reflexivity|left; reflexivity].
  - (* resolve_epoch *)
    unfold resolve_epoch in H. mexec_all_in H. crush_in H; try discriminate;
      injection H as <-; cbn; (split; [pos_same|split; [cbn; lia|right; discriminate]]).
  - (* execute_settlement *)
    unfold commit in H.
    destruct (execute_settlement i yield_amount w) as [[e|[]] w1] eqn:E; [discriminate|].
    injection H as <-.
    pose proof (execute_settlement_keeps i yield_amount w) as Hk. rewrite E in Hk.
    destruct Hk as ((_ & He & _ & _ & Hs & _) & _). split.
    + right.
      pose proof (execute_settlement_frame
                    (fun u => (registry_view u, last_deposit_epoch u)) i yield_amount w w1
                    (inr tt) (fun u v => eq_refl) (fun u v => eq_refl) E) as Hm.
      apply Forall2_of_map in Hm. revert Hm. apply Forall2_impl.
      intros u u' Hu. unfold registry_view in *. injection Hu as H1 H2 H3.
      split; [congruence|left; exact H3].
    + cbn in He, Hs. split; [cbn; lia|left; exact Hs].
  - (* start_new_epoch *)
    unfold start_new_epoch in H. mexec_all_in H. crush_in H; try discriminate.
    injection H as <-. cbn. split; [pos_same|]. split; [cbn; lia|right; discriminate].
  - (* inject_yield *)
    unfold inject_yield in H. mexec_all_in H. crush_in H; try discriminate;
      injection H as <-; cbn; (split; [pos_same|split; [cbn; lia|left; reflexivity]]).
Qed.

Lemma instruction_game_step (ins : Instruction) (w w' : World) :
  commit (instruction_denote ins) w = inr w' -> game_step (game_state w) (game_state w').
Proof.
  intros H. destruct ins; cbn in H.
  - unfold commit, register_user, throw in H. destruct (faction_id0 <? 3); [|discriminate].
    destruct (existsb _ _); [discriminate|]. injection H as <-. cbn.
    split; [cbn; lia|left; reflexivity].
  - destruct (deposit_inv w w' i amount H) as (u & f & _ & _ & _ & _ & _ & _ & _ & ->).
    cbn. split; [cbn; lia|left; reflexivity].
  - unfold withdraw in H. mexec_all_in H. crush_in H; try discriminate.
    injection H as <-. cbn. split; [cbn; lia|left; reflexivity].
  - unfold update_automation in H. mexec_all_in H. crush_in H; try discriminate.
    injection H as <-. cbn. split; [cbn; lia|left; reflexivity].
  - unfold resolve_epoch in H. mexec_all_in H. crush_in H; try discriminate;
      injection H as <-; cbn; (split; [cbn; lia|right; discriminate]).
  - unfold commit in H.
    destruct (execute_settlement i yield_amount w) as [[e|[]] w1] eqn:E; [discriminate|].
    injection H as <-.
    pose proof (execute_settlement_keeps i yield_amount w) as Hk. rewrite E in Hk.
    destruct Hk as ((_ & He & _ & _ & Hs & _) & _). cbn in He, Hs.
    split; [cbn; lia|left; exact Hs].
  - unfold start_new_epoch in H. mexec_all_in H. crush_in H; try discriminate.
    injection H as <-. cbn. split; [cbn; lia|right; discriminate].
  - unfold inject_yield in H. mexec_all_in H. crush_in H; try discriminate;
      injection H as <-; cbn; (split; [cbn; lia|left; reflexivity]).
Qed.

(** Owners are pairwise distinct and every position belongs to one of the
    three factions. *)
Definition registry_ok (us : list UserPosition) : Prop :=
  NoDup (map owner us) /\ Forall (fun u => 0 <= faction_id u <= 2) us.

Lemma NoDup_snoc {A} (l : list A) (x : A) : NoDup l -> ~ In x l -> NoDup (l ++ [x]).
Proof.
  induction 1 as [|a l Ha Hl IH]; intros Hx; cbn.
  - constructor; [intros []|constructor].
  - constructor.
    + intros Hin. apply in_app_or in Hin as [Hin|[<-|[]]]; [contradiction|].
      apply Hx. now left.
    + apply IH. intros Hin. apply Hx. now right.
Qed.

Lemma Forall2_map_eq {A B} (p : A -> B) (R : A -> A -> Prop) (l l' : list A) :
  (forall u u', R u u' -> p u' = p u) -> Forall2 R l l' -> map p l' = map p l.
Proof. intros Hp. induction 1; cbn; [reflexivity|]. f_equal; auto. Qed.

Lemma registry_ok_view (us us' : list UserPosition) :
  map registry_view us' = map registry_view us -> registry_ok us -> registry_ok us'.
Proof.
  intros Hm (Hd & Hf).
  assert (Ho : map owner us' = map owner us).
  { replace (map owner us') with (map fst (map registry_view us')) by (now rewrite map_map).
    replace (map owner us) with (map fst (map registry_view us)) by (now rewrite map_map).
    now rewrite Hm. }
  assert (Hk : map faction_id us' = map faction_id us).
  { replace (map faction_id us') with (map snd (map registry_view us')) by (now rewrite map_map).
    replace (map faction_id us) with (map snd (map registry_view us)) by (now rewrite map_map).
    now rewrite Hm. }
  split; [now rewrite Ho|].
  apply Forall_map with (f := faction_id) (P := fun k => 0 <= k <= 2).
  rewrite Hk. now apply Forall_map.
Qed.

Lemma positions_step_registry (g : GameState) (us us' : list UserPosition) :
  positions_step g us us' -> registry_ok us ->
  registry_ok us' /\ exists s, map registry_view us' = map registry_view us ++ s.
Proof.
  intros [(p & -> & Hin & Hk & _)|H2] Hr.
  - destruct Hr as (Hd & Hf). split; [split|].
    + rewrite map_app. cbn. now apply NoDup_snoc.
    + apply Forall_app. split; [exact Hf|]. now constructor.
    + exists [registry_view p]. now rewrite map_app.
  - assert (Hm : map registry_view us' = map registry_view us)
      by (apply (Forall2_map_eq _ _ _ _ (fun u u' H => proj1 H) H2)).
    split; [exact (registry_ok_view _ _ Hm Hr)|]. exists []. now rewrite app_nil_r.
Qed.

(** Along any sequence of transactions, distinct owners and faction ids in 0..2 stay true, and the (owner, faction) list of positions only grows at its end. *)
Theorem registry_invariant (w : World) (l : list Instruction)
  (Hl : Forall instruction_ok l) (Hr : registry_ok (user_positions w)) :
  registry_ok (user_positions (run_transactions w l)) /\
  exists s, map registry_view (user_positions (run_transactions w l)) =
            map registry_view (user_positions w) ++ s.
Proof.
  revert w Hr. induction Hl as [|ins l Hins Hl IH]; intros w Hr; cbn.
  - split; [exact Hr|]. exists []. now rewrite app_nil_r.
  - unfold after. destruct (commit (instruction_denote ins) w) as [e|w'] eqn:E.
    + exact (IH w Hr).
    + destruct (instruction_step ins w w' Hins E) as [Hp _].
      destruct (positions_step_registry _ _ _ Hp Hr) as [Hr' [s1 Hs1]].
      destruct (IH w' Hr') as [Hr'' [s2 Hs2]].
      split; [exact Hr''|]. exists (s1 ++ s2). now rewrite Hs2, Hs1, app_assoc.
Qed.

Definition registry_sample_transactions : list Instruction :=
  [IRegisterUser 21 0; IRegisterUser 22 1; IRegisterUser 21 2; IRegisterUser 23 5;
   IRegisterUser 24 2].

Lemma registry_invariant_witness :
  let w := mkWorld (mkGameState 7 1 1000 260200 0 initial_factions Active) [] (fun _ => 0) in
  Forall instruction_ok registry_sample_transactions /\
  registry_ok (user_positions (run_transactions w registry_sample_transactions)) /\
  map registry_view (user_positions (run_transactions w registry_sample_transactions)) =
    [(21, 0); (22, 1); (24, 2)].
Proof.
  intros w.
  assert (Hl : Forall instruction_ok registry_sample_transactions).
  { repeat constructor; cbn; lia. }
  assert (Hr : registry_ok (user_positions w)) by (split; constructor).
  split; [exact Hl|]. split; [exact (proj1 (registry_invariant w _ Hl Hr))|].
  reflexivity.
Defined.

(** Every position's [last_deposit_epoch] is at most the current epoch. *)
Definition epoch_ok (w : World) : Prop :=
  Forall (fun u => last_deposit_epoch u <= epoch_number (game_state w)) (user_positions w).

(** Along any sequence of transactions no position's deposit epoch exceeds the current epoch, and the epoch never decreases. *)
Theorem epoch_invariant (w : World) (l : list Instruction)
  (Hl : Forall instruction_ok l) (He : epoch_ok w) :
  epoch_ok (run_transactions w l) /\
  epoch_number (game_state w) <= epoch_number (game_state (run_transactions w l)).
Proof.
  revert w He. induction Hl as [|ins l Hins Hl IH]; intros w He; cbn.
  - split; [exact He|lia].
  - unfold after. destruct (commit (instruction_denote ins) w) as [e|w'] eqn:E.
    + exact (IH w He).
    + destruct (instruction_step ins w w' Hins E) as [Hp [Hg _]].
      assert (He' : epoch_ok w').
      { unfold epoch_ok in *. destruct Hp as [(p & -> & _ & _ & Hlp)|H2].
        - apply Forall_app. split; [|constructor; [lia|constructor]].
          revert He. apply Forall_impl. intros u Hu. lia.
        - clear E. induction H2 as [|u u' us us' [_ Hlast] _ IH2]; constructor.
          + inversion He. destruct Hlast; lia.
          + apply IH2. now inversion He. }
      destruct (IH w' He') as [H1 H2]. split; [exact H1|lia].
Qed.

Lemma epoch_invariant_witness :
  let w := mkWorld (mkGameState 7 1 1000 260200 0 initial_factions Active) [] (fun _ => 0) in
  let l := [IRegisterUser 21 0; IStartNewEpoch 7 5000; IRegisterUser 22 1] in
  Forall instruction_ok l /\ epoch_ok (run_transactions w l) /\
  epoch_number (game_state (run_transactions w l)) = 2.
Proof.
  intros w l.
  assert (Hl : Forall instruction_ok l).
  { repeat constructor; cbn; unfold I64_MIN, I64_MAX; lia. }
  split; [exact Hl|]. split; [exact (proj1 (epoch_invariant w l Hl (Forall_nil _)))|].
  reflexivity.
Defined.

Lemma genesis_status (admin_key now : Z) (balances : TokenAccount -> Z) (w : World) :
  genesis admin_key now balances = Some w -> status (game_state w) = Active.
Proof.
  unfold genesis, initialize_game. intros H. mexec_all_in H. crush_in H; try discriminate.
  injection H as <-. reflexivity.
Qed.

(** No sequence of transactions after [initialize_game] reaches the status [Paused]. *)
Theorem never_paused (admin_key now : Z) (balances : TokenAccount -> Z) (w0 : World)
  (l : list Instruction) (Hg : genesis admin_key now balances = Some w0) :
  status (game_state (run_transactions w0 l)) <> Paused.
Proof.
  assert (H0 : status (game_state w0) <> Paused) by (rewrite (genesis_status _ _ _ _ Hg); discriminate).
  clear Hg. revert w0 H0. induction l as [|ins l IH]; intros w H0; cbn; [exact H0|].
  apply IH. unfold after. destruct (commit (instruction_denote ins) w) as [e|w'] eqn:E; [exact H0|].
  destruct (instruction_game_step ins w w' E) as [_ [Hs|Hs]]; [congruence|exact Hs].
Qed.

Lemma never_paused_witness :
  exists w0, genesis 7 1000 (fun _ => 0) = Some w0 /\
    status (game_state (run_transactions w0 [IResolveEpoch 7; IStartNewEpoch 7 5000]))
      <> Paused.
Proof.
  eexists. split; [reflexivity|].
  exact (never_paused 7 1000 (fun _ => 0) _ _ eq_refl).
Defined.

(** The world with the status of the game set to [s]. *)
Definition with_status (w : World) (s : GameStatus) : World :=
  set_game_state w (set_status (game_state w) s).

(** [m] does not read the status: run from any status it does what it does
    from [w], and leaves the status as it found it. *)
Definition status_blind {A} (m : M A) : Prop :=
  forall w s, m (with_status w s) = (fst (m w), with_status (snd (m w)) s).

Ltac blind_split :=
  repeat (cbn -[U64_MAX get_item_price faction_get list_set process_rule];
          first
            [ match goal with
              | |- context [if ?c then _ else _] => destruct c eqn:?
              end
            | match goal with
              | |- context [match ?x with _ => _ end] =>
                  lazymatch type of x with
                  | option _ =>
                      lazymatch x with
                      | nth_error _ _ => destruct x eqn:?
                      | faction_get _ _ => destruct x eqn:?
                      end
                  end
              end ]); try reflexivity.

Lemma process_rule_status_blind (i : nat) (rule : AutomationRule) (budget : Z) :
  status_blind (process_rule i rule budget).
Proof.
  intros w s. unfold process_rule.
  cbv [bind ret throw unwrap get_game_state put_game_state faction_at put_faction
       get_user put_user token_transfer checked_add checked_sub set_user_positions
       set_game_state set_token_balance with_status].
  blind_split.
Qed.

Ltac blind_unfold :=
  cbv [bind ret throw unwrap get_game_state put_game_state faction_at put_faction
       get_user put_user token_transfer checked_add checked_sub set_user_positions
       set_game_state set_token_balance with_status require_admin add_assign_u64 add_i64].

Lemma apply_buffs_status_blind (i : nat) (y : Z) : status_blind (apply_buffs i y).
Proof. intros w s. unfold apply_buffs. blind_unfold. blind_split. Qed.

Lemma bind_blind {A B} (m : M A) (k : A -> M B) :
  status_blind m -> (forall a, status_blind (k a)) -> status_blind (bind m k).
Proof.
  intros Hm Hk w s. rewrite !bind_unfold, Hm.
  destruct (m w) as [[e|a] w1]; cbn [fst snd]; [reflexivity|apply Hk].
Qed.

Lemma get_user_status_blind (i : nat) : status_blind (get_user i).
Proof. intros w s. blind_unfold. blind_split. Qed.

Lemma automation_pipeline_status_blind (i : nat) (y : Z) : status_blind (automation_pipeline i y).
Proof.
  unfold automation_pipeline. destruct (y =? 0); [intros w s; reflexivity|].
  apply bind_blind; [apply get_user_status_blind|intros u].
  apply bind_blind; [apply process_rule_status_blind|intros r1].
  apply bind_blind; [apply process_rule_status_blind|intros r2].
  intros w s. destruct (0 <? snd r2); [|reflexivity].
  destruct (fallback_action (automation_settings u)); blind_unfold; blind_split.
Qed.

Lemma execute_settlement_status_blind (i : nat) (y : Z) : status_blind (execute_settlement i y).
Proof.
  unfold execute_settlement. apply bind_blind; [apply apply_buffs_status_blind|intros [fy|]].
  - apply automation_pipeline_status_blind.
  - intros w s; reflexivity.
Qed.

Lemma deposit_status_blind (i : nat) (amount : Z) : status_blind (deposit i amount).
Proof. intros w s. unfold deposit. blind_unfold. blind_split. Qed.

Lemma withdraw_status_blind (i : nat) (amount : Z) : status_blind (withdraw i amount).
Proof. intros w s. unfold withdraw. blind_unfold. blind_split. Qed.

Lemma update_automation_status_blind (i : nat) s1 s2 fb : status_blind (update_automation i s1 s2 fb).
Proof. intros w s. unfold update_automation. blind_unfold. blind_split. Qed.

Lemma register_user_status_blind (user k : Z) : status_blind (register_user user k).
Proof. intros w s. unfold register_user. blind_unfold. blind_split. Qed.

Lemma inject_yield_status_blind (amount : Z) : status_blind (inject_yield amount).
Proof. intros w s. unfold inject_yield. blind_unfold. blind_split. Qed.

Lemma resolve_epoch_status_free (signer : Z) (w : World) (s : GameStatus) :
  commit (resolve_epoch signer) (with_status w s) = commit (resolve_epoch signer) w.
Proof.
  unfold commit, resolve_epoch. blind_unfold.
  cbn -[f64_of_Z f64_div f64_sub f64_mul f64_eqb f64_to_i64].
  destruct (signer =? admin (game_state w)); reflexivity.
Qed.

Lemma start_new_epoch_status_free (signer now : Z) (w : World) (s : GameStatus) :
  commit (start_new_epoch signer now) (with_status w s) = commit (start_new_epoch signer now) w.
Proof. unfold commit, start_new_epoch. blind_unfold. blind_split. Qed.

Definition overwrites_status (ins : Instruction) : bool :=
  match ins with
  | IResolveEpoch _ | IStartNewEpoch _ _ => true
  | _ => false
  end.

Lemma commit_blind (m : M unit) (w : World) (s : GameStatus) :
  status_blind m ->
  commit m (with_status w s) =
  match commit m w with inl e => inl e | inr w' => inr (with_status w' s) end.
Proof.
  intros Hm. unfold commit. rewrite Hm. destruct (m w) as [[e|[]] w']; reflexivity.
Qed.

(** No instruction reads the game status: run from a world with another status, an instruction gives the same outcome, with that status kept, except [resolve_epoch] and [start_new_epoch], which overwrite it. *)
Theorem status_never_read (ins : Instruction) (w : World) (s : GameStatus) :
  commit (instruction_denote ins) (with_status w s) =
  if overwrites_status ins then commit (instruction_denote ins) w
  else match commit (instruction_denote ins) w with
       | inl e => inl e
       | inr w' => inr (with_status w' s)
       end.
Proof.
  destruct ins; cbn [overwrites_status instruction_denote];
    first [ apply resolve_epoch_status_free | apply start_new_epoch_status_free
          | apply commit_blind ].
  - apply register_user_status_blind.
  - apply deposit_status_blind.
  - apply withdraw_status_blind.
  - apply update_automation_status_blind.
  - apply execute_settlement_status_blind.
  - apply inject_yield_status_blind.
Qed.

End Zol.
